(** * Conway's Game of Life with ripples: a model of [automata.js]

    The page script comes in two variants.  Variant A runs a fixed animation
    loop over an 80 x 80 board, stamps letters and small shapes on it and
    lets a click start an expanding ripple.  Variant B has start / pause /
    step / clear / randomise controls and toggles a cell on a click.

    The functions of the script are embedded as Rocq functions of the same
    name.  The module-level variables of the script ([grid], [gridSize],
    [running], [ripples], ...) become the fields of a state record that the
    handlers pass along; the helpers take the parts they read as arguments.

    - A grid is an array of rows, [list (list Z)], indexed [grid[y][x]].
    - Coordinates and sizes are JavaScript numbers that only ever hold
      integers: they are [Z].  Time stamps and [Math.random()] results are
      doubles, taken here as the rationals they denote.
    - An operation that can raise ([TypeError] on a missing row,
      [RangeError] on a negative array length) returns [option]; loops are
      folds in the option monad over the list of their indices.
    - [Math.random()] is a sequence [random : nat → Q] given from outside;
      the state counts the draws made so far.
    - The canvas is the list of fill colours [drawGrid] paints; the
      conversion of a click from pixels to a cell is left to the caller of
      the click handlers, which take the cell.

    The definitions come first, the properties after them. *)

From Stdlib Require Import ZArith QArith Qround Reals Lra Lia Floats Uint63.
From Stdlib Require Import Permutation Ascii String.
From stdpp Require Import base option list numbers strings.

Local Open Scope Z_scope.

(** ** Loops *)

(** [for (const a of l) body], where [body] may raise. *)
Fixpoint forEach {A S : Type} (l : list A) (body : A → S → option S) (s : S)
  : option S :=
  match l with
  | [] => Some s
  | a :: l' => s' ← body a s; forEach l' body s'
  end.

(** [for (let i = lo; i <= hi; i++)]: the indices the loop visits. *)
Definition upTo (lo hi : Z) : list Z := seqZ lo (hi - lo + 1).

(** [for (let i = 0; i < n; i++)]. *)
Definition below (n : Z) : list Z := seqZ 0 n.

(** ** The grid store *)

Abbreviation Grid := (list (list Z)).

(** The guard [x >= 0 && x < gridSize && y >= 0 && y < gridSize], which the
    script writes out before every access by a computed coordinate. *)
Definition inGrid (gridSize x y : Z) : bool :=
  (0 <=? x) && (x <? gridSize) && (0 <=? y) && (y <? gridSize).

(** [grid[y][x]] read as a number.  [None] stands for both ways the read
    can go wrong: row [y] is missing (a [TypeError]), or the row is there
    and has no element [x] (the value [undefined]). *)
Definition readCell (g : Grid) (x y : Z) : option Z :=
  if (0 <=? x) && (0 <=? y) then row ← g !! Z.to_nat y; row !! Z.to_nat x
  else None.

(** [grid[y][x] = v].  A missing row raises.  Writing past the end of an
    existing row would make the row a sparse array; the model stops there
    as well, and no guarded write on a square grid gets there. *)
Definition writeCell (g : Grid) (x y v : Z) : option Grid :=
  if (0 <=? x) && (0 <=? y) then
    row ← g !! Z.to_nat y;
    if (x <? Z.of_nat (length row))
    then Some (<[Z.to_nat y := <[Z.to_nat x := v]> row]> g)
    else None
  else None.

(** ** Ripples *)

Record Ripple : Type := mkRipple {
  rx : Z;
  ry : Z;
  age : Z;
  maxAge : Z
}.

#[global] Instance Ripple_eq_dec : EqDecision Ripple.
Proof. solve_decision. Defined.

(** [Math.sqrt(d2) >= h / 2] and [Math.sqrt(d2) <= h / 2] for integers [d2]
    and [h], decided on the squares.  [4 * d2] is a multiple of four and
    [h] is odd where the script uses them, so the two sides are never
    close and the rounding of the square root does not change the answer;
    [ring_double_agrees] below checks this on every offset and radius a
    ripple can have. *)
Definition sqrtGeHalf (d2 h : Z) : bool := (h <=? 0) || (h * h <=? 4 * d2).
Definition sqrtLeHalf (d2 h : Z) : bool := (0 <=? h) && (4 * d2 <=? h * h).

(** [dist >= radius - 0.5 && dist <= radius + 0.5] with
    [dist = Math.sqrt(dx * dx + dy * dy)]. *)
Definition onRing (radius dx dy : Z) : bool :=
  let d2 := dx * dx + dy * dy in
  sqrtGeHalf d2 (2 * radius - 1) && sqrtLeHalf d2 (2 * radius + 1).

(** The same test evaluated in IEEE double precision, as the engine does.
    The integers involved are far below 2^53, so they are doubles and
    [dx * dx + dy * dy] is exact; only [Math.sqrt] rounds. *)
Definition toDouble (z : Z) : float :=
  match z with
  | Z0 => 0%float
  | Zpos _ => PrimFloat.of_uint63 (Uint63.of_Z z)
  | Zneg p => PrimFloat.opp (PrimFloat.of_uint63 (Uint63.of_Z (Zpos p)))
  end.

Definition onRingDouble (radius dx dy : Z) : bool :=
  let dist := PrimFloat.sqrt (toDouble (dx * dx + dy * dy)) in
  PrimFloat.leb (PrimFloat.sub (toDouble radius) 0.5%float) dist
  && PrimFloat.leb dist (PrimFloat.add (toDouble radius) 0.5%float).

(** Euclidean distance between two cells, as a real number. *)
Definition distance (cx cy x y : Z) : R :=
  R_sqrt.sqrt (IZR ((x - cx) * (x - cx) + (y - cy) * (y - cy))).

(** ** Output *)

(** What [drawGrid] leaves on the canvas: the fill colour of every cell.
    Grid lines and pixel sizes are not modelled. *)
Abbreviation Screen := (list (list string)).

Definition liveColour : string := "#22c55e".
Definition deadColour : string := "#020617".

Definition drawCells (gridSize : Z) (g : Grid) : option Screen :=
  mapM (λ y, mapM (λ x, c ← readCell g x y;
                        Some (if c =? 1 then liveColour else deadColour))
                  (below gridSize))
       (below gridSize).

(** [a < b] on the rationals, as a boolean. *)
Definition Qltb (a b : Q) : bool :=
  Qnum a * Zpos (Qden b) <? Qnum b * Zpos (Qden a).

(** [arr[i]] for a computed index. *)
Definition nthZ {A : Type} (l : list A) (i : Z) : option A :=
  if 0 <=? i then l !! Z.to_nat i else None.

(** [obj[key]] on an object literal: the first (only) entry with that key. *)
Definition property {K V : Type} `{EqDecision K} (obj : list (K * V)) (key : K)
  : option V :=
  (λ found, snd (snd found)) <$> list_find (λ entry, fst entry = key) obj.

(** A pattern is an array of strings of ['0'] and ['1']. *)
Abbreviation Pattern := (list string).

(** ** Variant A: animation loop, stamping and ripples *)

Module VariantA.

Record state : Type := mkState {
  gridSize : Z;
  grid : Grid;
  running : bool;
  speedMs : Q;
  lastStepTime : Q;
  lastResetTime : Q;
  ripples : list Ripple;
  screen : Screen;
  draws : nat  (* how many times [Math.random()] has been called *)
}.

Definition resetIntervalMs : Q := 20000.

(** [new Array(size)] raises a [RangeError] on a negative length; the
    fresh array holds [size] empty slots, which the loop then fills with
    rows of zeros. *)
Definition createEmptyGrid (size : Z) : option Grid :=
  if (size <? 0) then None
  else Some (foldl (λ arr y, <[Z.to_nat y := replicate (Z.to_nat size) 0]> arr)
                   (replicate (Z.to_nat size) []) (below size)).

Definition setCellAlive (gridSize : Z) (grid : Grid) (x y : Z) : option Grid :=
  if inGrid gridSize x y then writeCell grid x y 1 else Some grid.

Definition countNeighbors (gridSize : Z) (grid : Grid) (x y : Z) : option Z :=
  forEach (upTo (-1) 1) (λ dy count,
    forEach (upTo (-1) 1) (λ dx count,
      if (dx =? 0) && (dy =? 0) then Some count
      else
        let nx := x + dx in
        let ny := y + dy in
        if inGrid gridSize nx ny
        then c ← readCell grid nx ny; Some (count + c)
        else Some count) count) 0.

Definition nextGeneration (gridSize : Z) (grid : Grid) : option Grid :=
  newGrid ← createEmptyGrid gridSize;
  forEach (below gridSize) (λ y newGrid,
    forEach (below gridSize) (λ x newGrid,
      neighbors ← countNeighbors gridSize grid x y;
      c ← readCell grid x y;
      let isAlive := c =? 1 in
      if isAlive && ((neighbors =? 2) || (neighbors =? 3))
      then writeCell newGrid x y 1
      else if negb isAlive && (neighbors =? 3)
      then writeCell newGrid x y 1
      else writeCell newGrid x y 0) newGrid) newGrid.

(** [pattern[y][x] === "1"]; a missing character compares unequal. *)
Definition patternMark (pattern : Pattern) (x y : Z) : bool :=
  match nthZ pattern y with
  | Some row =>
      if 0 <=? x
      then match String.get (Z.to_nat x) row with
           | Some c => bool_decide (c = "1"%char)
           | None => false
           end
      else false
  | None => false
  end.

(** [pattern[0].length] raises on an empty pattern. *)
Definition stampPattern (gridSize : Z) (grid : Grid) (pattern : Pattern)
    (offsetX offsetY : Z) : option Grid :=
  let height := Z.of_nat (length pattern) in
  row0 ← pattern !! 0%nat;
  let width := Z.of_nat (String.length row0) in
  forEach (below height) (λ y grid,
    forEach (below width) (λ x grid,
      if patternMark pattern x y then
        let gx := offsetX + x in
        let gy := offsetY + y in
        if inGrid gridSize gx gy then writeCell grid gx gy 1 else Some grid
      else Some grid) grid) grid.

Definition LETTERS : list (ascii * Pattern) :=
  [ ("A"%char, ["01110"; "10001"; "10001"; "11111"; "10001"; "10001"; "10001"]);
    ("N"%char, ["10001"; "11001"; "10101"; "10011"; "10001"; "10001"; "10001"]);
    ("D"%char, ["11110"; "10001"; "10001"; "10001"; "10001"; "10001"; "11110"]);
    ("E"%char, ["11111"; "10000"; "10000"; "11111"; "10000"; "10000"; "11111"]);
    ("R"%char, ["11110"; "10001"; "10001"; "11110"; "10100"; "10010"; "10001"]) ].

Definition LETTER_WIDTH : Z := 5.
Definition LETTER_HEIGHT : Z := 7.
Definition LETTER_SPACING : Z := 1.

Definition placeWordANDER (gridSize : Z) (grid : Grid) : option Grid :=
  let word := "ANDER"%string in
  let wordLength := Z.of_nat (String.length word) in
  let totalWidth := wordLength * LETTER_WIDTH + (wordLength - 1) * LETTER_SPACING in
  let startX := (gridSize - totalWidth) `div` 2 in
  let startY := (gridSize - LETTER_HEIGHT) `div` 2 in
  snd <$> forEach (list_ascii_of_string word) (λ ch '(x, grid),
    pattern ← property LETTERS ch;
    grid' ← stampPattern gridSize grid pattern x startY;
    Some (x + (LETTER_WIDTH + LETTER_SPACING), grid')) (startX, grid).

Definition SHAPES : list (string * Pattern) :=
  [ ("tree"%string,
      ["00100"; "01110"; "11111"; "00100"; "00100"; "00100"; "01110"]);
    ("ant"%string,
      ["00100"; "11111"; "01110"; "00100"; "01010"; "10001"; "00000"]);
    ("octopus"%string,
      ["0011100"; "0111110"; "1111111"; "1111111"; "0011100"; "0101010";
       "0101010"]);
    ("leaf"%string,
      ["00100"; "01110"; "11111"; "01110"; "00100"; "00100"; "00100"]) ].

(** [Math.floor(Math.random() * n)], the random number being draw number
    [k] of the page. *)
Definition randomBelow (random : nat → Q) (k : nat) (n : Z) : Z :=
  Qfloor (random k * inject_Z n).

Definition placeRandomNatureShapesScattered (random : nat → Q)
    (gridSize : Z) (grid : Grid) (draws : nat) : option (Grid * nat) :=
  let names := fst <$> SHAPES in
  let minShapes := 12 in
  let maxShapes := 25 in
  let numShapes := randomBelow random draws (maxShapes - minShapes + 1) + minShapes in
  forEach (below numShapes) (λ _ '(grid, draws),
    shapeName ← nthZ names (randomBelow random draws (Z.of_nat (length names)));
    pattern ← property SHAPES shapeName;
    let height := Z.of_nat (length pattern) in
    row0 ← pattern !! 0%nat;
    let width := Z.of_nat (String.length row0) in
    let startX := randomBelow random (draws + 1) (gridSize - width) in
    let startY := randomBelow random (draws + 2) (gridSize - height) in
    grid' ← stampPattern gridSize grid pattern startX startY;
    Some (grid', (draws + 3)%nat)) (grid, S draws).

Definition spawnRipple (x y : Z) (ripples : list Ripple) : list Ripple :=
  ripples ++ [ {| rx := x; ry := y; age := 0; maxAge := 10 |} ].

Definition applyRipplesToGrid (gridSize : Z) (ripples : list Ripple)
    (grid : Grid) : option Grid :=
  forEach ripples (λ r grid,
    let radius := age r in
    if radius =? 0 then setCellAlive gridSize grid (rx r) (ry r)
    else
      let minX := Z.max 0 (rx r - radius) in
      let maxX := Z.min (gridSize - 1) (rx r + radius) in
      let minY := Z.max 0 (ry r - radius) in
      let maxY := Z.min (gridSize - 1) (ry r + radius) in
      forEach (upTo minY maxY) (λ y grid,
        forEach (upTo minX maxX) (λ x grid,
          let dx := x - rx r in
          let dy := y - ry r in
          if onRing radius dx dy then setCellAlive gridSize grid x y
          else Some grid) grid) grid) grid.

(** [ripples[i].age++] followed by [ripples.splice(i, 1)] when the ripple
    has run out, for [i] from the last index down to 0. *)
Definition updateRipples (ripples : list Ripple) : option (list Ripple) :=
  forEach (reverse (seq 0 (length ripples))) (λ i ripples,
    r ← ripples !! i;
    let r' := {| rx := rx r; ry := ry r; age := age r + 1; maxAge := maxAge r |} in
    let ripples := <[i := r']> ripples in
    if maxAge r' <? age r' then Some (delete i ripples) else Some ripples)
  ripples.

Definition drawGrid (s : state) : option state :=
  scr ← drawCells (gridSize s) (grid s);
  Some {| gridSize := gridSize s; grid := grid s; running := running s;
          speedMs := speedMs s; lastStepTime := lastStepTime s;
          lastResetTime := lastResetTime s; ripples := ripples s;
          screen := scr; draws := draws s |}.

(** The body of [if (delta >= speedMs) { ... }] in [loop]. *)
Definition generationTick (timestamp : Q) (s : state) : option state :=
  g1 ← nextGeneration (gridSize s) (grid s);
  g2 ← applyRipplesToGrid (gridSize s) (ripples s) g1;
  rs ← updateRipples (ripples s);
  s' ← drawGrid {| gridSize := gridSize s; grid := g2; running := running s;
                   speedMs := speedMs s; lastStepTime := lastStepTime s;
                   lastResetTime := lastResetTime s; ripples := rs;
                   screen := screen s; draws := draws s |};
  Some {| gridSize := gridSize s'; grid := grid s'; running := running s';
          speedMs := speedMs s'; lastStepTime := timestamp;
          lastResetTime := lastResetTime s'; ripples := ripples s';
          screen := screen s'; draws := draws s' |}.

(** The body of [if (timestamp - lastResetTime >= resetIntervalMs) { ... }]. *)
Definition periodicReset (random : nat → Q) (timestamp : Q) (s : state)
  : option state :=
  g0 ← createEmptyGrid (gridSize s);
  '(g1, d) ← placeRandomNatureShapesScattered random (gridSize s) g0 (draws s);
  s' ← drawGrid {| gridSize := gridSize s; grid := g1; running := running s;
                   speedMs := speedMs s; lastStepTime := lastStepTime s;
                   lastResetTime := lastResetTime s; ripples := ripples s;
                   screen := screen s; draws := d |};
  Some {| gridSize := gridSize s'; grid := grid s'; running := running s';
          speedMs := speedMs s'; lastStepTime := lastStepTime s';
          lastResetTime := timestamp; ripples := ripples s';
          screen := screen s'; draws := draws s' |}.

Definition stepDue (timestamp : Q) (s : state) : bool :=
  Qle_bool (speedMs s) (timestamp - lastStepTime s).

Definition resetDue (timestamp : Q) (s : state) : bool :=
  Qle_bool resetIntervalMs (timestamp - lastResetTime s).

(** One animation frame.  [requestAnimationFrame(loop)] hands the next
    frame to the browser, which calls [loop] again with a later time. *)
Definition loop (random : nat → Q) (timestamp : Q) (s : state) : option state :=
  if running s then
    s1 ← (if stepDue timestamp s then generationTick timestamp s else Some s);
    if resetDue timestamp s1 then periodicReset random timestamp s1 else Some s1
  else Some s.

(** The click handler, from the cell the click falls in. *)
Definition canvasClick (gridX gridY : Z) (s : state) : state :=
  if inGrid (gridSize s) gridX gridY
  then {| gridSize := gridSize s; grid := grid s; running := running s;
          speedMs := speedMs s; lastStepTime := lastStepTime s;
          lastResetTime := lastResetTime s;
          ripples := spawnRipple gridX gridY (ripples s);
          screen := screen s; draws := draws s |}
  else s.

(** [let gridSize = 80]. *)
Definition initialGridSize : Z := 80.

(** [init()], called once when the script loads at time [now].  The
    script draws twice in a row here ([resizeCanvas] draws too); the second
    drawing repeats the first. *)
Definition init (now : Q) : option state :=
  g0 ← createEmptyGrid initialGridSize;
  g1 ← placeWordANDER initialGridSize g0;
  s ← drawGrid {| gridSize := initialGridSize; grid := g1; running := true;
                  speedMs := 5000; lastStepTime := 0; lastResetTime := 0;
                  ripples := []; screen := []; draws := 0 |};
  Some {| gridSize := gridSize s; grid := grid s; running := running s;
          speedMs := speedMs s; lastStepTime := now; lastResetTime := now;
          ripples := ripples s; screen := screen s; draws := draws s |}.

(** What the user and the browser can do to the page. *)
Inductive event : Type :=
  | Frame (timestamp : Q)
  | CanvasClick (gridX gridY : Z).

Definition handle (random : nat → Q) (e : event) (s : state) : option state :=
  match e with
  | Frame timestamp => loop random timestamp s
  | CanvasClick gridX gridY => Some (canvasClick gridX gridY s)
  end.

End VariantA.

(** ** Variant B: interactive controls *)

Module VariantB.

Record state : Type := mkState {
  gridSize : Z;
  grid : Grid;
  running : bool;
  speedMs : Q;
  lastStepTime : Q;
  screen : Screen;
  draws : nat  (* how many times [Math.random()] has been called *)
}.

(** Variant B repeats [createEmptyGrid], [countNeighbors] and
    [nextGeneration] word for word. *)
Definition createEmptyGrid (size : Z) : option Grid :=
  if (size <? 0) then None
  else Some (foldl (λ arr y, <[Z.to_nat y := replicate (Z.to_nat size) 0]> arr)
                   (replicate (Z.to_nat size) []) (below size)).

(** [grid[y][x] = Math.random() < 0.25 ? 1 : 0] for every cell. *)
Definition randomizeGrid (random : nat → Q) (gridSize : Z) (grid : Grid)
    (draws : nat) : option (Grid * nat) :=
  forEach (below gridSize) (λ y '(grid, draws),
    forEach (below gridSize) (λ x '(grid, draws),
      grid' ← writeCell grid x y (if Qltb (random draws) 0.25 then 1 else 0);
      Some (grid', S draws)) (grid, draws)) (grid, draws).

Definition countNeighbors (gridSize : Z) (grid : Grid) (x y : Z) : option Z :=
  forEach (upTo (-1) 1) (λ dy count,
    forEach (upTo (-1) 1) (λ dx count,
      if (dx =? 0) && (dy =? 0) then Some count
      else
        let nx := x + dx in
        let ny := y + dy in
        if inGrid gridSize nx ny
        then c ← readCell grid nx ny; Some (count + c)
        else Some count) count) 0.

Definition nextGeneration (gridSize : Z) (grid : Grid) : option Grid :=
  newGrid ← createEmptyGrid gridSize;
  forEach (below gridSize) (λ y newGrid,
    forEach (below gridSize) (λ x newGrid,
      neighbors ← countNeighbors gridSize grid x y;
      c ← readCell grid x y;
      let isAlive := c =? 1 in
      if isAlive && ((neighbors =? 2) || (neighbors =? 3))
      then writeCell newGrid x y 1
      else if negb isAlive && (neighbors =? 3)
      then writeCell newGrid x y 1
      else writeCell newGrid x y 0) newGrid) newGrid.

Definition drawGrid (s : state) : option state :=
  scr ← drawCells (gridSize s) (grid s);
  Some {| gridSize := gridSize s; grid := grid s; running := running s;
          speedMs := speedMs s; lastStepTime := lastStepTime s;
          screen := scr; draws := draws s |}.

Definition setRunning (b : bool) (s : state) : state :=
  {| gridSize := gridSize s; grid := grid s; running := b;
     speedMs := speedMs s; lastStepTime := lastStepTime s;
     screen := screen s; draws := draws s |}.

Definition setGrid (g : Grid) (s : state) : state :=
  {| gridSize := gridSize s; grid := g; running := running s;
     speedMs := speedMs s; lastStepTime := lastStepTime s;
     screen := screen s; draws := draws s |}.

(** [nextGeneration()] on the page state: [grid = newGrid]. *)
Definition advance (s : state) : option state :=
  g ← nextGeneration (gridSize s) (grid s); Some (setGrid g s).

Definition loop (timestamp : Q) (s : state) : option state :=
  if running s then
    if Qle_bool (speedMs s) (timestamp - lastStepTime s) then
      s1 ← advance s;
      s2 ← drawGrid s1;
      Some {| gridSize := gridSize s2; grid := grid s2; running := running s2;
              speedMs := speedMs s2; lastStepTime := timestamp;
              screen := screen s2; draws := draws s2 |}
    else Some s
  else Some s.

Definition startBtnClick (s : state) : state := setRunning true s.

Definition pauseBtnClick (s : state) : state := setRunning false s.

Definition stepBtnClick (s : state) : option state :=
  s1 ← advance (setRunning false s);
  drawGrid s1.

Definition clearBtnClick (s : state) : option state :=
  let s0 := setRunning false s in
  g ← createEmptyGrid (gridSize s0);
  drawGrid (setGrid g s0).

Definition randomBtnClick (random : nat → Q) (s : state) : option state :=
  '(g, d) ← randomizeGrid random (gridSize s) (grid s) (draws s);
  drawGrid {| gridSize := gridSize s; grid := g; running := running s;
              speedMs := speedMs s; lastStepTime := lastStepTime s;
              screen := screen s; draws := d |}.

(** The grid-size select, from the number [parseInt] reads off the chosen
    option. *)
Definition gridSizeChange (value : Z) (s : state) : option state :=
  g ← createEmptyGrid value;
  drawGrid {| gridSize := value; grid := g; running := running s;
              speedMs := speedMs s; lastStepTime := lastStepTime s;
              screen := screen s; draws := draws s |}.

Definition speedInput (value : Z) (s : state) : state :=
  {| gridSize := gridSize s; grid := grid s; running := running s;
     speedMs := inject_Z value; lastStepTime := lastStepTime s;
     screen := screen s; draws := draws s |}.

(** The click handler, from the cell the click falls in: toggle it. *)
Definition canvasClick (gridX gridY : Z) (s : state) : option state :=
  if inGrid (gridSize s) gridX gridY then
    c ← readCell (grid s) gridX gridY;
    g ← writeCell (grid s) gridX gridY (if c =? 1 then 0 else 1);
    drawGrid (setGrid g s)
  else Some s.

Definition initialGridSize : Z := 50.

Definition init : option state :=
  g ← createEmptyGrid initialGridSize;
  drawGrid {| gridSize := initialGridSize; grid := g; running := false;
              speedMs := 120; lastStepTime := 0; screen := []; draws := 0 |}.

(** What the user and the browser can do to the page. *)
Inductive event : Type :=
  | Frame (timestamp : Q)
  | StartBtn
  | PauseBtn
  | StepBtn
  | ClearBtn
  | RandomBtn
  | GridSizeSelect (value : Z)
  | SpeedRange (value : Z)
  | CanvasClick (gridX gridY : Z).

Definition handle (random : nat → Q) (e : event) (s : state) : option state :=
  match e with
  | Frame timestamp => loop timestamp s
  | StartBtn => Some (startBtnClick s)
  | PauseBtn => Some (pauseBtnClick s)
  | StepBtn => stepBtnClick s
  | ClearBtn => clearBtnClick s
  | RandomBtn => randomBtnClick random s
  | GridSizeSelect value => gridSizeChange value s
  | SpeedRange value => Some (speedInput value s)
  | CanvasClick gridX gridY => canvasClick gridX gridY s
  end.

End VariantB.

(** ** Vocabulary of the properties *)

(** The coordinate [(x, y)] names a cell of an [N] x [N] grid. *)
Definition InGrid (N x y : Z) : Prop := 0 ≤ x < N ∧ 0 ≤ y < N.

(** The grid has [N] rows of [N] cells. *)
Definition squareGrid (N : Z) (g : Grid) : Prop :=
  0 ≤ N ∧ length g = Z.to_nat N ∧ Forall (λ row, length row = Z.to_nat N) g.

(** Every cell holds 0 or 1. *)
Definition binaryGrid (g : Grid) : Prop :=
  Forall (Forall (λ c, c = 0 ∨ c = 1)) g.

Definition alive (g : Grid) (x y : Z) : Prop := readCell g x y = Some 1.
Definition dead (g : Grid) (x y : Z) : Prop := readCell g x y = Some 0.

#[global] Instance InGrid_dec N x y : Decision (InGrid N x y).
Proof. unfold InGrid. apply _. Defined.

#[global] Instance alive_dec g x y : Decision (alive g x y).
Proof. unfold alive. apply _. Defined.

(** The eight positions around [(x, y)]. *)
Definition surrounding (x y : Z) : list (Z * Z) :=
  [ (x - 1, y - 1); (x, y - 1); (x + 1, y - 1);
    (x - 1, y);                 (x + 1, y);
    (x - 1, y + 1); (x, y + 1); (x + 1, y + 1) ].

(** The surrounding positions that lie inside [[0, N) x [0, N)]. *)
Definition effectiveNeighbours (N x y : Z) : list (Z * Z) :=
  filter (λ p, InGrid N p.1 p.2) (surrounding x y).

(** The live neighbours of [(x, y)]: the alive cells among the eight
    surrounding positions, positions outside the grid being skipped. *)
Definition liveNeighbours (N : Z) (g : Grid) (x y : Z) : list (Z * Z) :=
  filter (λ p, alive g p.1 p.2) (effectiveNeighbours N x y).

(** What a position adds to the neighbour count: its cell when it lies in
    the grid, nothing otherwise. *)
Definition contribution (N : Z) (g : Grid) (p : Z * Z) : Z :=
  if inGrid N p.1 p.2 then default 0 (readCell g p.1 p.2) else 0.

(** The value [nextGeneration] writes for a cell holding [c] with
    neighbour count [n]. *)
Definition nextCell (c n : Z) : Z :=
  if (c =? 1) && ((n =? 2) || (n =? 3)) then 1
  else if negb (c =? 1) && (n =? 3) then 1
  else 0.

(** The cell [(x, y)] of the new grid [g'] holds what the rule says. *)
Definition cellStepped (N : Z) (g g' : Grid) (x y : Z) : Prop :=
  ∃ c n, readCell g x y = Some c ∧ VariantA.countNeighbors N g x y = Some n ∧
         readCell g' x y = Some (nextCell c n).

(** The rule of the Game of Life on a cell and its number of live
    neighbours. *)
Definition survives (isAlive : Prop) (n : nat) : Prop :=
  isAlive ∧ (n = 2%nat ∨ n = 3%nat).
Definition isBorn (isDead : Prop) (n : nat) : Prop :=
  isDead ∧ n = 3%nat.

(** [g'] is [g] with the cells picked out by [P] set to alive and every
    other cell as it was. *)
Definition markedFrom (N : Z) (g : Grid) (P : Z → Z → Prop) (g' : Grid) : Prop :=
  squareGrid N g' ∧
  ∀ x y, InGrid N x y →
    (P x y ∧ readCell g' x y = Some 1) ∨
    (¬ P x y ∧ readCell g' x y = readCell g x y).

(** The cells one round of [applyRipplesToGrid] sets alive for the ripple
    [r], as the code tests them. *)
Definition rippleMark (r : Ripple) (x y : Z) : Prop :=
  if decide (age r = 0) then x = rx r ∧ y = ry r
  else onRing (age r) (x - rx r) (y - ry r) = true.

(** The cells a ripple sets alive in one application. *)
Definition rippleCell (N : Z) (r : Ripple) (x y : Z) : Prop :=
  InGrid N x y ∧
  if decide (age r = 0) then x = rx r ∧ y = ry r
  else (IZR (age r) - / 2 <= distance (rx r) (ry r) x y <= IZR (age r) + / 2)%R.

(** A pattern as the data model has it: a rectangle of markers, that is,
    at least one row and all rows as long as the first. *)
Definition rectangular (pattern : Pattern) : Prop :=
  ∃ row0, pattern !! 0%nat = Some row0 ∧
          Forall (λ row, String.length row = String.length row0) pattern.

(** The marker at column [i] of row [j] of the pattern is ['1']. *)
Definition patternAlive (pattern : Pattern) (i j : nat) : Prop :=
  ∃ row, pattern !! j = Some row ∧ String.get i row = Some "1"%char.

(** The invariant of the ripple list. *)
Definition rippleOk (N : Z) (r : Ripple) : Prop :=
  InGrid N (rx r) (ry r) ∧ 0 ≤ age r ≤ maxAge r ∧ maxAge r = 10.

(** A ripple one generation older. *)
Definition aged (r : Ripple) : Ripple :=
  {| rx := rx r; ry := ry r; age := age r + 1; maxAge := maxAge r |}.

(** The double-precision ring test against the test on the squares, on
    every radius from 1 to [maxAge] and every offset of the bounding box. *)
Definition ringAgreement : bool :=
  forallb (λ k,
    forallb (λ dx,
      forallb (λ dy, Bool.eqb (onRingDouble k dx dy) (onRing k dx dy))
              (upTo (-10) 10))
            (upTo (-10) 10))
          (upTo 1 10).

(** A well-formed grid: [N] x [N] cells, each 0 or 1. *)
Definition goodGrid (N : Z) (g : Grid) : Prop := squareGrid N g ∧ binaryGrid g.

(** [Math.random()] returns a number in [[0, 1)]. *)
Definition validRandom (random : nat → Q) : Prop :=
  ∀ k, (0 <= random k)%Q ∧ (random k < 1)%Q.

(** The invariant of the page state of variant A. *)
Definition invariantA (s : VariantA.state) : Prop :=
  goodGrid (VariantA.gridSize s) (VariantA.grid s) ∧
  Forall (rippleOk (VariantA.gridSize s)) (VariantA.ripples s).

(** The invariant of the page state of variant B. *)
Definition invariantB (s : VariantB.state) : Prop :=
  goodGrid (VariantB.gridSize s) (VariantB.grid s).

(** The grid-size select only offers sizes that are array lengths. *)
Definition validEventB (e : VariantB.event) : Prop :=
  match e with
  | VariantB.GridSizeSelect value => 0 ≤ value
  | _ => True
  end.



(** The two phases of the blinker, as cell values relative to the centre:
    a row of three and a column of three. *)
Definition horizontalBlinker (u v : Z) : Z :=
  if (v =? 0) && (-1 <=? u) && (u <=? 1) then 1 else 0.
Definition verticalBlinker (u v : Z) : Z :=
  if (u =? 0) && (-1 <=? v) && (v <=? 1) then 1 else 0.

(** The grid [g] shows the picture [f] centred on [(cx, cy)]. *)
Definition showsAt (N cx cy : Z) (f : Z → Z → Z) (g : Grid) : Prop :=
  squareGrid N g ∧
  ∀ x y, InGrid N x y → readCell g x y = Some (f (x - cx) (y - cy)).

(** The sum of a picture over the eight positions around [(u, v)]. *)
Definition relCount (f : Z → Z → Z) (u v : Z) : Z :=
  foldl (λ acc p, acc + f p.1 p.2) 0 (surrounding u v).

(** ** Small examples *)

(** A 5 x 5 grid holding a horizontal blinker around the cell (2, 2). *)
Definition blinkerGrid : Grid :=
  [ [0; 0; 0; 0; 0];
    [0; 0; 0; 0; 0];
    [0; 1; 1; 1; 0];
    [0; 0; 0; 0; 0];
    [0; 0; 0; 0; 0] ].

(** A running page of variant B showing that grid. *)
Definition blinkerPageB : VariantB.state :=
  {| VariantB.gridSize := 5; VariantB.grid := blinkerGrid;
     VariantB.running := true; VariantB.speedMs := 120;
     VariantB.lastStepTime := 0; VariantB.screen := [];
     VariantB.draws := 0 |}.


(** ** Vocabulary of the further properties *)

(** [n] calls of [updateRipples], one per generation tick. *)
Definition updatesRipples (n : nat) (rs : list Ripple) : option (list Ripple) :=
  Nat.iter n (λ o, o ≫= VariantA.updateRipples) (Some rs).

(** A ripple [n] generations older. *)
Definition agedBy (n : nat) (r : Ripple) : Ripple :=
  {| rx := rx r; ry := ry r; age := age r + Z.of_nat n; maxAge := maxAge r |}.

(** The distance of the offset [(dx, dy)] rounded to the nearest integer:
    the integer square root of [dx * dx + dy * dy], or one more when the
    sum of squares is past the half-way point to the next square. *)
Definition ringAge (dx dy : Z) : Z :=
  let d2 := dx * dx + dy * dy in
  let s := Z.sqrt d2 in
  if d2 <=? s * s + s then s else s + 1.

(** The cell [(x, y)] lies in the box [w] wide and [h] high whose top left
    corner is [(x0, y0)]. *)
Definition within (x0 y0 w h x y : Z) : Prop :=
  x0 ≤ x < x0 + w ∧ y0 ≤ y < y0 + h.

(** From [g] to [g'] no alive cell died and no cell outside [B] changed. *)
Definition changesWithin (N : Z) (B : Z → Z → Prop) (g g' : Grid) : Prop :=
  squareGrid N g' ∧
  ∀ x y, InGrid N x y →
    (alive g x y → alive g' x y) ∧
    (¬ B x y → readCell g' x y = readCell g x y).

(** The cells of the five letter boxes of [placeWordANDER]: letter [k]
    starts six columns after letter [k - 1] and is five columns wide. *)
Definition inWord (N x y : Z) : Prop :=
  ∃ k, 0 ≤ k < 5 ∧ within ((N - 29) `div` 2 + 6 * k) ((N - 7) `div` 2) 5 7 x y.

(** The cells on which [placeWordANDER] lays a ['1'] of one of its letters:
    column [i] of row [j] of letter number [k] of the word. *)
Definition wordMark (N x y : Z) : Prop :=
  ∃ (k : nat) (ch : ascii) (pattern : Pattern) (i j : nat),
    list_ascii_of_string "ANDER" !! k = Some ch ∧
    property VariantA.LETTERS ch = Some pattern ∧
    patternAlive pattern i j ∧
    x = (N - 29) `div` 2 + 6 * Z.of_nat k + Z.of_nat i ∧
    y = (N - 7) `div` 2 + Z.of_nat j.

(** Two more pictures, as cell values relative to a corner: the block of
    two by two cells, and the pair of one cell above another. *)
Definition blockPicture (u v : Z) : Z :=
  if (0 <=? u) && (u <=? 1) && (0 <=? v) && (v <=? 1) then 1 else 0.
Definition pairPicture (u v : Z) : Z :=
  if (u =? 0) && (0 <=? v) && (v <=? 1) then 1 else 0.

(** The canvas shows the grid of the state. *)
Definition shownA (s : VariantA.state) : Prop :=
  drawCells (VariantA.gridSize s) (VariantA.grid s) = Some (VariantA.screen s).
Definition shownB (s : VariantB.state) : Prop :=
  drawCells (VariantB.gridSize s) (VariantB.grid s) = Some (VariantB.screen s).

(** The colour [drawGrid] paints at column [x] of row [y]. *)
Definition pixel (scr : Screen) (x y : Z) : option string :=
  row ← scr !! Z.to_nat y; row !! Z.to_nat x.

(** [gT] is [g] with rows and columns exchanged. *)
Definition transposed (N : Z) (g gT : Grid) : Prop :=
  ∀ x y, InGrid N x y → readCell gT x y = readCell g y x.

(** A grid written out is square, and its cells are 0 or 1. *)
Ltac concrete_forall :=
  repeat first [ apply List.Forall_nil | apply List.Forall_cons ].
Ltac concrete_square :=
  unfold squareGrid; split; [lia|split; [reflexivity|concrete_forall; reflexivity]].
Ltac concrete_binary :=
  unfold binaryGrid; concrete_forall; lia.

(** * Properties *)


(** ** Loops *)

Lemma forEach_app {A S : Type} (l1 l2 : list A) (body : A → S → option S) (s : S) :
  forEach (l1 ++ l2) body s = forEach l1 body s ≫= forEach l2 body.
Proof.
  revert s. induction l1 as [|a l1 IH]; intros s; simpl; [done|].
  destruct (body a s) as [s'|]; simpl; [apply IH | done].
Qed.

(** The loop rule: an invariant indexed by the elements already visited. *)
Lemma forEach_inv {A S : Type} (I : list A → S → Prop) (l : list A)
    (body : A → S → option S) (s0 : S) :
  I [] s0 →
  (∀ done a s, a ∈ l → I done s → ∃ s', body a s = Some s' ∧ I (done ++ [a]) s') →
  ∃ s', forEach l body s0 = Some s' ∧ I l s'.
Proof.
  intros H0 Hstep.
  assert (G : ∀ rest done s, done ++ rest = l → I done s →
            ∃ s', forEach rest body s = Some s' ∧ I l s').
  { induction rest as [|a rest IH]; intros done s Heq HI; simpl.
    - rewrite app_nil_r in Heq. subst. eauto.
    - destruct (Hstep done a s) as (s' & Hb & HI'); [|done|].
      + rewrite <- Heq. apply elem_of_app. right. left.
      + rewrite Hb. simpl. apply (IH (done ++ [a])); [|done].
        rewrite <- app_assoc. done. }
  apply (G l [] s0); done.
Qed.

(** The loop rule for an invariant that does not mention the rounds. *)
Lemma forEach_preserves {A S : Type} (Inv : S → Prop) (l : list A)
    (body : A → S → option S) (s0 : S) :
  Inv s0 →
  (∀ a s, a ∈ l → Inv s → ∃ s', body a s = Some s' ∧ Inv s') →
  ∃ s', forEach l body s0 = Some s' ∧ Inv s'.
Proof.
  intros H0 Hstep. apply (forEach_inv (λ _, Inv)); [done|].
  intros _ a s. apply Hstep.
Qed.

(** ** Reading and writing cells *)

Lemma inGrid_true N x y : inGrid N x y = true ↔ InGrid N x y.
Proof. unfold inGrid, InGrid. rewrite !andb_true_iff. lia. Qed.

Lemma inGrid_false N x y : inGrid N x y = false ↔ ¬ InGrid N x y.
Proof. rewrite <- inGrid_true. destruct (inGrid N x y); naive_solver. Qed.

Lemma squareGrid_row N g y :
  squareGrid N g → 0 ≤ y < N →
  ∃ row, g !! Z.to_nat y = Some row ∧ length row = Z.to_nat N.
Proof.
  intros (HN & Hlen & Hrows) Hy.
  destruct (lookup_lt_is_Some_2 g (Z.to_nat y)) as [row Hrow]; [lia|].
  exists row. split; [done|].
  rewrite Forall_lookup in Hrows. eauto.
Qed.

Lemma readCell_square N g x y :
  squareGrid N g → InGrid N x y → ∃ c, readCell g x y = Some c.
Proof.
  intros Hsq [Hx Hy]. destruct (squareGrid_row N g y Hsq Hy) as (row & Hrow & Hlen).
  unfold readCell.
  replace ((0 <=? x) && (0 <=? y)) with true by (symmetry; rewrite andb_true_iff; lia).
  rewrite Hrow. simpl.
  destruct (lookup_lt_is_Some_2 row (Z.to_nat x)) as [c Hc]; [lia|]. eauto.
Qed.

Lemma writeCell_square N g x y v :
  squareGrid N g → InGrid N x y →
  ∃ g', writeCell g x y v = Some g' ∧ squareGrid N g' ∧
        readCell g' x y = Some v ∧
        ∀ x' y', ¬ (x' = x ∧ y' = y) → readCell g' x' y' = readCell g x' y'.
Proof.
  intros Hsq [Hx Hy]. destruct (squareGrid_row N g y Hsq Hy) as (row & Hrow & Hlen).
  destruct Hsq as (HN & Hlen' & Hrows).
  unfold writeCell.
  replace ((0 <=? x) && (0 <=? y)) with true by (symmetry; rewrite andb_true_iff; lia).
  rewrite Hrow. simpl.
  replace (x <? Z.of_nat (length row)) with true by (symmetry; apply Z.ltb_lt; lia).
  eexists. split; [done|]. split; [|split].
  - split; [done|]. split; [by rewrite length_insert|].
    apply Forall_insert; [done|]. by rewrite length_insert.
  - unfold readCell.
    replace ((0 <=? x) && (0 <=? y)) with true by (symmetry; rewrite andb_true_iff; lia).
    rewrite list_lookup_insert_eq by lia. simpl.
    apply list_lookup_insert_eq. lia.
  - intros x' y' Hne. unfold readCell.
    destruct ((0 <=? x') && (0 <=? y')) eqn:Hpos; [|done].
    apply andb_true_iff in Hpos as [Hx' Hy'].
    apply Z.leb_le in Hx', Hy'.
    destruct (decide (y' = y)) as [->|Hy''].
    + rewrite list_lookup_insert_eq by lia. rewrite Hrow. simpl.
      apply list_lookup_insert_ne. lia.
    + rewrite list_lookup_insert_ne by lia. done.
Qed.

(** Two square grids with the same cells are the same grid. *)
Lemma grid_ext N g1 g2 :
  squareGrid N g1 → squareGrid N g2 →
  (∀ x y, InGrid N x y → readCell g1 x y = readCell g2 x y) →
  g1 = g2.
Proof.
  intros H1 H2 Hcells. apply list_eq. intros j.
  destruct (decide (j < Z.to_nat N)%nat) as [Hj|Hj].
  - destruct (squareGrid_row N g1 (Z.of_nat j) H1) as (r1 & Hr1 & Hl1); [lia|].
    destruct (squareGrid_row N g2 (Z.of_nat j) H2) as (r2 & Hr2 & Hl2); [lia|].
    rewrite Nat2Z.id in Hr1, Hr2. rewrite Hr1, Hr2. f_equal.
    apply list_eq. intros i.
    destruct (decide (i < Z.to_nat N)%nat) as [Hi|Hi].
    + specialize (Hcells (Z.of_nat i) (Z.of_nat j)).
      unfold readCell in Hcells.
      replace ((0 <=? Z.of_nat i) && (0 <=? Z.of_nat j)) with true in Hcells
        by (symmetry; rewrite andb_true_iff; lia).
      rewrite !Nat2Z.id, Hr1, Hr2 in Hcells. simpl in Hcells.
      apply Hcells. unfold InGrid. lia.
    + rewrite !lookup_ge_None_2 by lia. done.
  - destruct H1 as (_ & Hl1 & _), H2 as (_ & Hl2 & _).
    rewrite !lookup_ge_None_2 by lia. done.
Qed.

Lemma binaryGrid_cells N g :
  squareGrid N g →
  binaryGrid g ↔ ∀ x y, InGrid N x y → dead g x y ∨ alive g x y.
Proof.
  intros Hsq. unfold binaryGrid, dead, alive. split.
  - intros Hbin x y Hin.
    destruct (squareGrid_row N g y Hsq (proj2 Hin)) as (row & Hrow & Hlen).
    destruct (lookup_lt_is_Some_2 row (Z.to_nat x)) as [c Hc]; [unfold InGrid in Hin; lia|].
    unfold readCell.
    replace ((0 <=? x) && (0 <=? y)) with true
      by (symmetry; rewrite andb_true_iff; unfold InGrid in Hin; lia).
    rewrite Hrow. simpl. rewrite Hc.
    rewrite Forall_lookup in Hbin. specialize (Hbin _ _ Hrow).
    rewrite Forall_lookup in Hbin. specialize (Hbin _ _ Hc).
    destruct Hbin as [-> | ->]; auto.
  - intros Hcells. apply Forall_lookup. intros j row Hrow.
    apply Forall_lookup. intros i c Hc.
    pose proof (lookup_lt_Some _ _ _ Hrow) as Hj.
    pose proof (lookup_lt_Some _ _ _ Hc) as Hi.
    destruct Hsq as (HN & Hlen & Hrows).
    rewrite Forall_lookup in Hrows. specialize (Hrows _ _ Hrow).
    specialize (Hcells (Z.of_nat i) (Z.of_nat j)).
    unfold readCell in Hcells.
    replace ((0 <=? Z.of_nat i) && (0 <=? Z.of_nat j)) with true in Hcells
      by (symmetry; rewrite andb_true_iff; lia).
    rewrite !Nat2Z.id, Hrow in Hcells. simpl in Hcells. rewrite Hc in Hcells.
    destruct Hcells as [H|H]; [unfold InGrid; lia| |]; inversion H; auto.
Qed.

(** ** Fresh grids *)

Lemma fill_rows (n k : nat) (row : list Z) :
  (k ≤ n)%nat →
  foldl (λ arr y, <[Z.to_nat y := row]> arr) (replicate n []) (below (Z.of_nat k))
  = replicate k row ++ replicate (n - k) [].
Proof.
  unfold below. induction k as [|k IH]; intros Hk.
  - simpl. by rewrite Nat.sub_0_r.
  - rewrite seqZ_S, foldl_snoc, IH by lia.
    rewrite Z.add_0_l, Nat2Z.id.
    rewrite insert_app_r_alt by (rewrite length_replicate; lia).
    rewrite length_replicate, Nat.sub_diag.
    replace (n - k)%nat with (S (n - S k)) by lia. simpl.
    rewrite app_comm_cons, replicate_cons_app, <- app_assoc. done.
Qed.

Lemma createEmptyGrid_replicate N :
  0 ≤ N →
  VariantA.createEmptyGrid N
  = Some (replicate (Z.to_nat N) (replicate (Z.to_nat N) 0)).
Proof.
  intros HN. unfold VariantA.createEmptyGrid.
  replace (N <? 0) with false by (symmetry; apply Z.ltb_ge; lia).
  pose proof (fill_rows (Z.to_nat N) (Z.to_nat N) (replicate (Z.to_nat N) 0)) as H.
  rewrite Z2Nat.id in H by done. rewrite H by done.
  by rewrite Nat.sub_diag, app_nil_r.
Qed.

Lemma replicate_squareGrid N :
  0 ≤ N → squareGrid N (replicate (Z.to_nat N) (replicate (Z.to_nat N) 0)).
Proof.
  intros HN. split; [done|]. split; [by rewrite length_replicate|].
  apply Forall_replicate. by rewrite length_replicate.
Qed.

Lemma replicate_dead N x y :
  InGrid N x y → dead (replicate (Z.to_nat N) (replicate (Z.to_nat N) 0)) x y.
Proof.
  intros [Hx Hy]. unfold dead, readCell.
  replace ((0 <=? x) && (0 <=? y)) with true by (symmetry; rewrite andb_true_iff; lia).
  rewrite lookup_replicate_2 by lia. simpl. apply lookup_replicate_2. lia.
Qed.

Lemma createEmptyGrid_variants size :
  VariantB.createEmptyGrid size = VariantA.createEmptyGrid size.
Proof. reflexivity. Qed.

Lemma countNeighbors_variants N g x y :
  VariantB.countNeighbors N g x y = VariantA.countNeighbors N g x y.
Proof. reflexivity. Qed.

Lemma nextGeneration_variants N g :
  VariantB.nextGeneration N g = VariantA.nextGeneration N g.
Proof. reflexivity. Qed.

(** ** Counting neighbours *)

Lemma neighbour_step N g nx ny count :
  squareGrid N g →
  (if inGrid N nx ny then c ← readCell g nx ny; Some (count + c) else Some count)
  = Some (count + contribution N g (nx, ny)).
Proof.
  intros Hsq. unfold contribution. simpl.
  destruct (inGrid N nx ny) eqn:Hin.
  - apply inGrid_true in Hin.
    destruct (readCell_square N g nx ny Hsq Hin) as [c ->]. done.
  - by rewrite Z.add_0_r.
Qed.

Lemma countNeighbors_sum N g x y :
  squareGrid N g →
  VariantA.countNeighbors N g x y
  = Some (foldl (λ acc p, acc + contribution N g p) 0 (surrounding x y)).
Proof.
  intros Hsq. unfold VariantA.countNeighbors.
  change (upTo (-1) 1) with [-1; 0; 1].
  cbn [forEach Z.eqb andb mbind option_bind].
  repeat (rewrite neighbour_step by exact Hsq;
          cbn [forEach Z.eqb andb mbind option_bind]).
  rewrite !Z.add_0_r. reflexivity.
Qed.

Lemma contribution_binary N g p :
  squareGrid N g → binaryGrid g →
  contribution N g p = if decide (alive g p.1 p.2 ∧ InGrid N p.1 p.2) then 1 else 0.
Proof.
  intros Hsq Hbin. unfold contribution.
  destruct (inGrid N p.1 p.2) eqn:Hin.
  - apply inGrid_true in Hin.
    destruct (proj1 (binaryGrid_cells N g Hsq) Hbin _ _ Hin) as [H|H].
    + rewrite decide_False; [by rewrite H|].
      intros [H' _]. unfold dead, alive in *. congruence.
    + rewrite decide_True by done. by rewrite H.
  - apply inGrid_false in Hin. rewrite decide_False; [done|]. tauto.
Qed.

Lemma filter_length_sum {A : Type} (P : A → Prop) `{∀ a, Decision (P a)}
    (l : list A) (acc : Z) :
  foldl (λ acc a, acc + if decide (P a) then 1 else 0) acc l
  = acc + Z.of_nat (length (filter P l)).
Proof.
  revert acc. induction l as [|a l IH]; intros acc; simpl; [lia|].
  rewrite IH, filter_cons. destruct (decide (P a)); simpl; lia.
Qed.

Lemma foldl_ext_in {A B : Type} (f g : B → A → B) (l : list A) (b : B) :
  (∀ b a, a ∈ l → f b a = g b a) → foldl f b l = foldl g b l.
Proof.
  revert b. induction l as [|a l IH]; intros b Hfg; simpl; [done|].
  rewrite Hfg by left. apply IH. intros. apply Hfg. by right.
Qed.

(** On a grid of 0 / 1 cells the count is the number of live neighbours. *)
Lemma countNeighbors_live N g x y :
  squareGrid N g → binaryGrid g →
  VariantA.countNeighbors N g x y
  = Some (Z.of_nat (length (liveNeighbours N g x y))).
Proof.
  intros Hsq Hbin. rewrite countNeighbors_sum by done. f_equal.
  unfold liveNeighbours, effectiveNeighbours. rewrite list_filter_filter.
  rewrite <- (Z.add_0_l (Z.of_nat _)), <- filter_length_sum.
  apply foldl_ext_in. intros b p _. by rewrite contribution_binary.
Qed.

Lemma liveNeighbours_bound N g x y : (length (liveNeighbours N g x y) ≤ 8)%nat.
Proof.
  unfold liveNeighbours, effectiveNeighbours.
  etrans; [apply length_filter|]. etrans; [apply length_filter|]. done.
Qed.

(** ** One generation *)

Lemma below_elem N i : i ∈ below N ↔ 0 ≤ i < N.
Proof. unfold below. rewrite elem_of_seqZ. lia. Qed.

Lemma upTo_elem lo hi i : i ∈ upTo lo hi ↔ lo ≤ i ≤ hi.
Proof. unfold upTo. rewrite elem_of_seqZ. lia. Qed.

Lemma nextGeneration_cell_body N g newGrid x y :
  squareGrid N g → squareGrid N newGrid → InGrid N x y →
  ∃ newGrid',
    (neighbors ← VariantA.countNeighbors N g x y;
     c ← readCell g x y;
     let isAlive := c =? 1 in
     if isAlive && ((neighbors =? 2) || (neighbors =? 3))
     then writeCell newGrid x y 1
     else if negb isAlive && (neighbors =? 3)
     then writeCell newGrid x y 1
     else writeCell newGrid x y 0) = Some newGrid' ∧
    squareGrid N newGrid' ∧
    cellStepped N g newGrid' x y ∧
    ∀ x' y', ¬ (x' = x ∧ y' = y) → readCell newGrid' x' y' = readCell newGrid x' y'.
Proof.
  intros Hg Hnew Hin.
  destruct (readCell_square N g x y Hg Hin) as [c Hc].
  pose proof (countNeighbors_sum N g x y Hg) as Hn.
  set (n := foldl _ 0 _) in Hn.
  destruct (writeCell_square N newGrid x y (nextCell c n) Hnew Hin)
    as (g' & Hw & Hsq & Hrd & Hother).
  exists g'. rewrite Hn, Hc. simpl. split; [|split; [done|split; [|done]]].
  - rewrite <- Hw. unfold nextCell.
    destruct (c =? 1), (n =? 2), (n =? 3); reflexivity.
  - exists c, n. done.
Qed.

Lemma nextGeneration_cells N g :
  squareGrid N g →
  ∃ g', VariantA.nextGeneration N g = Some g' ∧ squareGrid N g' ∧
        ∀ x y, InGrid N x y → cellStepped N g g' x y.
Proof.
  intros Hg. pose proof Hg as (HN & _).
  unfold VariantA.nextGeneration. rewrite createEmptyGrid_replicate by done. simpl.
  destruct (forEach_inv
    (λ rows ng, squareGrid N ng ∧
       ∀ x y, InGrid N x y → y ∈ rows → cellStepped N g ng x y)
    (below N)
    (λ y newGrid, forEach (below N) (λ x newGrid,
      neighbors ← VariantA.countNeighbors N g x y;
      c ← readCell g x y;
      let isAlive := c =? 1 in
      if isAlive && ((neighbors =? 2) || (neighbors =? 3))
      then writeCell newGrid x y 1
      else if negb isAlive && (neighbors =? 3)
      then writeCell newGrid x y 1
      else writeCell newGrid x y 0) newGrid)
    (replicate (Z.to_nat N) (replicate (Z.to_nat N) 0)))
    as (g' & Hrun & Hsq & Hcells).
  - split; [by apply replicate_squareGrid|]. intros x y _ Hy. inversion Hy.
  - intros rows y ng Hy [Hsq Hrows]. apply below_elem in Hy.
    destruct (forEach_inv
      (λ cols ng', squareGrid N ng' ∧
         (∀ x y', InGrid N x y' → y' ∈ rows → cellStepped N g ng' x y') ∧
         (∀ x, InGrid N x y → x ∈ cols → cellStepped N g ng' x y))
      (below N)
      (λ x newGrid,
        neighbors ← VariantA.countNeighbors N g x y;
        c ← readCell g x y;
        let isAlive := c =? 1 in
        if isAlive && ((neighbors =? 2) || (neighbors =? 3))
        then writeCell newGrid x y 1
        else if negb isAlive && (neighbors =? 3)
        then writeCell newGrid x y 1
        else writeCell newGrid x y 0)
      ng) as (ng' & Hrun & Hsq' & Hrows' & Hcols).
    + split; [done|]. split; [done|]. intros x _ Hx. inversion Hx.
    + intros cols x ng1 Hx (Hsq1 & Hrows1 & Hcols1). apply below_elem in Hx.
      destruct (nextGeneration_cell_body N g ng1 x y Hg Hsq1) as
        (ng2 & Hbody & Hsq2 & Hcell & Hother); [done|].
      exists ng2. split; [done|]. split; [done|].
      assert (Hkeep : ∀ x' y', cellStepped N g ng1 x' y' → cellStepped N g ng2 x' y').
      { intros x' y' (c & n & Hc & Hn & Hv).
        destruct (decide (x' = x ∧ y' = y)) as [[-> ->]|Hne]; [done|].
        exists c, n. rewrite Hother by done. done. }
      split.
      * intros x' y' Hin' Hy'. apply Hkeep. by apply Hrows1.
      * intros x' Hin' Hx'. apply elem_of_app in Hx' as [Hx'|Hx'].
        -- apply Hkeep. by apply Hcols1.
        -- apply list_elem_of_singleton in Hx' as ->. done.
    + exists ng'. split; [done|]. split; [done|].
      intros x y' Hin' Hy'. apply elem_of_app in Hy' as [Hy'|Hy'].
      * by apply Hrows'.
      * apply list_elem_of_singleton in Hy' as ->. apply Hcols; [done|].
        apply below_elem. apply Hin'.
  - exists g'. split; [done|]. split; [done|].
    intros x y Hin. apply Hcells; [done|]. apply below_elem. apply Hin.
Qed.

Lemma nextCell_rule c n :
  c = 0 ∨ c = 1 →
  nextCell c (Z.of_nat n)
  = if decide (survives (c = 1) n ∨ isBorn (c = 0) n) then 1 else 0.
Proof.
  intros Hc. unfold nextCell, survives, isBorn.
  destruct (Z.eqb_spec c 1), (Z.eqb_spec (Z.of_nat n) 2),
    (Z.eqb_spec (Z.of_nat n) 3); simpl; case_decide; lia.
Qed.

(** C1.  One generation step, in either variant, turns a grid of 0 / 1
    cells into a new grid of the same dimensions; a cell of the new grid is
    alive when it was alive with 2 or 3 live neighbours or dead with exactly
    3 live neighbours, and dead in every other case. *)
Theorem nextGeneration_life_rule (N : Z) (G : Grid) :
  squareGrid N G → binaryGrid G →
  ∃ G', VariantA.nextGeneration N G = Some G' ∧
        VariantB.nextGeneration N G = Some G' ∧
        squareGrid N G' ∧
        ∀ x y, InGrid N x y →
          let n := length (liveNeighbours N G x y) in
          let lives := survives (alive G x y) n ∨ isBorn (dead G x y) n in
          (lives → alive G' x y) ∧ (¬ lives → dead G' x y).
Proof.
  intros Hsq Hbin.
  destruct (nextGeneration_cells N G Hsq) as (G' & Hrun & Hsq' & Hcells).
  exists G'. split; [done|].
  split; [by rewrite (nextGeneration_variants N G)|]. split; [done|].
  intros x y Hin n lives.
  destruct (Hcells x y Hin) as (c & k & Hc & Hk & Hv).
  rewrite countNeighbors_live in Hk by done. injection Hk as <-. fold n in Hv.
  assert (Hc01 : c = 0 ∨ c = 1).
  { destruct (proj1 (binaryGrid_cells N G Hsq) Hbin x y Hin) as [H|H];
      unfold dead, alive in H; rewrite H in Hc; injection Hc as <-; auto. }
  rewrite nextCell_rule in Hv by done.
  assert (Hiff : lives ↔ survives (c = 1) n ∨ isBorn (c = 0) n).
  { unfold lives, survives, isBorn, alive, dead. rewrite Hc.
    split; (intros [[H ?]|[H ?]]; [left|right]); (split; [congruence|done]). }
  unfold alive, dead. rewrite Hv.
  split; intros Hl; case_decide; tauto.
Qed.

Lemma surrounding_effective N x y :
  (InGrid N x y → x = 0 ∨ x = N - 1 ∨ y = 0 ∨ y = N - 1 →
     (length (effectiveNeighbours N x y) ≤ 5)%nat) ∧
  (0 < x < N - 1 → 0 < y < N - 1 →
     length (effectiveNeighbours N x y) = 8%nat).
Proof.
  unfold effectiveNeighbours, surrounding, InGrid.
  rewrite !filter_cons, filter_nil. simpl.
  split; intros H1 H2; repeat case_decide; simpl; lia.
Qed.

(** C2.  On a grid of 0 / 1 cells, for any coordinate, the neighbour
    counter of either variant returns the number of alive cells among the
    eight surrounding positions; the position itself is not among them and
    positions outside the grid are skipped.  The result lies between 0 and
    8, and a cell on the border has at most 5 positions to count where an
    inner cell has 8.  The counter only returns a number: the grid it reads
    is a value that nothing changes. *)
Theorem countNeighbors_counts_live (N : Z) (g : Grid) (x y : Z) :
  squareGrid N g → binaryGrid g →
  let n := length (liveNeighbours N g x y) in
  VariantA.countNeighbors N g x y = Some (Z.of_nat n) ∧
  VariantB.countNeighbors N g x y = Some (Z.of_nat n) ∧
  length (surrounding x y) = 8%nat ∧ NoDup (surrounding x y) ∧
  ((x, y) ∉ surrounding x y) ∧
  (∀ p, p ∈ liveNeighbours N g x y ↔
        p ∈ surrounding x y ∧ InGrid N p.1 p.2 ∧ alive g p.1 p.2) ∧
  0 ≤ Z.of_nat n ≤ 8 ∧
  (InGrid N x y → x = 0 ∨ x = N - 1 ∨ y = 0 ∨ y = N - 1 →
     (length (effectiveNeighbours N x y) ≤ 5)%nat ∧ Z.of_nat n ≤ 5) ∧
  (0 < x < N - 1 → 0 < y < N - 1 → length (effectiveNeighbours N x y) = 8%nat).
Proof.
  intros Hsq Hbin n.
  pose proof (countNeighbors_live N g x y Hsq Hbin) as Hcount. fold n in Hcount.
  split; [done|]. split; [by rewrite (countNeighbors_variants N g x y)|].
  split; [done|]. split.
  { unfold surrounding. repeat (apply NoDup_cons; split;
      [rewrite ?elem_of_cons, elem_of_nil; intros H;
       repeat (destruct H as [H|H]; [injection H; lia|]); done|]).
    apply NoDup_nil. done. }
  split.
  { unfold surrounding. rewrite !elem_of_cons, elem_of_nil. intros H.
    repeat (destruct H as [H|H]; [injection H; lia|]). done. }
  split.
  { intros p. unfold liveNeighbours, effectiveNeighbours.
    rewrite !list_elem_of_filter. tauto. }
  split.
  { pose proof (liveNeighbours_bound N g x y). lia. }
  pose proof (surrounding_effective N x y) as [Hborder Hinner].
  split; [|done].
  intros Hin Hedge. specialize (Hborder Hin Hedge). split; [done|].
  assert (n ≤ length (effectiveNeighbours N x y))%nat; [|lia].
  apply length_filter.
Qed.

(** ** Setting cells alive *)

Lemma markedFrom_refl N g : squareGrid N g → markedFrom N g (λ _ _, False) g.
Proof. intros Hsq. split; [done|]. intros x y _. right. tauto. Qed.

Lemma markedFrom_iff N g (P Q : Z → Z → Prop) g' :
  (∀ x y, InGrid N x y → P x y ↔ Q x y) →
  markedFrom N g P g' → markedFrom N g Q g'.
Proof.
  intros HPQ [Hsq Hcells]. split; [done|]. intros x y Hin.
  specialize (HPQ x y Hin). destruct (Hcells x y Hin) as [[? ?]|[? ?]]; [left|right]; tauto.
Qed.

Lemma markedFrom_trans N g (P Q : Z → Z → Prop) g1 g2 :
  markedFrom N g P g1 → markedFrom N g1 Q g2 →
  markedFrom N g (λ x y, P x y ∨ Q x y) g2.
Proof.
  intros [_ H1] [Hsq H2]. split; [done|]. intros x y Hin.
  destruct (H2 x y Hin) as [[HQ Hv]|[HQ Hv]]; [left; tauto|].
  destruct (H1 x y Hin) as [[HP Hv']|[HP Hv']].
  - left. split; [tauto|congruence].
  - right. split; [tauto|congruence].
Qed.

Lemma markedFrom_alive N g P g' x y :
  markedFrom N g P g' → InGrid N x y → alive g x y → alive g' x y.
Proof.
  intros [_ H] Hin Ha. unfold alive in *.
  destruct (H x y Hin) as [[_ ?]|[_ ?]]; congruence.
Qed.

Lemma setCellAlive_marked N g x y :
  squareGrid N g →
  ∃ g', VariantA.setCellAlive N g x y = Some g' ∧
        markedFrom N g (λ x' y', x' = x ∧ y' = y) g'.
Proof.
  intros Hsq. unfold VariantA.setCellAlive.
  destruct (inGrid N x y) eqn:Hin.
  - apply inGrid_true in Hin.
    destruct (writeCell_square N g x y 1 Hsq Hin) as (g' & Hw & Hsq' & Hrd & Hother).
    exists g'. split; [done|]. split; [done|]. intros x' y' _.
    destruct (decide (x' = x ∧ y' = y)) as [[-> ->]|Hne]; [left|right]; auto.
  - apply inGrid_false in Hin. exists g. split; [done|]. split; [done|].
    intros x' y' Hin'. right. split; [|done]. intros [-> ->]. done.
Qed.

(** A loop whose every round sets cells alive sets alive the cells of all
    its rounds. *)
Lemma forEach_marked {A : Type} N (l : list A) (body : A → Grid → option Grid)
    (marks : A → Z → Z → Prop) (g : Grid) :
  (∀ a g0, a ∈ l → squareGrid N g0 →
     ∃ g1, body a g0 = Some g1 ∧ markedFrom N g0 (marks a) g1) →
  squareGrid N g →
  ∃ g', forEach l body g = Some g' ∧
        markedFrom N g (λ x y, ∃ a, a ∈ l ∧ marks a x y) g'.
Proof.
  intros Hbody Hsq.
  apply (forEach_inv (λ done g', markedFrom N g (λ x y, ∃ a, a ∈ done ∧ marks a x y) g')).
  - eapply markedFrom_iff; [|by apply markedFrom_refl].
    intros x y _. split; [done|]. intros (a & Ha & _). inversion Ha.
  - intros done a g0 Ha Hinv.
    destruct (Hbody a g0 Ha (proj1 Hinv)) as (g1 & Hrun & Hmark).
    exists g1. split; [done|].
    eapply markedFrom_iff; [|exact (markedFrom_trans _ _ _ _ _ _ Hinv Hmark)].
    intros x y _. simpl. split.
    + intros [(a' & Ha' & Hm)|Hm]; [exists a'|exists a];
        (split; [apply elem_of_app; (by left) || (right; by left)|done]).
    + intros (a' & Ha' & Hm). apply elem_of_app in Ha' as [Ha'|Ha'].
      * left. eauto.
      * apply list_elem_of_singleton in Ha' as ->. by right.
Qed.

(** ** Stamping *)

Lemma string_get_lt i s c : String.get i s = Some c → (i < String.length s)%nat.
Proof.
  revert i. induction s as [|c' s IH]; intros i H; simpl in *; [done|].
  destruct i as [|i]; [lia|]. apply IH in H. lia.
Qed.

(** The cells [stampPattern] sets alive, as its loops find them. *)
Lemma stampPattern_marked N g pattern offsetX offsetY row0 :
  squareGrid N g → pattern !! 0%nat = Some row0 →
  ∃ g', VariantA.stampPattern N g pattern offsetX offsetY = Some g' ∧
        markedFrom N g
          (λ x y, ∃ j, 0 ≤ j < Z.of_nat (length pattern) ∧
                  ∃ i, 0 ≤ i < Z.of_nat (String.length row0) ∧
                       VariantA.patternMark pattern i j = true ∧
                       x = offsetX + i ∧ y = offsetY + j) g'.
Proof.
  intros Hsq Hrow0. unfold VariantA.stampPattern. rewrite Hrow0. simpl.
  edestruct (forEach_marked N (below (Z.of_nat (length pattern)))) as (g' & Hrun & Hm);
    [|exact Hsq|].
  2:{ exists g'. split; [exact Hrun|].
      eapply markedFrom_iff; [|exact Hm]. intros x y _. simpl.
      split.
      - intros (j & Hj & Hrest). exists j. split; [by apply below_elem in Hj|].
        exact Hrest.
      - intros (j & Hj & Hrest). exists j. split; [by apply below_elem|].
        exact Hrest. }
  intros j g0 _ Hsq0. simpl.
  edestruct (forEach_marked N (below (Z.of_nat (String.length row0)))) as (g1 & Hrun & Hm);
    [|exact Hsq0|].
  2:{ exists g1. split; [exact Hrun|].
      eapply markedFrom_iff; [|exact Hm]. intros x y _. simpl.
      split.
      - intros (i & Hi & Hrest). exists i. split; [by apply below_elem in Hi|].
        exact Hrest.
      - intros (i & Hi & Hrest). exists i. split; [by apply below_elem|].
        exact Hrest. }
  intros i g2 _ Hsq2. simpl.
  destruct (VariantA.patternMark pattern i j) eqn:Hmark.
  - destruct (setCellAlive_marked N g2 (offsetX + i) (offsetY + j) Hsq2)
      as (g3 & Hset & Hm3).
    unfold VariantA.setCellAlive in Hset. exists g3. split; [exact Hset|].
    eapply markedFrom_iff; [|exact Hm3]. intros x y _. simpl. tauto.
  - exists g2. split; [done|].
    eapply markedFrom_iff; [|by apply markedFrom_refl]. intros x y _. simpl.
    split; [done|]. intros [? _]. done.
Qed.

Lemma patternMark_alive pattern i j :
  VariantA.patternMark pattern (Z.of_nat i) (Z.of_nat j) = true ↔ patternAlive pattern i j.
Proof.
  unfold VariantA.patternMark, patternAlive, nthZ.
  replace (0 <=? Z.of_nat j) with true by (symmetry; apply Z.leb_le; lia).
  replace (0 <=? Z.of_nat i) with true by (symmetry; apply Z.leb_le; lia).
  rewrite !Nat2Z.id. destruct (pattern !! j) as [row|] eqn:Hrow.
  - destruct (String.get i row) as [c|] eqn:Hget.
    + rewrite bool_decide_eq_true. split.
      * intros ->. by exists row.
      * intros (row' & Hrow' & Hget'). congruence.
    + split; [done|]. intros (row' & Hrow' & Hget'). congruence.
  - split; [done|]. intros (row' & Hrow' & _). done.
Qed.

(** C6.  Stamping a rectangular pattern at any offset sets alive exactly
    the cells of the grid that an alive mark of the pattern lands on.  Marks
    that land outside the grid are skipped without failure, and every other
    cell, whether the pattern marks it dead or does not cover it, keeps its
    value: cells that were alive stay alive. *)
Theorem stampPattern_additive (N : Z) (g : Grid) (pattern : Pattern)
    (offsetX offsetY : Z) :
  squareGrid N g → rectangular pattern →
  ∃ g', VariantA.stampPattern N g pattern offsetX offsetY = Some g' ∧
        squareGrid N g' ∧
        ∀ x y, InGrid N x y →
          let stamped := ∃ i j : nat, patternAlive pattern i j ∧
                           x = offsetX + Z.of_nat i ∧ y = offsetY + Z.of_nat j in
          (stamped → alive g' x y) ∧
          (¬ stamped → readCell g' x y = readCell g x y) ∧
          (alive g x y → alive g' x y).
Proof.
  intros Hsq (row0 & Hrow0 & Hrect).
  destruct (stampPattern_marked N g pattern offsetX offsetY row0 Hsq Hrow0)
    as (g' & Hrun & Hm).
  exists g'. split; [done|]. split; [apply Hm|].
  intros x y Hin stamped.
  assert (Hiff : stamped ↔
    ∃ j, 0 ≤ j < Z.of_nat (length pattern) ∧
    ∃ i, 0 ≤ i < Z.of_nat (String.length row0) ∧
         VariantA.patternMark pattern i j = true ∧ x = offsetX + i ∧ y = offsetY + j).
  { unfold stamped. split.
    - intros (i & j & Ha & -> & ->). pose proof Ha as (row & Hrow & Hget).
      exists (Z.of_nat j). split; [apply lookup_lt_Some in Hrow; lia|].
      exists (Z.of_nat i). split.
      + apply string_get_lt in Hget. rewrite Forall_lookup in Hrect.
        rewrite <- (Hrect _ _ Hrow). lia.
      + split; [by apply patternMark_alive|done].
    - intros (j & Hj & i & Hi & Hmark & -> & ->).
      exists (Z.to_nat i), (Z.to_nat j). rewrite !Z2Nat.id by lia.
      split; [|done]. apply patternMark_alive. by rewrite !Z2Nat.id by lia. }
  destruct Hm as [_ Hcells]. unfold alive.
  destruct (Hcells x y Hin) as [[HP Hv]|[HP Hv]].
  - split; [done|]. split; [|done]. intros Hn. exfalso. apply Hn, Hiff, HP.
  - split; [|split; [done|congruence]]. intros Hs. exfalso. apply HP, Hiff, Hs.
Qed.

(** ** The ring test *)

Lemma sqrtGeHalf_real d2 h :
  0 ≤ d2 → sqrtGeHalf d2 h = true ↔ (IZR h / 2 <= R_sqrt.sqrt (IZR d2))%R.
Proof.
  intros Hd. unfold sqrtGeHalf.
  pose proof (IZR_le _ _ Hd) as Hd'.
  pose proof (sqrt_pos (IZR d2)) as Hs.
  pose proof (sqrt_sqrt (IZR d2) Hd') as Hss.
  rewrite orb_true_iff, Z.leb_le, Z.leb_le.
  destruct (Z_le_gt_dec h 0) as [Hh|Hh].
  - split; [intros _|auto]. apply IZR_le in Hh. lra.
  - assert (0 < IZR h)%R as Hh' by (apply IZR_lt; lia).
    split.
    + intros [?|Hsq]; [lia|]. apply IZR_le in Hsq.
      rewrite !mult_IZR in Hsq.
      destruct (Rle_or_lt (IZR h / 2) (R_sqrt.sqrt (IZR d2))) as [|Hlt]; [done|].
      exfalso. nra.
    + intros Hle. right. apply le_IZR. rewrite !mult_IZR. nra.
Qed.

Lemma sqrtLeHalf_real d2 h :
  0 ≤ d2 → sqrtLeHalf d2 h = true ↔ (R_sqrt.sqrt (IZR d2) <= IZR h / 2)%R.
Proof.
  intros Hd. unfold sqrtLeHalf.
  pose proof (IZR_le _ _ Hd) as Hd'.
  pose proof (sqrt_pos (IZR d2)) as Hs.
  pose proof (sqrt_sqrt (IZR d2) Hd') as Hss.
  rewrite andb_true_iff, Z.leb_le, Z.leb_le.
  split.
  - intros [Hh Hsq]. apply IZR_le in Hh, Hsq. rewrite !mult_IZR in Hsq.
    destruct (Rle_or_lt (R_sqrt.sqrt (IZR d2)) (IZR h / 2)) as [|Hlt]; [done|].
    exfalso. nra.
  - intros Hle. assert (0 <= IZR h)%R as Hh by lra.
    split; [by apply le_IZR|]. apply le_IZR. rewrite !mult_IZR. nra.
Qed.

(** The test on the squares is the test on the Euclidean distance. *)
Lemma onRing_distance k cx cy x y :
  onRing k (x - cx) (y - cy) = true
  ↔ (IZR k - / 2 <= distance cx cy x y <= IZR k + / 2)%R.
Proof.
  unfold onRing, distance. cbv zeta.
  assert (0 ≤ (x - cx) * (x - cx) + (y - cy) * (y - cy)) as Hd.
  { pose proof (Z.square_nonneg (x - cx)). pose proof (Z.square_nonneg (y - cy)).
    lia. }
  rewrite andb_true_iff, sqrtGeHalf_real, sqrtLeHalf_real by done.
  rewrite (minus_IZR (2 * k) 1), (plus_IZR (2 * k) 1), (mult_IZR 2 k).
  split; intros [H1 H2]; split; lra.
Qed.

(** A cell on the ring is no further than [k] columns and rows from the
    centre, so the bounding box of the loops loses none. *)
Lemma onRing_box k dx dy :
  onRing k dx dy = true → - k ≤ dx ≤ k ∧ - k ≤ dy ≤ k.
Proof.
  unfold onRing, sqrtGeHalf, sqrtLeHalf.
  rewrite !andb_true_iff, orb_true_iff, !Z.leb_le. nia.
Qed.

(** For the radii and offsets a ripple can have, evaluating the ring test
    of the script in double precision gives the answer of [onRing]. *)
Lemma ring_double_agrees k dx dy :
  1 ≤ k ≤ 10 → -10 ≤ dx ≤ 10 → -10 ≤ dy ≤ 10 →
  onRingDouble k dx dy = onRing k dx dy.
Proof.
  intros Hk Hdx Hdy.
  assert (H : ringAgreement = true) by (vm_compute; reflexivity).
  unfold ringAgreement in H.
  assert (Hin : ∀ lo hi i, lo ≤ i ≤ hi → In i (upTo lo hi)).
  { intros lo hi i Hi. apply list_elem_of_In, upTo_elem. lia. }
  pose proof (proj1 (forallb_forall _ _) H k (Hin _ _ _ Hk)) as H1.
  pose proof (proj1 (forallb_forall _ _) H1 dx (Hin _ _ _ Hdx)) as H2.
  pose proof (proj1 (forallb_forall _ _) H2 dy (Hin _ _ _ Hdy)) as H3.
  by apply Bool.eqb_prop.
Qed.

(** ** Applying ripples *)

Lemma forEach_marked_as {A : Type} N (l : list A) (body : A → Grid → option Grid)
    (marks : A → Z → Z → Prop) (Q : Z → Z → Prop) (g : Grid) :
  (∀ a g0, a ∈ l → squareGrid N g0 →
     ∃ g1, body a g0 = Some g1 ∧ markedFrom N g0 (marks a) g1) →
  (∀ x y, InGrid N x y → (∃ a, a ∈ l ∧ marks a x y) ↔ Q x y) →
  squareGrid N g →
  ∃ g', forEach l body g = Some g' ∧ markedFrom N g Q g'.
Proof.
  intros Hbody HQ Hsq.
  destruct (forEach_marked N l body marks g Hbody Hsq) as (g' & Hrun & Hm).
  exists g'. split; [done|]. exact (markedFrom_iff N g _ Q g' HQ Hm).
Qed.

(** One round of the loop of [applyRipplesToGrid]. *)
Lemma rippleRound_marked N r g :
  squareGrid N g →
  ∃ g',
    (let radius := age r in
     if radius =? 0 then VariantA.setCellAlive N g (rx r) (ry r)
     else
       let minX := Z.max 0 (rx r - radius) in
       let maxX := Z.min (N - 1) (rx r + radius) in
       let minY := Z.max 0 (ry r - radius) in
       let maxY := Z.min (N - 1) (ry r + radius) in
       forEach (upTo minY maxY) (λ y grid,
         forEach (upTo minX maxX) (λ x grid,
           let dx := x - rx r in
           let dy := y - ry r in
           if onRing radius dx dy then VariantA.setCellAlive N grid x y
           else Some grid) grid) g) = Some g' ∧
    markedFrom N g (rippleMark r) g'.
Proof.
  intros Hsq. cbv zeta. unfold rippleMark.
  destruct (Z.eqb_spec (age r) 0) as [H0|H0].
  - destruct (setCellAlive_marked N g (rx r) (ry r) Hsq) as (g' & Hrun & Hm).
    exists g'. split; [done|]. eapply markedFrom_iff; [|exact Hm].
    intros x y _. simpl. by rewrite decide_True.
  - set (minX := Z.max 0 (rx r - age r)). set (maxX := Z.min (N - 1) (rx r + age r)).
    set (minY := Z.max 0 (ry r - age r)). set (maxY := Z.min (N - 1) (ry r + age r)).
    apply (forEach_marked_as N _ _
      (λ y0 x y, ∃ x0, x0 ∈ upTo minX maxX ∧
         onRing (age r) (x0 - rx r) (y0 - ry r) = true ∧ x = x0 ∧ y = y0));
      [| |exact Hsq].
    + intros y0 g0 _ Hsq0.
      apply (forEach_marked N _ _
        (λ x0 x y, onRing (age r) (x0 - rx r) (y0 - ry r) = true ∧ x = x0 ∧ y = y0));
        [|exact Hsq0].
      intros x0 g2 _ Hsq2. cbv zeta.
      destruct (onRing (age r) (x0 - rx r) (y0 - ry r)) eqn:Hring.
      * destruct (setCellAlive_marked N g2 x0 y0 Hsq2) as (g3 & Hset & Hm3).
        exists g3. split; [done|]. eapply markedFrom_iff; [|exact Hm3].
        intros x y _. simpl. tauto.
      * exists g2. split; [done|].
        eapply markedFrom_iff; [|by apply markedFrom_refl].
        intros x y _. simpl. split; [done|]. intros [? _]. done.
    + intros x y Hin. rewrite decide_False by done. split.
      * intros (y0 & _ & x0 & _ & Hring & -> & ->). done.
      * intros Hring. pose proof (onRing_box _ _ _ Hring) as [Hx Hy].
        unfold InGrid in Hin.
        exists y. split; [apply upTo_elem; lia|].
        exists x. split; [apply upTo_elem; lia|]. done.
Qed.

Lemma applyRipplesToGrid_marked N rs g :
  squareGrid N g →
  ∃ g', VariantA.applyRipplesToGrid N rs g = Some g' ∧
        markedFrom N g (λ x y, ∃ r, r ∈ rs ∧ rippleMark r x y) g'.
Proof.
  intros Hsq. unfold VariantA.applyRipplesToGrid.
  apply (forEach_marked N rs _ rippleMark); [|done].
  intros r g0 _ Hsq0. apply rippleRound_marked. done.
Qed.

Lemma rippleMark_cell N r x y :
  InGrid N x y → rippleMark r x y ↔ rippleCell N r x y.
Proof.
  intros Hin. unfold rippleMark, rippleCell.
  destruct (decide (age r = 0)); [tauto|].
  rewrite onRing_distance. tauto.
Qed.

(** C3.  Applying a ripple with centre [(rx, ry)] and age [k] sets alive
    the centre cell alone when [k = 0], and when [k > 0] the cells of the
    grid whose Euclidean distance to the centre is between [k - 0.5] and
    [k + 0.5]; every other cell keeps its value, so no cell is set dead.
    Up to the greatest age a ripple reaches, the test of the script in
    double precision agrees with [onRing] on every cell the loops visit. *)
Theorem ripple_marks_ring (N : Z) (g : Grid) (r : Ripple) :
  squareGrid N g → InGrid N (rx r) (ry r) → 0 ≤ age r →
  ∃ g', VariantA.applyRipplesToGrid N [r] g = Some g' ∧
        squareGrid N g' ∧
        (∀ x y, InGrid N x y →
           (rippleCell N r x y → alive g' x y) ∧
           (¬ rippleCell N r x y → readCell g' x y = readCell g x y) ∧
           (alive g x y → alive g' x y)) ∧
        (age r = 0 → ∀ x y, rippleCell N r x y ↔ x = rx r ∧ y = ry r) ∧
        (0 < age r → ∀ x y, rippleCell N r x y ↔
           InGrid N x y ∧
           (IZR (age r) - / 2 <= distance (rx r) (ry r) x y <= IZR (age r) + / 2)%R) ∧
        (0 < age r ≤ 10 → ∀ x y,
           rx r - age r ≤ x ≤ rx r + age r → ry r - age r ≤ y ≤ ry r + age r →
           onRingDouble (age r) (x - rx r) (y - ry r)
           = onRing (age r) (x - rx r) (y - ry r)).
Proof.
  intros Hsq Hcentre Hage.
  destruct (applyRipplesToGrid_marked N [r] g Hsq) as (g' & Hrun & Hm).
  exists g'. split; [done|]. split; [apply Hm|]. split; [|split; [|split]].
  - intros x y Hin.
    assert (Hiff : (∃ r', r' ∈ [r] ∧ rippleMark r' x y) ↔ rippleCell N r x y).
    { rewrite <- (rippleMark_cell N r x y Hin). split.
      - intros (r' & Hr' & Hmark). apply list_elem_of_singleton in Hr' as ->. done.
      - intros Hmark. exists r. split; [by left|done]. }
    destruct Hm as [_ Hcells]. unfold alive.
    destruct (Hcells x y Hin) as [[HP Hv]|[HP Hv]].
    + split; [done|]. split; [|done]. intros Hn. exfalso. apply Hn, Hiff, HP.
    + split; [|split; [done|congruence]]. intros Hs. exfalso. apply HP, Hiff, Hs.
  - intros H0 x y. unfold rippleCell. rewrite decide_True by done.
    split; [tauto|]. intros [-> ->]. done.
  - intros Hpos x y. unfold rippleCell. rewrite decide_False by lia. done.
  - intros Hk x y Hx Hy. apply ring_double_agrees; lia.
Qed.

(** C7.  The grid that applying a list of ripples produces does not depend
    on the order of the list: any permutation of the ripples gives the same
    grid, and applying the ripples again changes nothing. *)
Theorem applyRipples_any_order (N : Z) (g : Grid) (rs rs' : list Ripple) :
  squareGrid N g → rs ≡ₚ rs' →
  ∃ g', VariantA.applyRipplesToGrid N rs g = Some g' ∧
        VariantA.applyRipplesToGrid N rs' g = Some g' ∧
        VariantA.applyRipplesToGrid N rs g' = Some g'.
Proof.
  intros Hsq Hperm.
  destruct (applyRipplesToGrid_marked N rs g Hsq) as (g1 & Hrun1 & Hm1).
  destruct (applyRipplesToGrid_marked N rs' g Hsq) as (g2 & Hrun2 & Hm2).
  destruct (applyRipplesToGrid_marked N rs g1 (proj1 Hm1)) as (g3 & Hrun3 & Hm3).
  exists g1. split; [done|].
  assert (g2 = g1) as ->.
  { apply (grid_ext N); [apply Hm2|apply Hm1|]. intros x y Hin.
    destruct Hm1 as [_ H1], Hm2 as [_ H2].
    destruct (H1 x y Hin) as [[(r & Hr & HP) Hv]|[HP Hv]],
             (H2 x y Hin) as [[(r' & Hr' & HP') Hv']|[HP' Hv']]; try congruence.
    - exfalso. apply HP'. exists r. split; [by rewrite <- Hperm|done].
    - exfalso. apply HP. exists r'. split; [by rewrite Hperm|done]. }
  split; [done|].
  assert (g3 = g1) as ->; [|done].
  apply (grid_ext N); [apply Hm3|apply Hm1|]. intros x y Hin.
  destruct Hm1 as [_ H1], Hm3 as [_ H3].
  destruct (H1 x y Hin) as [[HP Hv]|[HP Hv]],
           (H3 x y Hin) as [[HP' Hv']|[HP' Hv']]; congruence.
Qed.

(** ** Ageing ripples *)

Lemma updateRipples_loop (l tail : list Ripple) :
  forEach (reverse (seq 0 (length l))) (λ i ripples,
    r ← ripples !! i;
    let r' := {| rx := rx r; ry := ry r; age := age r + 1; maxAge := maxAge r |} in
    let ripples := <[i := r']> ripples in
    if maxAge r' <? age r' then Some (delete i ripples) else Some ripples)
    (l ++ tail)
  = Some (filter (λ r, age r ≤ maxAge r) (aged <$> l) ++ tail).
Proof.
  revert tail. induction l as [|r l IH] using rev_ind; intros tail; [done|].
  rewrite length_app, Nat.add_comm. cbn [length Nat.add].
  rewrite seq_S, reverse_app. cbn [reverse rev_append app forEach Nat.add].
  rewrite <- app_assoc. cbn [app].
  rewrite list_lookup_middle by done. cbn [mbind option_bind].
  rewrite insert_app_r_alt by done. rewrite Nat.sub_diag. cbn [insert list_insert].
  rewrite fmap_app, filter_app. cbn [fmap list_fmap].
  rewrite (filter_singleton _ _ []).
  fold (aged r). cbn [age maxAge aged].
  destruct (Z.ltb_spec (maxAge r) (age r + 1)) as [Hout|Hin]; cbn [mbind option_bind].
  - rewrite delete_middle, IH. rewrite decide_False by (cbn; lia).
    by rewrite app_nil_r.
  - rewrite IH. rewrite decide_True by (cbn; lia).
    by rewrite <- app_assoc.
Qed.

Lemma updateRipples_filter (rs : list Ripple) :
  VariantA.updateRipples rs
  = Some (filter (λ r, age r ≤ maxAge r) (aged <$> rs)).
Proof.
  unfold VariantA.updateRipples.
  pose proof (updateRipples_loop rs []) as H.
  rewrite !app_nil_r in H. exact H.
Qed.

(** ** Well-formed grids *)

Lemma markedFrom_good N g P g' :
  goodGrid N g → markedFrom N g P g' → goodGrid N g'.
Proof.
  intros [Hsq Hbin] [Hsq' Hcells]. split; [done|].
  apply (binaryGrid_cells N g' Hsq'). intros x y Hin.
  destruct (Hcells x y Hin) as [[_ Hv]|[_ Hv]]; [by right|].
  unfold dead, alive. rewrite Hv.
  apply (binaryGrid_cells N g Hsq); done.
Qed.

Lemma writeCell_good N g x y v :
  goodGrid N g → InGrid N x y → v = 0 ∨ v = 1 →
  ∃ g', writeCell g x y v = Some g' ∧ goodGrid N g'.
Proof.
  intros [Hsq Hbin] Hin Hv.
  destruct (writeCell_square N g x y v Hsq Hin) as (g' & Hw & Hsq' & Hrd & Hother).
  exists g'. split; [done|]. split; [done|].
  apply (binaryGrid_cells N g' Hsq'). intros x' y' Hin'.
  destruct (decide (x' = x ∧ y' = y)) as [[-> ->]|Hne].
  - unfold dead, alive. rewrite Hrd. destruct Hv as [-> | ->]; auto.
  - unfold dead, alive. rewrite Hother by done.
    apply (binaryGrid_cells N g Hsq); done.
Qed.

Lemma createEmptyGrid_good N :
  0 ≤ N →
  ∃ g, VariantA.createEmptyGrid N = Some g ∧ goodGrid N g ∧
       ∀ x y, InGrid N x y → dead g x y.
Proof.
  intros HN. rewrite createEmptyGrid_replicate by done.
  eexists. split; [done|].
  assert (Hdead : ∀ x y, InGrid N x y →
     dead (replicate (Z.to_nat N) (replicate (Z.to_nat N) 0)) x y)
    by (intros; by apply replicate_dead).
  split; [|done]. split; [by apply replicate_squareGrid|].
  apply (binaryGrid_cells N); [by apply replicate_squareGrid|]. auto.
Qed.

Lemma nextCell_binary c n : nextCell c n = 0 ∨ nextCell c n = 1.
Proof.
  unfold nextCell.
  destruct ((c =? 1) && ((n =? 2) || (n =? 3))); [auto|].
  destruct (negb (c =? 1) && (n =? 3)); auto.
Qed.

Lemma nextGeneration_good N g :
  squareGrid N g → ∃ g', VariantA.nextGeneration N g = Some g' ∧ goodGrid N g'.
Proof.
  intros Hsq. destruct (nextGeneration_cells N g Hsq) as (g' & Hrun & Hsq' & Hcells).
  exists g'. split; [done|]. split; [done|].
  apply (binaryGrid_cells N g' Hsq'). intros x y Hin.
  destruct (Hcells x y Hin) as (c & n & _ & _ & Hv).
  unfold dead, alive. rewrite Hv.
  destruct (nextCell_binary c n) as [-> | ->]; auto.
Qed.

Lemma stampPattern_good N g pattern offsetX offsetY row0 :
  goodGrid N g → pattern !! 0%nat = Some row0 →
  ∃ g', VariantA.stampPattern N g pattern offsetX offsetY = Some g' ∧ goodGrid N g'.
Proof.
  intros Hg Hrow0.
  destruct (stampPattern_marked N g pattern offsetX offsetY row0 (proj1 Hg) Hrow0)
    as (g' & Hrun & Hm).
  exists g'. split; [done|]. by eapply markedFrom_good.
Qed.

Lemma applyRipplesToGrid_good N rs g :
  goodGrid N g →
  ∃ g', VariantA.applyRipplesToGrid N rs g = Some g' ∧ goodGrid N g'.
Proof.
  intros Hg.
  destruct (applyRipplesToGrid_marked N rs g (proj1 Hg)) as (g' & Hrun & Hm).
  exists g'. split; [done|]. by eapply markedFrom_good.
Qed.

Lemma drawCells_square N g : squareGrid N g → is_Some (drawCells N g).
Proof.
  intros Hsq. unfold drawCells.
  apply mapM_is_Some_2, Forall_forall. intros y Hy. apply below_elem in Hy.
  apply mapM_is_Some_2, Forall_forall. intros x Hx. apply below_elem in Hx.
  simpl. destruct (readCell_square N g x y Hsq) as [c ->]; [done|]. by eexists.
Qed.

(** ** The letters and the shapes *)

Lemma placeWordANDER_good N g :
  goodGrid N g → ∃ g', VariantA.placeWordANDER N g = Some g' ∧ goodGrid N g'.
Proof.
  intros Hg. unfold VariantA.placeWordANDER. cbv zeta.
  match goal with |- context [forEach ?l ?body ?s0] =>
    destruct (forEach_preserves (λ st : Z * Grid, goodGrid N st.2) l body s0)
      as (st & Hrun & Hinv); [exact Hg| |rewrite Hrun; exists st.2; done]
  end.
  intros ch [x g0] Hch Hg0. simpl in Hg0.
  assert (∃ pattern row0, property VariantA.LETTERS ch = Some pattern ∧
                          pattern !! 0%nat = Some row0) as (pattern & row0 & -> & Hrow0).
  { cbn in Hch. rewrite !elem_of_cons, elem_of_nil in Hch.
    destruct Hch as [->|[->|[->|[->|[->|[]]]]]]; by eexists _, _. }
  simpl.
  destruct (stampPattern_good N g0 pattern x ((N - VariantA.LETTER_HEIGHT) `div` 2)
              row0 Hg0 Hrow0) as (g1 & -> & Hg1).
  eexists. split; [done|]. done.
Qed.

Lemma randomBelow_range random k n :
  validRandom random → 0 < n →
  0 ≤ VariantA.randomBelow random k n < n.
Proof.
  intros Hrnd Hn. destruct (Hrnd k) as [H0 H1]. unfold VariantA.randomBelow.
  assert (inject_Z 0 < inject_Z n)%Q as Hn' by (rewrite <- Zlt_Qlt; lia).
  split.
  - change 0 with (Qfloor 0). apply Qfloor_resp_le.
    apply Qmult_le_0_compat; [done|]. by apply Qlt_le_weak.
  - rewrite Zlt_Qlt. eapply Qle_lt_trans; [apply Qfloor_le|].
    rewrite <- (Qmult_1_l (inject_Z n)) at 2.
    by apply Qmult_lt_compat_r.
Qed.

Lemma pickShape random k :
  validRandom random →
  ∃ pattern row0,
    (nthZ (VariantA.SHAPES.*1)
          (VariantA.randomBelow random k (Z.of_nat (length (VariantA.SHAPES.*1))))
     ≫= property VariantA.SHAPES) = Some pattern ∧
    pattern !! 0%nat = Some row0.
Proof.
  intros Hrnd.
  pose proof (randomBelow_range random k 4 Hrnd) as Hidx.
  change (Z.of_nat (length (VariantA.SHAPES.*1))) with 4.
  set (idx := VariantA.randomBelow random k 4) in *.
  assert (idx = 0 ∨ idx = 1 ∨ idx = 2 ∨ idx = 3) as [->|[->|[->| ->]]] by lia;
    by eexists _, _.
Qed.

Lemma placeRandomNatureShapesScattered_good random N g draws :
  validRandom random → goodGrid N g →
  ∃ g' draws',
    VariantA.placeRandomNatureShapesScattered random N g draws = Some (g', draws') ∧
    goodGrid N g'.
Proof.
  intros Hrnd Hg. unfold VariantA.placeRandomNatureShapesScattered. cbv zeta.
  match goal with |- context [forEach ?l ?body ?s0] =>
    destruct (forEach_preserves (λ st : Grid * nat, goodGrid N st.1) l body s0)
      as ([g' d'] & Hrun & Hinv); [exact Hg| |rewrite Hrun; by exists g', d']
  end.
  intros i [g0 d0] _ Hg0. simpl in Hg0.
  destruct (pickShape random d0 Hrnd) as (pattern & row0 & Hpick & Hrow0).
  simpl in Hpick |- *.
  destruct (nthZ _ _) as [shapeName|]; [|done]. simpl in Hpick |- *.
  rewrite Hpick. simpl. rewrite Hrow0. simpl.
  edestruct (stampPattern_good N g0 pattern) as (g1 & -> & Hg1); [done|done|].
  eexists. split; [done|]. done.
Qed.

(** ** The page state of variant A *)

Lemma spawnRipple_ok N x y rs :
  InGrid N x y → Forall (rippleOk N) rs →
  Forall (rippleOk N) (VariantA.spawnRipple x y rs).
Proof.
  intros Hin Hrs. unfold VariantA.spawnRipple. apply Forall_app. split; [done|].
  apply Forall_singleton. unfold rippleOk. simpl. split; [done|]. lia.
Qed.

Lemma updateRipples_ok N rs :
  Forall (rippleOk N) rs →
  ∃ rs', VariantA.updateRipples rs = Some rs' ∧ Forall (rippleOk N) rs'.
Proof.
  intros Hrs. rewrite updateRipples_filter. eexists. split; [done|].
  apply Forall_forall. intros r Hr.
  apply list_elem_of_filter in Hr as [Hle Hr].
  apply list_elem_of_fmap in Hr as (r0 & -> & Hr0).
  rewrite Forall_forall in Hrs. destruct (Hrs r0 Hr0) as (Hin & Hage & Hmax).
  unfold rippleOk, aged in *. simpl in *. split; [done|]. lia.
Qed.

Lemma drawGrid_square s :
  squareGrid (VariantA.gridSize s) (VariantA.grid s) →
  ∃ scr, VariantA.drawGrid s =
    Some {| VariantA.gridSize := VariantA.gridSize s;
            VariantA.grid := VariantA.grid s;
            VariantA.running := VariantA.running s;
            VariantA.speedMs := VariantA.speedMs s;
            VariantA.lastStepTime := VariantA.lastStepTime s;
            VariantA.lastResetTime := VariantA.lastResetTime s;
            VariantA.ripples := VariantA.ripples s;
            VariantA.screen := scr;
            VariantA.draws := VariantA.draws s |}.
Proof.
  intros Hsq. unfold VariantA.drawGrid.
  destruct (drawCells_square _ _ Hsq) as [scr ->]. by exists scr.
Qed.

(** What one generation tick does to the page. *)
Lemma generationTick_spec timestamp s :
  invariantA s →
  ∃ g1 g2 rs s',
    VariantA.nextGeneration (VariantA.gridSize s) (VariantA.grid s) = Some g1 ∧
    VariantA.applyRipplesToGrid (VariantA.gridSize s) (VariantA.ripples s) g1
      = Some g2 ∧
    VariantA.updateRipples (VariantA.ripples s) = Some rs ∧
    VariantA.generationTick timestamp s = Some s' ∧
    VariantA.gridSize s' = VariantA.gridSize s ∧
    VariantA.grid s' = g2 ∧
    VariantA.ripples s' = rs ∧
    VariantA.running s' = VariantA.running s ∧
    VariantA.lastStepTime s' = timestamp ∧
    VariantA.lastResetTime s' = VariantA.lastResetTime s ∧
    invariantA s'.
Proof.
  intros [[Hsq Hbin] Hrs]. unfold VariantA.generationTick.
  destruct (nextGeneration_good _ _ Hsq) as (g1 & Hg1 & Hgood1).
  destruct (applyRipplesToGrid_good _ (VariantA.ripples s) _ Hgood1)
    as (g2 & Hg2 & Hgood2).
  destruct (updateRipples_ok _ _ Hrs) as (rs & Hupd & Hrs').
  exists g1, g2, rs. rewrite Hg1. simpl. rewrite Hg2. simpl. rewrite Hupd. simpl.
  edestruct drawGrid_square as [scr ->]; [exact (proj1 Hgood2)|]. simpl.
  eexists. split; [done|]. split; [done|]. split; [done|]. split; [done|].
  done.
Qed.

Lemma periodicReset_spec random timestamp s :
  validRandom random → invariantA s →
  ∃ s', VariantA.periodicReset random timestamp s = Some s' ∧
        VariantA.gridSize s' = VariantA.gridSize s ∧
        VariantA.ripples s' = VariantA.ripples s ∧
        invariantA s'.
Proof.
  intros Hrnd [[Hsq Hbin] Hrs]. unfold VariantA.periodicReset.
  destruct (createEmptyGrid_good (VariantA.gridSize s) (proj1 Hsq))
    as (g0 & -> & Hg0 & _). simpl.
  destruct (placeRandomNatureShapesScattered_good random _ g0 (VariantA.draws s)
              Hrnd Hg0) as (g1 & d & -> & Hg1). simpl.
  edestruct drawGrid_square as [scr ->]; [exact (proj1 Hg1)|]. simpl.
  eexists. split; [done|]. split; [done|]. split; [done|]. done.
Qed.

Lemma loop_invariantA random timestamp s :
  validRandom random → invariantA s →
  ∃ s', VariantA.loop random timestamp s = Some s' ∧ invariantA s'.
Proof.
  intros Hrnd Hinv. unfold VariantA.loop.
  destruct (VariantA.running s); [|by exists s].
  assert (∃ s1, (if VariantA.stepDue timestamp s
                 then VariantA.generationTick timestamp s else Some s) = Some s1 ∧
                invariantA s1) as (s1 & -> & Hinv1).
  { destruct (VariantA.stepDue timestamp s); [|by exists s].
    destruct (generationTick_spec timestamp s Hinv)
      as (g1 & g2 & rs & s' & _ & _ & _ & Hrun & _ & _ & _ & _ & _ & _ & Hinv').
    by exists s'. }
  simpl. destruct (VariantA.resetDue timestamp s1); [|by exists s1].
  destruct (periodicReset_spec random timestamp s1 Hrnd Hinv1) as (s' & ? & _ & _ & ?).
  by exists s'.
Qed.

Lemma canvasClick_invariantA gridX gridY s :
  invariantA s → invariantA (VariantA.canvasClick gridX gridY s).
Proof.
  intros [Hg Hrs]. unfold VariantA.canvasClick.
  destruct (inGrid (VariantA.gridSize s) gridX gridY) eqn:Hin; [|done].
  apply inGrid_true in Hin. split; [done|]. simpl. by apply spawnRipple_ok.
Qed.

Lemma handle_invariantA random e s :
  validRandom random → invariantA s →
  ∃ s', VariantA.handle random e s = Some s' ∧ invariantA s'.
Proof.
  intros Hrnd Hinv. destruct e as [timestamp|gridX gridY]; simpl.
  - by apply loop_invariantA.
  - eexists. split; [done|]. by apply canvasClick_invariantA.
Qed.

Lemma init_invariantA now :
  ∃ s0, VariantA.init now = Some s0 ∧ invariantA s0 ∧ VariantA.ripples s0 = [].
Proof.
  unfold VariantA.init.
  destruct (createEmptyGrid_good VariantA.initialGridSize) as (g0 & -> & Hg0 & _);
    [done|]. simpl.
  destruct (placeWordANDER_good _ g0 Hg0) as (g1 & -> & Hg1). simpl.
  edestruct drawGrid_square as [scr ->]; [exact (proj1 Hg1)|]. simpl.
  eexists. split; [done|]. split; [|done]. split; [done|]. simpl. constructor.
Qed.

(** Every sequence of events runs, and the invariant holds after it. *)
Lemma run_invariantA random events s :
  validRandom random → invariantA s →
  ∃ s', forEach events (VariantA.handle random) s = Some s' ∧ invariantA s'.
Proof.
  intros Hrnd Hinv. apply forEach_preserves; [done|].
  intros e s1 _ Hinv1. by apply handle_invariantA.
Qed.

Lemma validRandom_zero : validRandom (λ _, 0%Q).
Proof. intros k. split; [apply Qle_refl|reflexivity]. Qed.

(** C4.  A spawned ripple has age 0 and maxAge 10.  One update makes every
    ripple exactly one generation older and, in the same update, drops the
    ripples whose age then exceeds their maxAge.  After any sequence of
    frames and clicks from the start of the page, every ripple of the list
    has an age between 0 and its maxAge, which is 10. *)
Theorem ripple_age_invariant (random : nat → Q) (now : Q)
    (events : list VariantA.event) :
  validRandom random →
  (∀ x y rs, VariantA.spawnRipple x y rs = rs ++ [mkRipple x y 0 10]) ∧
  (∀ rs, VariantA.updateRipples rs
         = Some (filter (λ r, age r ≤ maxAge r) (aged <$> rs))) ∧
  (∀ r, age (aged r) = age r + 1 ∧ maxAge (aged r) = maxAge r ∧
        rx (aged r) = rx r ∧ ry (aged r) = ry r) ∧
  (∀ timestamp s, invariantA s →
     ∃ s', VariantA.generationTick timestamp s = Some s' ∧
           VariantA.ripples s'
           = filter (λ r, age r ≤ maxAge r) (aged <$> VariantA.ripples s)) ∧
  ∃ s0 s, VariantA.init now = Some s0 ∧ VariantA.ripples s0 = [] ∧
          forEach events (VariantA.handle random) s0 = Some s ∧
          Forall (λ r, 0 ≤ age r ≤ maxAge r ∧ maxAge r = 10) (VariantA.ripples s).
Proof.
  intros Hrnd. split; [done|]. split; [apply updateRipples_filter|]. split; [done|].
  split.
  { intros timestamp s Hinv.
    destruct (generationTick_spec timestamp s Hinv)
      as (g1 & g2 & rs & s' & _ & _ & Hrs & Htick & _ & _ & Hrip & _).
    exists s'. split; [exact Htick|].
    rewrite updateRipples_filter in Hrs. injection Hrs as <-. exact Hrip. }
  destruct (init_invariantA now) as (s0 & Hinit & Hinv0 & Hnone).
  destruct (run_invariantA random events s0 Hrnd Hinv0) as (s & Hrun & [_ Hrs]).
  exists s0, s. split; [exact Hinit|]. split; [exact Hnone|]. split; [exact Hrun|].
  eapply Forall_impl; [exact Hrs|]. intros r (_ & Hage & Hmax).
  exact (conj Hage Hmax).
Qed.

Lemma ripple_age_invariant_witness :
  validRandom (λ _, 0%Q) ∧
  ∃ s0 s, VariantA.init 0 = Some s0 ∧ VariantA.ripples s0 = [] ∧
          forEach [VariantA.CanvasClick 3 4; VariantA.Frame 5000]
                  (VariantA.handle (λ _, 0%Q)) s0 = Some s ∧
          Forall (λ r, 0 ≤ age r ≤ maxAge r ∧ maxAge r = 10) (VariantA.ripples s).
Proof.
  split; [exact validRandom_zero|].
  exact (proj2 (proj2 (proj2 (proj2
    (ripple_age_invariant (λ _, 0%Q) 0
       [VariantA.CanvasClick 3 4; VariantA.Frame 5000] validRandom_zero))))).
Defined.

(** ** The page state of variant B *)

Lemma randomizeGrid_good random N g draws :
  goodGrid N g →
  ∃ g' draws', VariantB.randomizeGrid random N g draws = Some (g', draws') ∧
               goodGrid N g'.
Proof.
  intros Hg. unfold VariantB.randomizeGrid.
  match goal with |- context [forEach ?l ?body ?s0] =>
    destruct (forEach_preserves (λ st : Grid * nat, goodGrid N st.1) l body s0)
      as ([g' d'] & Hrun & Hinv); [exact Hg| |rewrite Hrun; by exists g', d']
  end.
  intros y [g0 d0] Hy Hg0. apply below_elem in Hy.
  match goal with |- context [forEach ?l ?body ?s0] =>
    apply (forEach_preserves (λ st : Grid * nat, goodGrid N st.1) l body s0);
      [exact Hg0|]
  end.
  intros x [g1 d1] Hx Hg1. apply below_elem in Hx. simpl in Hg1.
  destruct (writeCell_good N g1 x y (if Qltb (random d1) 0.25 then 1 else 0) Hg1)
    as (g2 & -> & Hg2); [done|destruct (Qltb _ _); auto|].
  eexists. split; [done|]. done.
Qed.

Lemma drawGrid_squareB s :
  squareGrid (VariantB.gridSize s) (VariantB.grid s) →
  ∃ scr, VariantB.drawGrid s =
    Some {| VariantB.gridSize := VariantB.gridSize s;
            VariantB.grid := VariantB.grid s;
            VariantB.running := VariantB.running s;
            VariantB.speedMs := VariantB.speedMs s;
            VariantB.lastStepTime := VariantB.lastStepTime s;
            VariantB.screen := scr;
            VariantB.draws := VariantB.draws s |}.
Proof.
  intros Hsq. unfold VariantB.drawGrid.
  destruct (drawCells_square _ _ Hsq) as [scr ->]. by exists scr.
Qed.

(** The screen [drawGrid] leaves shows the grid of the state it is given. *)
Lemma drawGrid_showsB s s' :
  VariantB.drawGrid s = Some s' →
  VariantB.gridSize s' = VariantB.gridSize s ∧
  VariantB.grid s' = VariantB.grid s ∧
  VariantB.running s' = VariantB.running s ∧
  drawCells (VariantB.gridSize s) (VariantB.grid s) = Some (VariantB.screen s').
Proof.
  unfold VariantB.drawGrid. destruct (drawCells _ _) as [scr|]; [|done].
  simpl. intros [= <-]. done.
Qed.

Lemma advance_good s :
  squareGrid (VariantB.gridSize s) (VariantB.grid s) →
  ∃ g, VariantB.nextGeneration (VariantB.gridSize s) (VariantB.grid s) = Some g ∧
       VariantB.advance s = Some (VariantB.setGrid g s) ∧
       goodGrid (VariantB.gridSize s) g.
Proof.
  intros Hsq. destruct (nextGeneration_good _ _ Hsq) as (g & Hrun & Hg).
  exists g. unfold VariantB.advance.
  rewrite (nextGeneration_variants (VariantB.gridSize s) (VariantB.grid s)), Hrun.
  done.
Qed.

Lemma stepBtnClick_spec s :
  squareGrid (VariantB.gridSize s) (VariantB.grid s) →
  ∃ g s', VariantB.nextGeneration (VariantB.gridSize s) (VariantB.grid s) = Some g ∧
          VariantB.stepBtnClick s = Some s' ∧
          VariantB.running s' = false ∧
          VariantB.grid s' = g ∧
          VariantB.gridSize s' = VariantB.gridSize s ∧
          goodGrid (VariantB.gridSize s) g ∧
          drawCells (VariantB.gridSize s) g = Some (VariantB.screen s').
Proof.
  intros Hsq. unfold VariantB.stepBtnClick.
  destruct (advance_good (VariantB.setRunning false s) Hsq) as (g & Hnext & -> & Hg).
  simpl in *.
  destruct (drawGrid_squareB (VariantB.setGrid g (VariantB.setRunning false s)))
    as [scr Hdraw]; [exact (proj1 Hg)|].
  exists g. eexists. split; [done|]. split; [exact Hdraw|]. simpl.
  unfold VariantB.drawGrid in Hdraw. simpl in Hdraw.
  destruct (drawCells (VariantB.gridSize s) g) as [scr'|]; [|done].
  simpl in Hdraw. injection Hdraw as <-. done.
Qed.

Lemma clearBtnClick_spec s :
  0 ≤ VariantB.gridSize s →
  ∃ g s', VariantB.createEmptyGrid (VariantB.gridSize s) = Some g ∧
          VariantB.clearBtnClick s = Some s' ∧
          VariantB.running s' = false ∧
          VariantB.grid s' = g ∧
          VariantB.gridSize s' = VariantB.gridSize s ∧
          goodGrid (VariantB.gridSize s) g ∧
          (∀ x y, InGrid (VariantB.gridSize s) x y → dead g x y) ∧
          drawCells (VariantB.gridSize s) g = Some (VariantB.screen s').
Proof.
  intros HN. unfold VariantB.clearBtnClick. cbv zeta. simpl.
  destruct (createEmptyGrid_good _ HN) as (g & Hnew & Hg & Hdead).
  rewrite (createEmptyGrid_variants (VariantB.gridSize s)), Hnew. simpl.
  destruct (drawGrid_squareB (VariantB.setGrid g (VariantB.setRunning false s)))
    as [scr Hdraw]; [exact (proj1 Hg)|].
  exists g. eexists. split; [done|]. split; [exact Hdraw|]. simpl.
  unfold VariantB.drawGrid in Hdraw. simpl in Hdraw.
  destruct (drawCells (VariantB.gridSize s) g) as [scr'|]; [|done].
  simpl in Hdraw. injection Hdraw as <-. done.
Qed.

Lemma canvasClick_invariantB gridX gridY s :
  invariantB s →
  ∃ s', VariantB.canvasClick gridX gridY s = Some s' ∧ invariantB s'.
Proof.
  intros Hg. unfold VariantB.canvasClick.
  destruct (inGrid (VariantB.gridSize s) gridX gridY) eqn:Hin; [|by exists s].
  apply inGrid_true in Hin.
  destruct (readCell_square _ _ _ _ (proj1 Hg) Hin) as [c ->]. simpl.
  destruct (writeCell_good _ _ gridX gridY (if c =? 1 then 0 else 1) Hg Hin)
    as (g' & -> & Hg'); [destruct (c =? 1); auto|]. simpl.
  destruct (drawGrid_squareB (VariantB.setGrid g' s)) as [scr ->]; [exact (proj1 Hg')|].
  eexists. split; [done|]. exact Hg'.
Qed.

Lemma handle_invariantB random e s :
  validEventB e → invariantB s →
  ∃ s', VariantB.handle random e s = Some s' ∧ invariantB s'.
Proof.
  intros He Hinv. pose proof Hinv as [Hsq Hbin].
  destruct e as [timestamp| | | | | |value|value|gridX gridY]; simpl.
  - unfold VariantB.loop. destruct (VariantB.running s); [|by exists s].
    destruct (Qle_bool _ _); [|by exists s].
    destruct (advance_good s Hsq) as (g & _ & -> & Hg). simpl.
    destruct (drawGrid_squareB (VariantB.setGrid g s)) as [scr ->]; [exact (proj1 Hg)|].
    simpl. eexists. split; [done|]. exact Hg.
  - eexists. split; [done|]. exact Hinv.
  - eexists. split; [done|]. exact Hinv.
  - destruct (stepBtnClick_spec s Hsq) as (g & s' & _ & -> & _ & Hgrid & Hsize & Hg & _).
    exists s'. split; [done|]. unfold invariantB. by rewrite Hgrid, Hsize.
  - destruct (clearBtnClick_spec s (proj1 Hsq))
      as (g & s' & _ & -> & _ & Hgrid & Hsize & Hg & _).
    exists s'. split; [done|]. unfold invariantB. by rewrite Hgrid, Hsize.
  - unfold VariantB.randomBtnClick.
    destruct (randomizeGrid_good random _ _ (VariantB.draws s) Hinv)
      as (g & d & -> & Hg). simpl.
    edestruct drawGrid_squareB as [scr ->]; [exact (proj1 Hg)|].
    eexists. split; [done|]. exact Hg.
  - unfold VariantB.gridSizeChange. simpl in He.
    destruct (createEmptyGrid_good value He) as (g & Hnew & Hg & _).
    rewrite (createEmptyGrid_variants value), Hnew. simpl.
    edestruct drawGrid_squareB as [scr ->]; [exact (proj1 Hg)|].
    eexists. split; [done|]. exact Hg.
  - eexists. split; [done|]. exact Hinv.
  - by apply canvasClick_invariantB.
Qed.

Lemma init_invariantB : ∃ s0, VariantB.init = Some s0 ∧ invariantB s0.
Proof.
  unfold VariantB.init.
  destruct (createEmptyGrid_good VariantB.initialGridSize) as (g & Hnew & Hg & _);
    [done|].
  rewrite (createEmptyGrid_variants VariantB.initialGridSize), Hnew. simpl.
  edestruct drawGrid_squareB as [scr ->]; [exact (proj1 Hg)|].
  eexists. split; [done|]. exact Hg.
Qed.

Lemma run_invariantB random events s :
  Forall validEventB events → invariantB s →
  ∃ s', forEach events (VariantB.handle random) s = Some s' ∧ invariantB s'.
Proof.
  intros Hev Hinv. apply forEach_preserves; [done|].
  intros e s1 He Hinv1. apply handle_invariantB; [|done].
  rewrite Forall_forall in Hev. by apply Hev.
Qed.

(** C9.  Every cell always holds 0 or 1.  A fresh grid holds 0 everywhere;
    the generation step, stamping, ripple application, randomisation and
    the click toggle turn a grid of 0 / 1 cells into a grid of 0 / 1 cells;
    and after any sequence of events from the start of the page, in either
    variant, every cell of the grid holds 0 or 1. *)
Theorem cells_stay_binary (random : nat → Q) :
  validRandom random →
  (∀ N, 0 ≤ N →
     ∃ g, VariantA.createEmptyGrid N = Some g ∧
          VariantB.createEmptyGrid N = Some g ∧
          goodGrid N g ∧ ∀ x y, InGrid N x y → dead g x y) ∧
  (∀ N g, squareGrid N g →
     ∃ g', VariantA.nextGeneration N g = Some g' ∧
           VariantB.nextGeneration N g = Some g' ∧ goodGrid N g') ∧
  (∀ N g pattern offsetX offsetY, goodGrid N g → rectangular pattern →
     ∃ g', VariantA.stampPattern N g pattern offsetX offsetY = Some g' ∧
           goodGrid N g') ∧
  (∀ N g rs, goodGrid N g →
     ∃ g', VariantA.applyRipplesToGrid N rs g = Some g' ∧ goodGrid N g') ∧
  (∀ N g draws, goodGrid N g →
     ∃ g' draws', VariantB.randomizeGrid random N g draws = Some (g', draws') ∧
                  goodGrid N g') ∧
  (∀ s gridX gridY, invariantB s →
     ∃ s', VariantB.canvasClick gridX gridY s = Some s' ∧ invariantB s') ∧
  (∀ now events,
     ∃ s0 s, VariantA.init now = Some s0 ∧
             forEach events (VariantA.handle random) s0 = Some s ∧
             binaryGrid (VariantA.grid s)) ∧
  (∀ events, Forall validEventB events →
     ∃ s0 s, VariantB.init = Some s0 ∧
             forEach events (VariantB.handle random) s0 = Some s ∧
             binaryGrid (VariantB.grid s)).
Proof.
  intros Hrnd. repeat apply conj.
  - intros N HN. destruct (createEmptyGrid_good N HN) as (g & Hnew & Hg & Hdead).
    exists g. split; [exact Hnew|]. split; [|by split].
    by rewrite (createEmptyGrid_variants N).
  - intros N g Hsq. destruct (nextGeneration_good N g Hsq) as (g' & Hrun & Hg').
    exists g'. split; [exact Hrun|]. split; [|exact Hg'].
    by rewrite (nextGeneration_variants N g).
  - intros N g pattern offsetX offsetY Hg (row0 & Hrow0 & _).
    by apply (stampPattern_good N g pattern offsetX offsetY row0).
  - intros N g rs Hg. by apply applyRipplesToGrid_good.
  - intros N g draws Hg. by apply randomizeGrid_good.
  - intros s gridX gridY Hinv. by apply canvasClick_invariantB.
  - intros now events.
    destruct (init_invariantA now) as (s0 & Hinit & Hinv0 & _).
    destruct (run_invariantA random events s0 Hrnd Hinv0) as (s & Hrun & [[_ Hbin] _]).
    exists s0, s. split; [exact Hinit|]. split; [exact Hrun|exact Hbin].
  - intros events Hev.
    destruct init_invariantB as (s0 & Hinit & Hinv0).
    destruct (run_invariantB random events s0 Hev Hinv0) as (s & Hrun & [_ Hbin]).
    exists s0, s. split; [exact Hinit|]. split; [exact Hrun|exact Hbin].
Qed.

Lemma cells_stay_binary_witness :
  validRandom (λ _, 0%Q) ∧
  ∃ s0 s, VariantB.init = Some s0 ∧
          forEach [VariantB.RandomBtn; VariantB.CanvasClick 3 4; VariantB.StepBtn]
                  (VariantB.handle (λ _, 0%Q)) s0 = Some s ∧
          binaryGrid (VariantB.grid s).
Proof.
  assert (Hrnd : validRandom (λ _, 0%Q)).
  { intros k. split; [vm_compute; discriminate|reflexivity]. }
  split; [exact Hrnd|].
  apply (cells_stay_binary (λ _, 0%Q) Hrnd).
  repeat constructor.
Defined.

(** C10.  In variant B the single-step control leaves the page paused:
    it sets [running] to false, replaces the grid by its next generation
    and redraws.  The clear control sets [running] to false as well,
    replaces the grid by an all-dead grid and redraws. *)
Theorem step_and_clear_pause (s : VariantB.state) :
  squareGrid (VariantB.gridSize s) (VariantB.grid s) →
  (∃ g s', VariantB.nextGeneration (VariantB.gridSize s) (VariantB.grid s) = Some g ∧
           VariantB.stepBtnClick s = Some s' ∧
           VariantB.running s' = false ∧
           VariantB.grid s' = g ∧
           VariantB.gridSize s' = VariantB.gridSize s ∧
           drawCells (VariantB.gridSize s) g = Some (VariantB.screen s')) ∧
  (∃ g s', VariantB.createEmptyGrid (VariantB.gridSize s) = Some g ∧
           VariantB.clearBtnClick s = Some s' ∧
           VariantB.running s' = false ∧
           VariantB.grid s' = g ∧
           VariantB.gridSize s' = VariantB.gridSize s ∧
           (∀ x y, InGrid (VariantB.gridSize s) x y → dead g x y) ∧
           drawCells (VariantB.gridSize s) g = Some (VariantB.screen s')).
Proof.
  intros Hsq. split.
  - destruct (stepBtnClick_spec s Hsq) as (g & s' & H1 & H2 & H3 & H4 & H5 & _ & H7).
    by exists g, s'.
  - destruct (clearBtnClick_spec s (proj1 Hsq))
      as (g & s' & H1 & H2 & H3 & H4 & H5 & _ & H7 & H8).
    by exists g, s'.
Qed.

Lemma step_and_clear_pause_witness :
  VariantB.running blinkerPageB = true ∧
  (∃ s', VariantB.stepBtnClick blinkerPageB = Some s' ∧ VariantB.running s' = false) ∧
  (∃ s', VariantB.clearBtnClick blinkerPageB = Some s' ∧ VariantB.running s' = false).
Proof.
  split; [reflexivity|].
  assert (Hsq : squareGrid (VariantB.gridSize blinkerPageB) (VariantB.grid blinkerPageB)).
  { simpl. concrete_square. }
  destruct (step_and_clear_pause blinkerPageB Hsq)
    as [(g & s' & _ & Hstep & Hpaused & _) (g0 & s0 & _ & Hclear & Hpaused0 & _)].
  split; [exists s'|exists s0]; by split.
Defined.

(** ** Ripples and the next generation *)






(** ** The blinker *)

Lemma contribution_showsAt N cx cy f g p :
  showsAt N cx cy f g →
  (∀ u v, f u v ≠ 0 → InGrid N (cx + u) (cy + v)) →
  contribution N g p = f (p.1 - cx) (p.2 - cy).
Proof.
  intros [Hsq Hcells] Hsupport. unfold contribution.
  destruct (inGrid N p.1 p.2) eqn:Hin.
  - apply inGrid_true in Hin. by rewrite (Hcells _ _ Hin).
  - apply inGrid_false in Hin.
    destruct (decide (f (p.1 - cx) (p.2 - cy) = 0)) as [H0|Hne]; [done|].
    exfalso. apply Hin. specialize (Hsupport _ _ Hne).
    by replace (cx + (p.1 - cx)) with p.1 in Hsupport by lia;
       replace (cy + (p.2 - cy)) with p.2 in Hsupport by lia.
Qed.

Lemma countNeighbors_showsAt N cx cy f g x y :
  showsAt N cx cy f g →
  (∀ u v, f u v ≠ 0 → InGrid N (cx + u) (cy + v)) →
  VariantA.countNeighbors N g x y = Some (relCount f (x - cx) (y - cy)).
Proof.
  intros Hshows Hsupport. rewrite countNeighbors_sum by apply Hshows. f_equal.
  unfold relCount, surrounding. cbn [foldl].
  rewrite !(contribution_showsAt N cx cy f g _ Hshows Hsupport). cbn [fst snd].
  repeat (f_equal; try lia).
Qed.

Lemma nextGeneration_showsAt N cx cy f g :
  showsAt N cx cy f g →
  (∀ u v, f u v ≠ 0 → InGrid N (cx + u) (cy + v)) →
  ∃ g', VariantA.nextGeneration N g = Some g' ∧
        showsAt N cx cy (λ u v, nextCell (f u v) (relCount f u v)) g'.
Proof.
  intros Hshows Hsupport.
  destruct (nextGeneration_cells N g (proj1 Hshows)) as (g' & Hrun & Hsq' & Hcells).
  exists g'. split; [done|]. split; [done|]. intros x y Hin.
  destruct (Hcells x y Hin) as (c & n & Hc & Hn & Hv).
  rewrite (countNeighbors_showsAt N cx cy f g x y Hshows Hsupport) in Hn.
  rewrite (proj2 Hshows x y Hin) in Hc.
  injection Hn as <-. injection Hc as <-. exact Hv.
Qed.

Lemma showsAt_ext N cx cy f f' g :
  (∀ u v, f u v = f' u v) → showsAt N cx cy f g → showsAt N cx cy f' g.
Proof.
  intros Hff' [Hsq Hcells]. split; [done|]. intros x y Hin.
  rewrite <- Hff'. by apply Hcells.
Qed.

Lemma horizontalBlinker_zero u v :
  u < -1 ∨ 1 < u ∨ v ≠ 0 → horizontalBlinker u v = 0.
Proof.
  intros H. unfold horizontalBlinker.
  destruct (Z.eqb_spec v 0), (Z.leb_spec (-1) u), (Z.leb_spec u 1); simpl; lia.
Qed.

Lemma verticalBlinker_zero u v :
  v < -1 ∨ 1 < v ∨ u ≠ 0 → verticalBlinker u v = 0.
Proof.
  intros H. unfold verticalBlinker.
  destruct (Z.eqb_spec u 0), (Z.leb_spec (-1) v), (Z.leb_spec v 1); simpl; lia.
Qed.

Lemma near_cases u : -2 ≤ u ≤ 2 → u = -2 ∨ u = -1 ∨ u = 0 ∨ u = 1 ∨ u = 2.
Proof. lia. Qed.

(** A row of three becomes a column of three ... *)
Lemma horizontal_step u v :
  nextCell (horizontalBlinker u v) (relCount horizontalBlinker u v)
  = verticalBlinker u v.
Proof.
  destruct (decide (-2 ≤ u ≤ 2 ∧ -2 ≤ v ≤ 2)) as [[Hu Hv]|Hfar].
  - destruct (near_cases u Hu) as [->|[->|[->|[->| ->]]]];
      destruct (near_cases v Hv) as [->|[->|[->|[->| ->]]]]; reflexivity.
  - unfold relCount, surrounding. cbn [foldl fst snd].
    rewrite !horizontalBlinker_zero by lia.
    rewrite verticalBlinker_zero by lia. reflexivity.
Qed.

(** ... and a column of three becomes a row of three. *)
Lemma vertical_step u v :
  nextCell (verticalBlinker u v) (relCount verticalBlinker u v)
  = horizontalBlinker u v.
Proof.
  destruct (decide (-2 ≤ u ≤ 2 ∧ -2 ≤ v ≤ 2)) as [[Hu Hv]|Hfar].
  - destruct (near_cases u Hu) as [->|[->|[->|[->| ->]]]];
      destruct (near_cases v Hv) as [->|[->|[->|[->| ->]]]]; reflexivity.
  - unfold relCount, surrounding. cbn [foldl fst snd].
    rewrite !verticalBlinker_zero by lia.
    rewrite horizontalBlinker_zero by lia. reflexivity.
Qed.

Lemma horizontalBlinker_support N cx cy u v :
  1 ≤ cx ≤ N - 2 → 0 ≤ cy < N →
  horizontalBlinker u v ≠ 0 → InGrid N (cx + u) (cy + v).
Proof.
  intros Hcx Hcy Hne. unfold InGrid.
  destruct (decide (u < -1 ∨ 1 < u ∨ v ≠ 0)) as [Hz|Hin]; [|lia].
  by apply horizontalBlinker_zero in Hz.
Qed.

Lemma verticalBlinker_support N cx cy u v :
  0 ≤ cx < N → 1 ≤ cy ≤ N - 2 →
  verticalBlinker u v ≠ 0 → InGrid N (cx + u) (cy + v).
Proof.
  intros Hcx Hcy Hne. unfold InGrid.
  destruct (decide (v < -1 ∨ 1 < v ∨ u ≠ 0)) as [Hz|Hin]; [|lia].
  by apply verticalBlinker_zero in Hz.
Qed.

(** C8.  On a grid that is empty but for a horizontal row of three alive
    cells centred on [(cx, cy)], the row and the cells above and below its
    centre lying inside the grid, one generation gives the vertical row of
    three through the same centre and a second generation gives back the
    first grid. *)
Theorem blinker_period_two (N cx cy : Z) (G : Grid) :
  squareGrid N G →
  1 ≤ cx ≤ N - 2 → 1 ≤ cy ≤ N - 2 →
  (∀ x y, InGrid N x y →
     if decide (y = cy ∧ cx - 1 ≤ x ≤ cx + 1) then alive G x y else dead G x y) →
  ∃ G1, VariantA.nextGeneration N G = Some G1 ∧
        squareGrid N G1 ∧
        (∀ x y, InGrid N x y →
           if decide (x = cx ∧ cy - 1 ≤ y ≤ cy + 1)
           then alive G1 x y else dead G1 x y) ∧
        VariantA.nextGeneration N G1 = Some G.
Proof.
  intros Hsq Hcx Hcy Hrow.
  assert (Hshows : showsAt N cx cy horizontalBlinker G).
  { split; [done|]. intros x y Hin. specialize (Hrow x y Hin).
    unfold horizontalBlinker. case_decide as Hd.
    - replace ((y - cy =? 0) && (-1 <=? x - cx) && (x - cx <=? 1)) with true; [done|].
      symmetry. rewrite !andb_true_iff, Z.eqb_eq, !Z.leb_le. lia.
    - replace ((y - cy =? 0) && (-1 <=? x - cx) && (x - cx <=? 1)) with false; [done|].
      symmetry. apply not_true_is_false.
      rewrite !andb_true_iff, Z.eqb_eq, !Z.leb_le. lia. }
  destruct (nextGeneration_showsAt N cx cy horizontalBlinker G Hshows)
    as (G1 & Hrun1 & Hshows1).
  { intros u v. apply horizontalBlinker_support; lia. }
  apply (showsAt_ext _ _ _ _ verticalBlinker _ horizontal_step) in Hshows1.
  destruct (nextGeneration_showsAt N cx cy verticalBlinker G1 Hshows1)
    as (G2 & Hrun2 & Hshows2).
  { intros u v. apply verticalBlinker_support; lia. }
  apply (showsAt_ext _ _ _ _ horizontalBlinker _ vertical_step) in Hshows2.
  exists G1. split; [exact Hrun1|]. split; [apply Hshows1|]. split.
  - intros x y Hin. unfold alive, dead. rewrite (proj2 Hshows1 x y Hin).
    unfold verticalBlinker. case_decide as Hd.
    + replace ((x - cx =? 0) && (-1 <=? y - cy) && (y - cy <=? 1)) with true; [done|].
      symmetry. rewrite !andb_true_iff, Z.eqb_eq, !Z.leb_le. lia.
    + replace ((x - cx =? 0) && (-1 <=? y - cy) && (y - cy <=? 1)) with false; [done|].
      symmetry. apply not_true_is_false.
      rewrite !andb_true_iff, Z.eqb_eq, !Z.leb_le. lia.
  - rewrite Hrun2. f_equal. apply (grid_ext N); [apply Hshows2|done|].
    intros x y Hin. rewrite (proj2 Hshows2 x y Hin), (proj2 Hshows x y Hin). done.
Qed.

(** ** The properties on the 5 x 5 blinker grid *)

Lemma small_cases u : 0 ≤ u < 5 → u = 0 ∨ u = 1 ∨ u = 2 ∨ u = 3 ∨ u = 4.
Proof. lia. Qed.

Lemma nextGeneration_life_rule_witness :
  squareGrid 5 blinkerGrid ∧ binaryGrid blinkerGrid ∧
  ∃ G', VariantA.nextGeneration 5 blinkerGrid = Some G' ∧
        alive G' 2 1 ∧ dead G' 1 2.
Proof.
  assert (Hsq : squareGrid 5 blinkerGrid) by concrete_square.
  assert (Hbin : binaryGrid blinkerGrid) by concrete_binary.
  split; [exact Hsq|]. split; [exact Hbin|].
  destruct (nextGeneration_life_rule 5 blinkerGrid Hsq Hbin)
    as (G' & Hrun & _ & _ & Hcells).
  exists G'. split; [exact Hrun|]. split.
  - apply (Hcells 2 1); [unfold InGrid; lia|].
    right. split; reflexivity.
  - apply (Hcells 1 2); [unfold InGrid; lia|].
    intros [[_ [H|H]]|[H _]]; vm_compute in H; discriminate H.
Defined.

Lemma countNeighbors_counts_live_witness :
  squareGrid 5 blinkerGrid ∧ binaryGrid blinkerGrid ∧
  VariantA.countNeighbors 5 blinkerGrid 2 1 = Some 3 ∧
  VariantA.countNeighbors 5 blinkerGrid 0 2 = Some 1.
Proof.
  assert (Hsq : squareGrid 5 blinkerGrid) by concrete_square.
  assert (Hbin : binaryGrid blinkerGrid) by concrete_binary.
  split; [exact Hsq|]. split; [exact Hbin|]. split.
  - exact (proj1 (countNeighbors_counts_live 5 blinkerGrid 2 1 Hsq Hbin)).
  - exact (proj1 (countNeighbors_counts_live 5 blinkerGrid 0 2 Hsq Hbin)).
Defined.

Lemma ripple_marks_ring_witness :
  squareGrid 5 blinkerGrid ∧ InGrid 5 1 3 ∧
  ∃ g', VariantA.applyRipplesToGrid 5 [mkRipple 1 3 1 10] blinkerGrid = Some g' ∧
        alive g' 1 4 ∧ dead g' 1 3.
Proof.
  assert (Hsq : squareGrid 5 blinkerGrid) by concrete_square.
  assert (Hin : InGrid 5 1 3) by (unfold InGrid; lia).
  split; [exact Hsq|]. split; [exact Hin|].
  destruct (ripple_marks_ring 5 blinkerGrid (mkRipple 1 3 1 10) Hsq Hin)
    as (g' & Hrun & _ & Hcells & _); [simpl; lia|].
  exists g'. split; [exact Hrun|]. split.
  - destruct (Hcells 1 4) as (Hmark & _ & _); [unfold InGrid; lia|].
    apply Hmark. apply (rippleMark_cell 5); [unfold InGrid; lia|]. reflexivity.
  - unfold dead. destruct (Hcells 1 3) as (_ & Hkeep & _); [unfold InGrid; lia|].
    rewrite Hkeep; [reflexivity|].
    intros Hcell. apply (rippleMark_cell 5) in Hcell; [|unfold InGrid; lia].
    vm_compute in Hcell. discriminate Hcell.
Defined.

Lemma stampPattern_additive_witness :
  squareGrid 5 blinkerGrid ∧ rectangular ["010"; "111"]%string ∧
  ∃ g', VariantA.stampPattern 5 blinkerGrid ["010"; "111"]%string 3 3 = Some g' ∧
        alive g' 4 3 ∧ alive g' 1 2.
Proof.
  assert (Hsq : squareGrid 5 blinkerGrid) by concrete_square.
  assert (Hrect : rectangular ["010"; "111"]%string).
  { exists "010"%string. split; [reflexivity|]. concrete_forall; reflexivity. }
  split; [exact Hsq|]. split; [exact Hrect|].
  destruct (stampPattern_additive 5 blinkerGrid ["010"; "111"]%string 3 3 Hsq Hrect)
    as (g' & Hrun & _ & Hcells).
  exists g'. split; [exact Hrun|]. split.
  - destruct (Hcells 4 3) as (Hmark & _ & _); [unfold InGrid; lia|].
    apply Hmark. exists 1%nat, 0%nat. split; [|lia].
    exists "010"%string. split; reflexivity.
  - destruct (Hcells 1 2) as (_ & _ & Hkeep); [unfold InGrid; lia|].
    apply Hkeep. reflexivity.
Defined.

Lemma applyRipples_any_order_witness :
  squareGrid 5 blinkerGrid ∧
  [mkRipple 1 3 1 10; mkRipple 4 0 2 10] ≡ₚ [mkRipple 4 0 2 10; mkRipple 1 3 1 10] ∧
  ∃ g', VariantA.applyRipplesToGrid 5 [mkRipple 1 3 1 10; mkRipple 4 0 2 10]
          blinkerGrid = Some g' ∧
        VariantA.applyRipplesToGrid 5 [mkRipple 4 0 2 10; mkRipple 1 3 1 10]
          blinkerGrid = Some g'.
Proof.
  assert (Hsq : squareGrid 5 blinkerGrid) by concrete_square.
  assert (Hperm : [mkRipple 1 3 1 10; mkRipple 4 0 2 10]
                  ≡ₚ [mkRipple 4 0 2 10; mkRipple 1 3 1 10]) by apply perm_swap.
  split; [exact Hsq|]. split; [exact Hperm|].
  destruct (applyRipples_any_order 5 blinkerGrid _ _ Hsq Hperm)
    as (g' & Hrun & Hrun' & _).
  exists g'. split; [exact Hrun|exact Hrun'].
Defined.

Lemma blinker_period_two_witness :
  squareGrid 5 blinkerGrid ∧
  ∃ G1, VariantA.nextGeneration 5 blinkerGrid = Some G1 ∧
        alive G1 2 1 ∧ alive G1 2 2 ∧ alive G1 2 3 ∧
        VariantA.nextGeneration 5 G1 = Some blinkerGrid.
Proof.
  assert (Hsq : squareGrid 5 blinkerGrid) by concrete_square.
  split; [exact Hsq|].
  destruct (blinker_period_two 5 2 2 blinkerGrid Hsq) as (G1 & Hrun & _ & Hcol & Hback);
    [lia|lia| |].
  { intros x y [Hx Hy].
    destruct (small_cases x Hx) as [->|[->|[->|[->| ->]]]];
      destruct (small_cases y Hy) as [->|[->|[->|[->| ->]]]]; reflexivity. }
  exists G1. split; [exact Hrun|].
  split; [apply (Hcol 2 1); unfold InGrid; lia|].
  split; [apply (Hcol 2 2); unfold InGrid; lia|].
  split; [apply (Hcol 2 3); unfold InGrid; lia|exact Hback].
Defined.

(** The examples of the specification, run on the model. *)

Example lone_cell_dies :
  VariantA.nextGeneration 3 [[0; 0; 0]; [0; 1; 0]; [0; 0; 0]]
  = Some [[0; 0; 0]; [0; 0; 0]; [0; 0; 0]].
Proof. reflexivity. Qed.

Example blinker_turns :
  VariantA.nextGeneration 5 blinkerGrid
  = Some [[0; 0; 0; 0; 0];
          [0; 0; 1; 0; 0];
          [0; 0; 1; 0; 0];
          [0; 0; 1; 0; 0];
          [0; 0; 0; 0; 0]].
Proof. reflexivity. Qed.

Example ring_of_radius_three :
  VariantA.createEmptyGrid 9 ≫= VariantA.applyRipplesToGrid 9 [mkRipple 4 4 3 10]
  = Some [[0; 0; 0; 0; 0; 0; 0; 0; 0];
          [0; 0; 0; 1; 1; 1; 0; 0; 0];
          [0; 0; 1; 0; 0; 0; 1; 0; 0];
          [0; 1; 0; 0; 0; 0; 0; 1; 0];
          [0; 1; 0; 0; 0; 0; 0; 1; 0];
          [0; 1; 0; 0; 0; 0; 0; 1; 0];
          [0; 0; 1; 0; 0; 0; 1; 0; 0];
          [0; 0; 0; 1; 1; 1; 0; 0; 0];
          [0; 0; 0; 0; 0; 0; 0; 0; 0]].
Proof. reflexivity. Qed.

Example ripples_age_and_expire :
  VariantA.updateRipples
    [mkRipple 1 1 10 10; mkRipple 2 2 3 10; mkRipple 3 3 9 10]
  = Some [mkRipple 2 2 4 10; mkRipple 3 3 10 10].
Proof. reflexivity. Qed.

(** * Further properties *)

(** ** The life of a ripple *)

Lemma filter_fmap_filter {A : Type} (P Q : A → Prop)
    `{∀ a, Decision (P a)} `{∀ a, Decision (Q a)} (f : A → A) (l : list A) :
  (∀ a, P (f a) → Q a) →
  filter P (f <$> filter Q l) = filter P (f <$> l).
Proof.
  intros HPQ. induction l as [|a l IH]; [done|].
  rewrite filter_cons. destruct (decide (Q a)) as [Hq|Hq].
  - rewrite !fmap_cons, !filter_cons, IH. done.
  - rewrite fmap_cons, filter_cons, IH.
    destruct (decide (P (f a))) as [Hp|Hp]; [|done].
    exfalso. apply Hq, HPQ, Hp.
Qed.

Lemma updatesRipples_S (n : nat) (rs : list Ripple) :
  updatesRipples (S n) rs = updatesRipples n rs ≫= VariantA.updateRipples.
Proof. reflexivity. Qed.

Lemma updatesRipples_filter (n : nat) (rs : list Ripple) :
  updatesRipples (S n) rs
  = Some (filter (λ r, age r ≤ maxAge r) (agedBy (S n) <$> rs)).
Proof.
  induction n as [|n IH].
  - rewrite updatesRipples_S. change (updatesRipples 0 rs) with (Some rs).
    cbn [mbind option_bind]. rewrite updateRipples_filter. do 2 f_equal.
  - rewrite updatesRipples_S, IH.
    cbn [mbind option_bind]. rewrite updateRipples_filter. f_equal.
    rewrite (filter_fmap_filter (λ r, age r ≤ maxAge r) (λ r, age r ≤ maxAge r) aged).
    + f_equal. rewrite <- list_fmap_compose. apply list_fmap_ext.
      intros _ r _. unfold aged, agedBy. cbn. f_equal. lia.
    + intros r. unfold aged. cbn. lia.
Qed.

(** X1.  [n >= 1] generation ticks make every ripple [n] generations older
    and keep exactly those whose age is then at most their maxAge.  A
    ripple spawned by a click is therefore applied at the ages 0 to 10 and
    is gone after the eleventh tick. *)
Theorem ripple_lifetime :
  (∀ (n : nat) rs,
     updatesRipples (S n) rs
     = Some (filter (λ r, age r ≤ maxAge r) (agedBy (S n) <$> rs))) ∧
  (∀ x y (n : nat),
     updatesRipples n (VariantA.spawnRipple x y [])
     = Some (if decide (n ≤ 10)%nat then [mkRipple x y (Z.of_nat n) 10] else [])).
Proof.
  split; [apply updatesRipples_filter|].
  intros x y [|n]; [reflexivity|].
  rewrite updatesRipples_filter. f_equal.
  unfold VariantA.spawnRipple. cbn [app fmap list_fmap].
  rewrite (filter_singleton _ _ []). unfold agedBy. cbn [rx ry age maxAge].
  destruct (decide (S n ≤ 10)%nat) as [Hn|Hn].
  - rewrite decide_True by lia. done.
  - rewrite decide_False by lia. done.
Qed.

(** ** Rings of different ages *)

Lemma square_le_reg a b : 0 ≤ b → a * a ≤ b * b → a ≤ b.
Proof. nia. Qed.

Lemma square_lt_reg a b : 0 ≤ b → a * a < b * b → a < b.
Proof. nia. Qed.

Lemma onRing_ringAge k dx dy :
  0 ≤ k → onRing k dx dy = true ↔ k = ringAge dx dy.
Proof.
  intros Hk. unfold onRing, ringAge, sqrtGeHalf, sqrtLeHalf. cbv zeta.
  set (d2 := dx * dx + dy * dy).
  assert (0 ≤ d2) as Hd.
  { pose proof (Z.square_nonneg dx). pose proof (Z.square_nonneg dy).
    unfold d2. lia. }
  pose proof (Z.sqrt_spec d2 Hd) as Hs. cbv zeta in Hs.
  pose proof (Z.sqrt_nonneg d2) as Hs0.
  set (s := Z.sqrt d2) in *.
  replace (Z.succ s * Z.succ s) with (s * s + 2 * s + 1) in Hs by lia.
  rewrite andb_true_iff, orb_true_iff, andb_true_iff, !Z.leb_le.
  destruct (Z.leb_spec d2 (s * s + s)) as [Hlow|Hhigh].
  - split.
    + intros [Hge [_ Hle]].
      assert (s ≤ k).
      { assert (2 * s < 2 * k + 2); [|lia].
        apply square_lt_reg; [lia|]. nia. }
      assert (k ≤ s); [|lia].
      destruct Hge as [?|Hge]; [lia|].
      assert (2 * k - 1 < 2 * s + 1); [|lia].
      apply square_lt_reg; [lia|]. nia.
    + intros ->. split; [|split; [lia|nia]].
      destruct (decide (s = 0)) as [->|?]; [left; lia|right; nia].
  - split.
    + intros [Hge [_ Hle]].
      assert (s + 1 ≤ k).
      { assert (2 * s + 1 < 2 * k + 1); [|lia].
        apply square_lt_reg; [lia|]. nia. }
      assert (k ≤ s + 1); [|lia].
      destruct Hge as [?|Hge]; [lia|].
      assert (2 * k - 1 < 2 * s + 2); [|lia].
      apply square_lt_reg; [lia|]. nia.
    + intros ->. split; [right; nia|split; [lia|nia]].
Qed.

Lemma ringAge_zero dx dy : ringAge dx dy = 0 ↔ dx = 0 ∧ dy = 0.
Proof.
  split.
  - intros Hz. symmetry in Hz. apply (onRing_ringAge 0) in Hz; [|lia].
    unfold onRing, sqrtGeHalf, sqrtLeHalf in Hz. cbv zeta in Hz.
    rewrite andb_true_iff, orb_true_iff, andb_true_iff, !Z.leb_le in Hz.
    pose proof (Z.square_nonneg dx). pose proof (Z.square_nonneg dy). nia.
  - intros [-> ->]. reflexivity.
Qed.

(** X2.  The rings of a ripple neither overlap nor leave a gap: a ripple
    of age [k] sets a cell alive exactly when [k] is the distance of the
    cell from the centre rounded to the nearest integer.  So over its life
    a ripple reaches every cell of the grid within distance 10.5 of its
    centre, each at one age only. *)
Theorem rings_partition (N : Z) (r : Ripple) (x y : Z) :
  0 ≤ age r →
  (rippleMark r x y ↔ age r = ringAge (x - rx r) (y - ry r)) ∧
  (InGrid N x y →
     rippleCell N r x y ↔ age r = ringAge (x - rx r) (y - ry r)) ∧
  (0 ≤ ringAge (x - rx r) (y - ry r)) ∧
  (ringAge (x - rx r) (y - ry r) ≤ 10 ↔
   4 * ((x - rx r) * (x - rx r) + (y - ry r) * (y - ry r)) ≤ 21 * 21).
Proof.
  intros Hage.
  assert (Hmark : rippleMark r x y ↔ age r = ringAge (x - rx r) (y - ry r)).
  { unfold rippleMark. destruct (decide (age r = 0)) as [H0|H0].
    - rewrite H0. split.
      + intros [-> ->]. symmetry. apply ringAge_zero. lia.
      + intros Hz. symmetry in Hz. apply ringAge_zero in Hz. lia.
    - by apply onRing_ringAge. }
  split; [exact Hmark|]. split.
  { intros Hin. by rewrite <- (rippleMark_cell N r x y Hin). }
  set (dx := x - rx r). set (dy := y - ry r).
  assert (Hnonneg : 0 ≤ ringAge dx dy).
  { unfold ringAge. cbv zeta. pose proof (Z.sqrt_nonneg (dx * dx + dy * dy)).
    destruct (_ <=? _); lia. }
  split; [exact Hnonneg|].
  pose proof (proj2 (onRing_ringAge (ringAge dx dy) dx dy Hnonneg) eq_refl) as Hon.
  unfold onRing, sqrtGeHalf, sqrtLeHalf in Hon. cbv zeta in Hon.
  rewrite andb_true_iff, orb_true_iff, andb_true_iff, !Z.leb_le in Hon.
  destruct Hon as [Hge [_ Hle]]. split.
  - intros H10. nia.
  - intros Hdisc.
    destruct Hge as [?|Hge]; [lia|].
    assert (2 * ringAge dx dy - 1 < 22); [|lia].
    apply square_lt_reg; [lia|]. nia.
Qed.

Lemma rings_partition_witness :
  rippleMark (mkRipple 4 4 3 10) 6 6 ∧ ringAge 2 2 = 3 ∧
  ¬ rippleMark (mkRipple 4 4 2 10) 6 6.
Proof.
  split; [|split].
  - apply (proj1 (rings_partition 9 (mkRipple 4 4 3 10) 6 6 ltac:(simpl; lia))).
    reflexivity.
  - reflexivity.
  - intros H.
    apply (proj1 (rings_partition 9 (mkRipple 4 4 2 10) 6 6 ltac:(simpl; lia))) in H.
    vm_compute in H. discriminate H.
Defined.

(** ** More on stamping *)

(** The loop rule with the rounds already made being a prefix of the list. *)
Lemma forEach_steps {A S : Type} (I : list A → S → Prop) (l : list A)
    (body : A → S → option S) (s0 : S) :
  I [] s0 →
  (∀ done a rest s, l = done ++ a :: rest → I done s →
     ∃ s', body a s = Some s' ∧ I (done ++ [a]) s') →
  ∃ s', forEach l body s0 = Some s' ∧ I l s'.
Proof.
  intros H0 Hstep.
  assert (G : ∀ rest done s, done ++ rest = l → I done s →
            ∃ s', forEach rest body s = Some s' ∧ I l s').
  { induction rest as [|a rest IH]; intros done s Heq HI; simpl.
    - rewrite app_nil_r in Heq. subst. eauto.
    - destruct (Hstep done a rest s) as (s' & Hb & HI'); [done|done|].
      rewrite Hb. simpl. apply (IH (done ++ [a])); [|done].
      rewrite <- app_assoc. done. }
  apply (G l [] s0); done.
Qed.

Lemma markedFrom_unique N g (P Q : Z → Z → Prop) g1 g2 :
  (∀ x y, InGrid N x y → P x y ↔ Q x y) →
  markedFrom N g P g1 → markedFrom N g Q g2 → g1 = g2.
Proof.
  intros HPQ [Hsq1 H1] [Hsq2 H2]. apply (grid_ext N); [done|done|].
  intros x y Hin. specialize (HPQ x y Hin).
  destruct (H1 x y Hin) as [[? Hv1]|[? Hv1]], (H2 x y Hin) as [[? Hv2]|[? Hv2]];
    solve [congruence | tauto].
Qed.

Lemma markedFrom_changesWithin N g (P B : Z → Z → Prop) g' :
  (∀ x y, InGrid N x y → P x y → B x y) →
  markedFrom N g P g' → changesWithin N B g g'.
Proof.
  intros HPB [Hsq Hcells]. split; [done|]. intros x y Hin. unfold alive.
  destruct (Hcells x y Hin) as [[HP Hv]|[HP Hv]].
  - split; [done|]. intros HnB. exfalso. apply HnB, HPB; done.
  - split; [congruence|done].
Qed.




Lemma stampPattern_box N g pattern offsetX offsetY row0 :
  squareGrid N g → pattern !! 0%nat = Some row0 →
  ∃ g', VariantA.stampPattern N g pattern offsetX offsetY = Some g' ∧
        changesWithin N
          (within offsetX offsetY (Z.of_nat (String.length row0))
                  (Z.of_nat (length pattern))) g g'.
Proof.
  intros Hsq Hrow0.
  destruct (stampPattern_marked N g pattern offsetX offsetY row0 Hsq Hrow0)
    as (g' & Hrun & Hm).
  exists g'. split; [done|]. eapply markedFrom_changesWithin; [|exact Hm].
  intros x y _ (j & Hj & i & Hi & _ & -> & ->). unfold within. lia.
Qed.

(** X3.  [stampPattern] takes the width of the pattern from its first
    row: a ['1'] is stamped when its column is below the length of the first
    row, and a ['1'] further right in a longer row is passed over.  Rows
    shorter than the first are read as dead past their end.  A pattern
    without rows raises. *)
Theorem stampPattern_first_row_width (N : Z) (g : Grid) (pattern : Pattern)
    (offsetX offsetY : Z) (row0 : string) :
  squareGrid N g → pattern !! 0%nat = Some row0 →
  VariantA.stampPattern N g [] offsetX offsetY = None ∧
  ∃ g', VariantA.stampPattern N g pattern offsetX offsetY = Some g' ∧
        squareGrid N g' ∧
        ∀ x y, InGrid N x y →
          let stamped := ∃ i j : nat, patternAlive pattern i j ∧
                           (i < String.length row0)%nat ∧
                           x = offsetX + Z.of_nat i ∧ y = offsetY + Z.of_nat j in
          (stamped → alive g' x y) ∧
          (¬ stamped → readCell g' x y = readCell g x y).
Proof.
  intros Hsq Hrow0. split; [reflexivity|].
  destruct (stampPattern_marked N g pattern offsetX offsetY row0 Hsq Hrow0)
    as (g' & Hrun & Hm).
  exists g'. split; [done|]. split; [apply Hm|].
  intros x y Hin stamped.
  assert (Hiff : stamped ↔
    ∃ j, 0 ≤ j < Z.of_nat (length pattern) ∧
    ∃ i, 0 ≤ i < Z.of_nat (String.length row0) ∧
         VariantA.patternMark pattern i j = true ∧ x = offsetX + i ∧ y = offsetY + j).
  { unfold stamped. split.
    - intros (i & j & Ha & Hi & -> & ->). pose proof Ha as (row & Hrow & Hget).
      exists (Z.of_nat j). split; [apply lookup_lt_Some in Hrow; lia|].
      exists (Z.of_nat i). split; [lia|].
      split; [by apply patternMark_alive|done].
    - intros (j & Hj & i & Hi & Hmark & -> & ->).
      exists (Z.to_nat i), (Z.to_nat j). rewrite !Z2Nat.id by lia.
      split; [|split; [lia|done]].
      apply patternMark_alive. by rewrite !Z2Nat.id by lia. }
  destruct Hm as [_ Hcells]. unfold alive.
  destruct (Hcells x y Hin) as [[HP Hv]|[HP Hv]].
  - split; [done|]. intros Hn. exfalso. apply Hn, Hiff, HP.
  - split; [|done]. intros Hs. exfalso. apply HP, Hiff, Hs.
Qed.

Lemma stampPattern_first_row_width_witness :
  squareGrid 5 blinkerGrid ∧
  ∃ g', VariantA.stampPattern 5 blinkerGrid ["1"; "11"]%string 0 0 = Some g' ∧
        alive g' 0 1 ∧ dead g' 1 1.
Proof.
  assert (Hsq : squareGrid 5 blinkerGrid) by concrete_square.
  split; [exact Hsq|].
  destruct (stampPattern_first_row_width 5 blinkerGrid ["1"; "11"]%string 0 0
              "1"%string Hsq eq_refl) as (_ & g' & Hrun & _ & Hcells).
  exists g'. split; [exact Hrun|]. split.
  - apply (Hcells 0 1); [unfold InGrid; lia|].
    exists 0%nat, 1%nat. split; [|simpl; lia].
    exists "11"%string. split; reflexivity.
  - unfold dead. destruct (Hcells 1 1) as [_ Hkeep]; [unfold InGrid; lia|].
    rewrite Hkeep; [reflexivity|].
    intros (i & j & _ & Hi & Hx & _). simpl in Hi. lia.
Defined.

(** X4.  Stamps commute and repeat without effect: two patterns stamped
    in either order give the same grid, and stamping a pattern a second
    time at the same place changes nothing. *)
Theorem stampPattern_commutes (N : Z) (g : Grid) (p1 p2 : Pattern)
    (x1 y1 x2 y2 : Z) :
  squareGrid N g → is_Some (p1 !! 0%nat) → is_Some (p2 !! 0%nat) →
  ∃ g1 g2 g12,
    VariantA.stampPattern N g p1 x1 y1 = Some g1 ∧
    VariantA.stampPattern N g p2 x2 y2 = Some g2 ∧
    VariantA.stampPattern N g1 p2 x2 y2 = Some g12 ∧
    VariantA.stampPattern N g2 p1 x1 y1 = Some g12 ∧
    VariantA.stampPattern N g1 p1 x1 y1 = Some g1.
Proof.
  intros Hsq [r1 Hr1] [r2 Hr2].
  destruct (stampPattern_marked N g p1 x1 y1 r1 Hsq Hr1) as (g1 & Hg1 & Hm1).
  destruct (stampPattern_marked N g p2 x2 y2 r2 Hsq Hr2) as (g2 & Hg2 & Hm2).
  destruct (stampPattern_marked N g1 p2 x2 y2 r2 (proj1 Hm1) Hr2) as (g12 & Hg12 & Hm12).
  destruct (stampPattern_marked N g2 p1 x1 y1 r1 (proj1 Hm2) Hr1) as (g21 & Hg21 & Hm21).
  destruct (stampPattern_marked N g1 p1 x1 y1 r1 (proj1 Hm1) Hr1) as (g11 & Hg11 & Hm11).
  exists g1, g2, g12. split; [done|]. split; [done|]. split; [done|].
  pose proof (markedFrom_trans _ _ _ _ _ _ Hm1 Hm12) as Ha.
  pose proof (markedFrom_trans _ _ _ _ _ _ Hm2 Hm21) as Hb.
  pose proof (markedFrom_trans _ _ _ _ _ _ Hm1 Hm11) as Hc.
  split.
  - rewrite Hg21. f_equal. eapply (markedFrom_unique N g); [|exact Hb|exact Ha].
    intros x y _. simpl. tauto.
  - rewrite Hg11. f_equal. eapply (markedFrom_unique N g); [|exact Hc|exact Hm1].
    intros x y _. simpl. tauto.
Qed.

Lemma stampPattern_commutes_witness :
  squareGrid 5 blinkerGrid ∧
  ∃ g1 g2 g12,
    VariantA.stampPattern 5 blinkerGrid ["010"; "111"]%string 3 3 = Some g1 ∧
    VariantA.stampPattern 5 blinkerGrid ["11"]%string (-1) 0 = Some g2 ∧
    VariantA.stampPattern 5 g1 ["11"]%string (-1) 0 = Some g12 ∧
    VariantA.stampPattern 5 g2 ["010"; "111"]%string 3 3 = Some g12.
Proof.
  assert (Hsq : squareGrid 5 blinkerGrid) by concrete_square.
  split; [exact Hsq|].
  destruct (stampPattern_commutes 5 blinkerGrid ["010"; "111"]%string
              ["11"]%string 3 3 (-1) 0 Hsq)
    as (g1 & g2 & g12 & H1 & H2 & H12 & H21 & _);
    [by eexists|by eexists|].
  exists g1, g2, g12. split; [exact H1|]. split; [exact H2|].
  split; [exact H12|exact H21].
Defined.

(** X5.  [stampPattern] never clears a cell and changes no cell outside
    the box of the pattern at its offset, as wide as the first row and as
    high as the pattern.  A pattern whose box misses the grid leaves the
    grid as it is, without an error. *)
Theorem stampPattern_stays_in_box (N : Z) (g : Grid) (pattern : Pattern)
    (offsetX offsetY : Z) (row0 : string) :
  squareGrid N g → pattern !! 0%nat = Some row0 →
  let width := Z.of_nat (String.length row0) in
  let height := Z.of_nat (length pattern) in
  ∃ g', VariantA.stampPattern N g pattern offsetX offsetY = Some g' ∧
        changesWithin N (within offsetX offsetY width height) g g' ∧
        (N ≤ offsetX ∨ N ≤ offsetY ∨ offsetX + width ≤ 0 ∨ offsetY + height ≤ 0 →
         g' = g).
Proof.
  intros Hsq Hrow0 width height.
  destruct (stampPattern_box N g pattern offsetX offsetY row0 Hsq Hrow0)
    as (g' & Hrun & Hbox).
  exists g'. split; [done|]. split; [done|].
  intros Hout. apply (grid_ext N); [apply Hbox|done|].
  intros x y Hin. apply (proj2 Hbox x y Hin).
  unfold within, InGrid in *. fold width height. lia.
Qed.

Lemma stampPattern_stays_in_box_witness :
  squareGrid 5 blinkerGrid ∧
  VariantA.stampPattern 5 blinkerGrid ["111"; "111"]%string 1 (-2)
  = Some blinkerGrid.
Proof.
  assert (Hsq : squareGrid 5 blinkerGrid) by concrete_square.
  split; [exact Hsq|].
  destruct (stampPattern_stays_in_box 5 blinkerGrid ["111"; "111"]%string 1 (-2)
              "111"%string Hsq eq_refl) as (g' & Hrun & _ & Hout).
  rewrite Hrun. f_equal. apply Hout. simpl. lia.
Defined.

(** ** The word *)

(** The cells the loops of [stampPattern] find, for a rectangular pattern. *)
Lemma stampMarks_rectangular pattern row0 offsetX offsetY x y :
  pattern !! 0%nat = Some row0 →
  Forall (λ row, String.length row = String.length row0) pattern →
  (∃ j, 0 ≤ j < Z.of_nat (length pattern) ∧
   ∃ i, 0 ≤ i < Z.of_nat (String.length row0) ∧
        VariantA.patternMark pattern i j = true ∧ x = offsetX + i ∧ y = offsetY + j)
  ↔ ∃ i j : nat, patternAlive pattern i j ∧
                 x = offsetX + Z.of_nat i ∧ y = offsetY + Z.of_nat j.
Proof.
  intros Hrow0 Hrect. split.
  - intros (j & Hj & i & Hi & Hmark & -> & ->).
    exists (Z.to_nat i), (Z.to_nat j). rewrite !Z2Nat.id by lia.
    split; [|done]. apply patternMark_alive. by rewrite !Z2Nat.id by lia.
  - intros (i & j & Ha & -> & ->). pose proof Ha as (row & Hrow & Hget).
    exists (Z.of_nat j). split; [apply lookup_lt_Some in Hrow; lia|].
    exists (Z.of_nat i). split.
    + apply string_get_lt in Hget. rewrite Forall_lookup in Hrect.
      rewrite <- (Hrect _ _ Hrow). lia.
    + split; [by apply patternMark_alive|done].
Qed.

(** Every letter of the word is in [LETTERS], five columns by seven rows. *)
Lemma letters_shape (k : nat) (ch : ascii) :
  list_ascii_of_string "ANDER" !! k = Some ch →
  (k < 5)%nat ∧
  ∃ pattern row0,
    property VariantA.LETTERS ch = Some pattern ∧
    pattern !! 0%nat = Some row0 ∧ String.length row0 = 5%nat ∧
    length pattern = 7%nat ∧
    Forall (λ row, String.length row = String.length row0) pattern.
Proof.
  intros Hk.
  do 5 (destruct k as [|k];
        [injection Hk as <-; split; [lia|];
         eexists _, _; split; [reflexivity|]; split; [reflexivity|];
         split; [reflexivity|]; split; [reflexivity|];
         concrete_forall; reflexivity|]).
  discriminate Hk.
Qed.

Lemma placeWordANDER_marked N g :
  squareGrid N g →
  ∃ g', VariantA.placeWordANDER N g = Some g' ∧ markedFrom N g (wordMark N) g'.
Proof.
  intros Hsq. unfold VariantA.placeWordANDER. cbv zeta.
  change (Z.of_nat (String.length "ANDER") * VariantA.LETTER_WIDTH
          + (Z.of_nat (String.length "ANDER") - 1) * VariantA.LETTER_SPACING)
    with 29.
  change VariantA.LETTER_HEIGHT with 7.
  change (VariantA.LETTER_WIDTH + VariantA.LETTER_SPACING) with 6.
  set (startX := (N - 29) `div` 2). set (startY := (N - 7) `div` 2).
  set (word := list_ascii_of_string "ANDER").
  match goal with |- context [forEach word ?body ?s0] =>
    destruct (forEach_steps
      (λ done (st : Z * Grid),
         st.1 = startX + 6 * Z.of_nat (length done) ∧
         markedFrom N g
           (λ x y, ∃ (k : nat) ch pattern (i j : nat),
              (k < length done)%nat ∧ word !! k = Some ch ∧
              property VariantA.LETTERS ch = Some pattern ∧
              patternAlive pattern i j ∧
              x = startX + 6 * Z.of_nat k + Z.of_nat i ∧
              y = startY + Z.of_nat j) st.2)
      word body s0) as ([x' g'] & Hrun & _ & Hm)
  end.
  - split; [simpl; lia|]. eapply markedFrom_iff; [|by apply markedFrom_refl].
    intros x y _. split; [done|]. intros (k & ? & ? & ? & ? & Hk & _). simpl in Hk. lia.
  - intros done ch rest [x0 g0] Hword [Hx Hm0]. simpl in Hx, Hm0. subst x0.
    assert (Hlook : word !! length done = Some ch).
    { rewrite Hword. by apply list_lookup_middle. }
    destruct (letters_shape _ _ Hlook) as (Hk & pattern & row0 & Hprop & Hrow0
                                           & Hw & Hh & Hrect).
    rewrite Hprop. cbn [mbind option_bind].
    destruct (stampPattern_marked N g0 pattern
                (startX + 6 * Z.of_nat (length done)) startY row0 (proj1 Hm0) Hrow0)
      as (g1 & -> & Hm1).
    cbn [mbind option_bind]. eexists. split; [reflexivity|]. cbn [fst snd].
    split; [rewrite length_app; simpl; lia|].
    eapply markedFrom_iff; [|exact (markedFrom_trans _ _ _ _ _ _ Hm0 Hm1)].
    intros x y _. cbn beta.
    rewrite (stampMarks_rectangular pattern row0 _ _ x y Hrow0 Hrect).
    rewrite length_app. cbn [length]. split.
    + intros [(k & ch' & p' & i & j & Hlt & Hrest)|(i & j & Ha & -> & ->)].
      * exists k, ch', p', i, j. split; [lia|exact Hrest].
      * exists (length done), ch, pattern, i, j. split; [lia|done].
    + intros (k & ch' & p' & i & j & Hlt & Hk' & Hp' & Ha & -> & ->).
      destruct (decide (k = length done)) as [->|Hne].
      * right. rewrite Hlook in Hk'. injection Hk' as <-.
        rewrite Hprop in Hp'. injection Hp' as <-. by exists i, j.
      * left. exists k, ch', p', i, j. split; [lia|done].
  - exists g'. rewrite Hrun. split; [reflexivity|].
    eapply markedFrom_iff; [|exact Hm]. intros x y _. cbn beta. unfold wordMark.
    fold word startX startY. split.
    + intros (k & ch & p & i & j & _ & Hrest). by exists k, ch, p, i, j.
    + intros (k & ch & p & i & j & Hk & Hrest). exists k, ch, p, i, j.
      split; [|done]. by apply lookup_lt_Some in Hk.
Qed.

(** X6.  [placeWordANDER] lays the five letters of the word side by side,
    six columns apart, centred in the grid: it sets alive exactly the cells
    under a ['1'] of a letter, clipped to the grid, and leaves every other
    cell as it was.  All these cells lie in the five letter boxes, so the
    spacing columns and the rest of the grid are untouched. *)
Theorem placeWordANDER_letters (N : Z) (g : Grid) :
  squareGrid N g →
  ∃ g', VariantA.placeWordANDER N g = Some g' ∧
        squareGrid N g' ∧
        (∀ x y, InGrid N x y →
           (wordMark N x y → alive g' x y) ∧
           (¬ wordMark N x y → readCell g' x y = readCell g x y)) ∧
        (∀ x y, wordMark N x y → inWord N x y) ∧
        changesWithin N (inWord N) g g'.
Proof.
  intros Hsq. destruct (placeWordANDER_marked N g Hsq) as (g' & Hrun & Hm).
  assert (Hbox : ∀ x y, wordMark N x y → inWord N x y).
  { intros x y (k & ch & p & i & j & Hk & Hp & (row & Hrow & Hget) & -> & ->).
    destruct (letters_shape _ _ Hk) as (Hk5 & p' & row0 & Hp' & _ & Hw & Hh & Hrect).
    rewrite Hp in Hp'. injection Hp' as <-.
    exists (Z.of_nat k). split; [lia|]. unfold within.
    apply string_get_lt in Hget. rewrite Forall_lookup in Hrect.
    rewrite (Hrect _ _ Hrow), Hw in Hget.
    apply lookup_lt_Some in Hrow. lia. }
  exists g'. split; [done|]. split; [apply Hm|]. split; [|split; [done|]].
  - intros x y Hin. destruct Hm as [_ Hcells].
    destruct (Hcells x y Hin) as [[HP Hv]|[HP Hv]]; split; done.
  - eapply markedFrom_changesWithin; [|exact Hm]. intros x y _. apply Hbox.
Qed.

Lemma placeWordANDER_letters_witness :
  squareGrid 5 blinkerGrid ∧
  ∃ g', VariantA.placeWordANDER 5 blinkerGrid = Some g' ∧
        alive g' 0 0 ∧ alive g' 1 2.
Proof.
  assert (Hsq : squareGrid 5 blinkerGrid) by concrete_square.
  split; [exact Hsq|].
  destruct (placeWordANDER_letters 5 blinkerGrid Hsq)
    as (g' & Hrun & _ & Hcells & _ & Hkeep).
  exists g'. split; [exact Hrun|]. split.
  - apply (Hcells 0 0); [unfold InGrid; lia|].
    exists 2%nat, "D"%char,
      ["11110"; "10001"; "10001"; "10001"; "10001"; "10001"; "11110"]%string,
      0%nat, 1%nat.
    split; [reflexivity|]. split; [reflexivity|].
    split; [eexists; split; reflexivity|]. split; reflexivity.
  - destruct (proj2 Hkeep 1 2) as [Hstay _]; [unfold InGrid; lia|].
    apply Hstay. reflexivity.
Defined.

(** ** The scattered shapes *)




(** ** Still lifes and the border *)

Lemma showsAt_ext_in N cx cy f f' g :
  (∀ x y, InGrid N x y → f (x - cx) (y - cy) = f' (x - cx) (y - cy)) →
  showsAt N cx cy f g → showsAt N cx cy f' g.
Proof.
  intros Hff' [Hsq Hcells]. split; [done|]. intros x y Hin.
  rewrite <- Hff' by done. by apply Hcells.
Qed.

(** X8.  A grid without alive cells is a fixed point of the generation
    step, in both variants. *)
Theorem dead_grid_stays_dead (N : Z) (g : Grid) :
  squareGrid N g → (∀ x y, InGrid N x y → dead g x y) →
  VariantA.nextGeneration N g = Some g ∧ VariantB.nextGeneration N g = Some g.
Proof.
  intros Hsq Hdead.
  assert (Hshows : showsAt N 0 0 (λ _ _, 0) g).
  { split; [done|]. intros x y Hin. by apply Hdead. }
  destruct (nextGeneration_showsAt N 0 0 (λ _ _, 0) g Hshows) as (g' & Hrun & Hshows');
    [done|].
  assert (g' = g) as ->.
  { apply (grid_ext N); [apply Hshows'|done|]. intros x y Hin.
    rewrite (proj2 Hshows' x y Hin), (proj2 Hshows x y Hin). reflexivity. }
  split; [exact Hrun|]. by rewrite (nextGeneration_variants N g).
Qed.

Lemma dead_grid_stays_dead_witness :
  squareGrid 3 [[0; 0; 0]; [0; 0; 0]; [0; 0; 0]] ∧
  VariantA.nextGeneration 3 [[0; 0; 0]; [0; 0; 0]; [0; 0; 0]]
  = Some [[0; 0; 0]; [0; 0; 0]; [0; 0; 0]].
Proof.
  assert (Hsq : squareGrid 3 [[0; 0; 0]; [0; 0; 0]; [0; 0; 0]]) by concrete_square.
  split; [exact Hsq|].
  apply (dead_grid_stays_dead 3 _ Hsq).
  intros x y [Hx Hy].
  assert (x = 0 ∨ x = 1 ∨ x = 2) as [->|[->| ->]] by lia;
    assert (y = 0 ∨ y = 1 ∨ y = 2) as [->|[->| ->]] by lia; reflexivity.
Defined.

Lemma blockPicture_zero u v :
  u < 0 ∨ 1 < u ∨ v < 0 ∨ 1 < v → blockPicture u v = 0.
Proof.
  intros H. unfold blockPicture.
  destruct (Z.leb_spec 0 u), (Z.leb_spec u 1), (Z.leb_spec 0 v), (Z.leb_spec v 1);
    simpl; lia.
Qed.

Lemma pairPicture_zero u v :
  u ≠ 0 ∨ v < 0 ∨ 1 < v → pairPicture u v = 0.
Proof.
  intros H. unfold pairPicture.
  destruct (Z.eqb_spec u 0), (Z.leb_spec 0 v), (Z.leb_spec v 1); simpl; lia.
Qed.

Lemma block_step u v :
  nextCell (blockPicture u v) (relCount blockPicture u v) = blockPicture u v.
Proof.
  destruct (decide (-1 ≤ u ≤ 2 ∧ -1 ≤ v ≤ 2)) as [[Hu Hv]|Hfar].
  - assert (u = -1 ∨ u = 0 ∨ u = 1 ∨ u = 2) as [->|[->|[->| ->]]] by lia;
      assert (v = -1 ∨ v = 0 ∨ v = 1 ∨ v = 2) as [->|[->|[->| ->]]] by lia;
      reflexivity.
  - unfold relCount, surrounding. cbn [foldl fst snd].
    rewrite !blockPicture_zero by lia. reflexivity.
Qed.

Lemma pair_step u v :
  nextCell (pairPicture u v) (relCount pairPicture u v) = 0.
Proof.
  destruct (decide (-1 ≤ u ≤ 1 ∧ -1 ≤ v ≤ 2)) as [[Hu Hv]|Hfar].
  - assert (u = -1 ∨ u = 0 ∨ u = 1) as [->|[->| ->]] by lia;
      assert (v = -1 ∨ v = 0 ∨ v = 1 ∨ v = 2) as [->|[->|[->| ->]]] by lia;
      reflexivity.
  - unfold relCount, surrounding. cbn [foldl fst snd].
    rewrite !pairPicture_zero by lia. reflexivity.
Qed.

(** X9.  A block of two by two alive cells on an otherwise dead grid is a
    still life wherever it fits, also in a corner or along an edge of the
    grid: the generation step gives back the same grid. *)
Theorem block_still_life (N cx cy : Z) (G : Grid) :
  squareGrid N G →
  0 ≤ cx ≤ N - 2 → 0 ≤ cy ≤ N - 2 →
  (∀ x y, InGrid N x y →
     if decide (cx ≤ x ≤ cx + 1 ∧ cy ≤ y ≤ cy + 1)
     then alive G x y else dead G x y) →
  VariantA.nextGeneration N G = Some G.
Proof.
  intros Hsq Hcx Hcy Hblock.
  assert (Hshows : showsAt N cx cy blockPicture G).
  { split; [done|]. intros x y Hin. specialize (Hblock x y Hin).
    unfold blockPicture. case_decide as Hd.
    - replace ((0 <=? x - cx) && (x - cx <=? 1) && (0 <=? y - cy) && (y - cy <=? 1))
        with true; [done|].
      symmetry. rewrite !andb_true_iff, !Z.leb_le. lia.
    - replace ((0 <=? x - cx) && (x - cx <=? 1) && (0 <=? y - cy) && (y - cy <=? 1))
        with false; [done|].
      symmetry. apply not_true_is_false. rewrite !andb_true_iff, !Z.leb_le. lia. }
  destruct (nextGeneration_showsAt N cx cy blockPicture G Hshows)
    as (G1 & Hrun & Hshows1).
  { intros u v Hne. unfold InGrid.
    destruct (decide (u < 0 ∨ 1 < u ∨ v < 0 ∨ 1 < v)) as [Hz|?]; [|lia].
    by apply blockPicture_zero in Hz. }
  apply (showsAt_ext _ _ _ _ blockPicture _ block_step) in Hshows1.
  rewrite Hrun. f_equal. apply (grid_ext N); [apply Hshows1|done|].
  intros x y Hin. by rewrite (proj2 Hshows1 x y Hin), (proj2 Hshows x y Hin).
Qed.

Lemma block_still_life_witness :
  squareGrid 2 [[1; 1]; [1; 1]] ∧
  VariantA.nextGeneration 2 [[1; 1]; [1; 1]] = Some [[1; 1]; [1; 1]].
Proof.
  assert (Hsq : squareGrid 2 [[1; 1]; [1; 1]]) by concrete_square.
  split; [exact Hsq|].
  apply (block_still_life 2 0 0 _ Hsq); [lia|lia|].
  intros x y [Hx Hy].
  assert (x = 0 ∨ x = 1) as [->| ->] by lia;
    assert (y = 0 ∨ y = 1) as [->| ->] by lia; reflexivity.
Defined.

(** X10.  The grid does not wrap around.  A row of three alive cells
    lying on the top row of an otherwise dead grid does not oscillate: one
    generation leaves the two cells of its middle column that are inside
    the grid, and the next generation leaves no alive cell. *)
Theorem blinker_on_border_dies (N cx : Z) (G : Grid) :
  squareGrid N G →
  1 ≤ cx ≤ N - 2 →
  (∀ x y, InGrid N x y →
     if decide (y = 0 ∧ cx - 1 ≤ x ≤ cx + 1) then alive G x y else dead G x y) →
  ∃ G1 G2,
    VariantA.nextGeneration N G = Some G1 ∧
    (∀ x y, InGrid N x y →
       if decide (x = cx ∧ y ≤ 1) then alive G1 x y else dead G1 x y) ∧
    VariantA.nextGeneration N G1 = Some G2 ∧
    (∀ x y, InGrid N x y → dead G2 x y).
Proof.
  intros Hsq Hcx Hrow.
  assert (Hshows : showsAt N cx 0 horizontalBlinker G).
  { split; [done|]. intros x y Hin. specialize (Hrow x y Hin).
    unfold horizontalBlinker. case_decide as Hd.
    - replace ((y - 0 =? 0) && (-1 <=? x - cx) && (x - cx <=? 1)) with true; [done|].
      symmetry. rewrite !andb_true_iff, Z.eqb_eq, !Z.leb_le. lia.
    - replace ((y - 0 =? 0) && (-1 <=? x - cx) && (x - cx <=? 1)) with false; [done|].
      symmetry. apply not_true_is_false.
      rewrite !andb_true_iff, Z.eqb_eq, !Z.leb_le. lia. }
  destruct (nextGeneration_showsAt N cx 0 horizontalBlinker G Hshows)
    as (G1 & Hrun1 & Hshows1).
  { intros u v. apply horizontalBlinker_support; lia. }
  apply (showsAt_ext _ _ _ _ verticalBlinker _ horizontal_step) in Hshows1.
  assert (Hpair : showsAt N cx 0 pairPicture G1).
  { eapply showsAt_ext_in; [|exact Hshows1]. intros x y [Hx Hy].
    unfold verticalBlinker, pairPicture.
    replace (-1 <=? y - 0) with true by (symmetry; apply Z.leb_le; lia).
    replace (0 <=? y - 0) with true by (symmetry; apply Z.leb_le; lia).
    reflexivity. }
  destruct (nextGeneration_showsAt N cx 0 pairPicture G1 Hpair)
    as (G2 & Hrun2 & Hshows2).
  { intros u v Hne. unfold InGrid.
    destruct (decide (u ≠ 0 ∨ v < 0 ∨ 1 < v)) as [Hz|?]; [|lia].
    by apply pairPicture_zero in Hz. }
  apply (showsAt_ext _ _ _ _ (λ _ _, 0) _ pair_step) in Hshows2.
  exists G1, G2. split; [exact Hrun1|]. split; [|split; [exact Hrun2|]].
  - intros x y Hin. unfold alive, dead. rewrite (proj2 Hpair x y Hin).
    unfold pairPicture. destruct Hin as [Hx Hy]. case_decide as Hd.
    + replace ((x - cx =? 0) && (0 <=? y - 0) && (y - 0 <=? 1)) with true; [done|].
      symmetry. rewrite !andb_true_iff, Z.eqb_eq, !Z.leb_le. lia.
    + replace ((x - cx =? 0) && (0 <=? y - 0) && (y - 0 <=? 1)) with false; [done|].
      symmetry. apply not_true_is_false.
      rewrite !andb_true_iff, Z.eqb_eq, !Z.leb_le. lia.
  - intros x y Hin. exact (proj2 Hshows2 x y Hin).
Qed.

Lemma blinker_on_border_dies_witness :
  squareGrid 3 [[1; 1; 1]; [0; 0; 0]; [0; 0; 0]] ∧
  ∃ G1 G2,
    VariantA.nextGeneration 3 [[1; 1; 1]; [0; 0; 0]; [0; 0; 0]] = Some G1 ∧
    alive G1 1 1 ∧
    VariantA.nextGeneration 3 G1 = Some G2 ∧ dead G2 1 0 ∧ dead G2 1 1.
Proof.
  assert (Hsq : squareGrid 3 [[1; 1; 1]; [0; 0; 0]; [0; 0; 0]]) by concrete_square.
  split; [exact Hsq|].
  destruct (blinker_on_border_dies 3 1 _ Hsq) as (G1 & G2 & H1 & Hcol & H2 & Hdead);
    [lia| |].
  { intros x y [Hx Hy].
    assert (x = 0 ∨ x = 1 ∨ x = 2) as [->|[->| ->]] by lia;
      assert (y = 0 ∨ y = 1 ∨ y = 2) as [->|[->| ->]] by lia; reflexivity. }
  exists G1, G2. split; [exact H1|].
  split; [apply (Hcol 1 1); unfold InGrid; lia|]. split; [exact H2|].
  split; apply Hdead; unfold InGrid; lia.
Defined.

(** ** Clicks, random grids and the canvas *)

Lemma canvasClickB_spec (s : VariantB.state) (gridX gridY : Z) :
  invariantB s → InGrid (VariantB.gridSize s) gridX gridY →
  ∃ c s1,
    readCell (VariantB.grid s) gridX gridY = Some c ∧ (c = 0 ∨ c = 1) ∧
    VariantB.canvasClick gridX gridY s = Some s1 ∧
    VariantB.gridSize s1 = VariantB.gridSize s ∧
    VariantB.running s1 = VariantB.running s ∧
    invariantB s1 ∧
    readCell (VariantB.grid s1) gridX gridY = Some (if c =? 1 then 0 else 1) ∧
    ∀ x y, ¬ (x = gridX ∧ y = gridY) →
           readCell (VariantB.grid s1) x y = readCell (VariantB.grid s) x y.
Proof.
  intros [Hsq Hbin] Hin. unfold VariantB.canvasClick.
  rewrite (proj2 (inGrid_true _ _ _) Hin).
  destruct (readCell_square _ _ _ _ Hsq Hin) as [c Hc].
  assert (Hc01 : c = 0 ∨ c = 1).
  { destruct (proj1 (binaryGrid_cells _ _ Hsq) Hbin _ _ Hin) as [H|H];
      unfold dead, alive in H; rewrite H in Hc; injection Hc as <-; auto. }
  rewrite Hc. cbn [mbind option_bind].
  destruct (writeCell_good _ _ gridX gridY (if c =? 1 then 0 else 1)
              (conj Hsq Hbin) Hin) as (g1' & Hw' & Hgood); [destruct (c =? 1); auto|].
  destruct (writeCell_square _ _ gridX gridY (if c =? 1 then 0 else 1) Hsq Hin)
    as (g1 & Hw & Hsq1 & Hrd1 & Hother1).
  rewrite Hw in Hw'. injection Hw' as <-.
  rewrite Hw. cbn [mbind option_bind].
  destruct (drawGrid_squareB (VariantB.setGrid g1 s)) as [scr1 ->]; [exact Hsq1|].
  exists c. eexists. split; [reflexivity|]. split; [exact Hc01|].
  split; [reflexivity|]. cbn. done.
Qed.

(** X11.  In variant B a click on a cell toggles that cell and no other,
    and a second click on the same cell gives back the grid as it was; a
    click outside the grid changes nothing. *)
Theorem toggle_twice (s : VariantB.state) (gridX gridY : Z) :
  invariantB s →
  ∃ s1 s2,
    VariantB.canvasClick gridX gridY s = Some s1 ∧
    VariantB.canvasClick gridX gridY s1 = Some s2 ∧
    VariantB.grid s2 = VariantB.grid s ∧
    VariantB.gridSize s1 = VariantB.gridSize s ∧
    VariantB.running s1 = VariantB.running s ∧
    (InGrid (VariantB.gridSize s) gridX gridY →
       (alive (VariantB.grid s) gridX gridY → dead (VariantB.grid s1) gridX gridY) ∧
       (dead (VariantB.grid s) gridX gridY → alive (VariantB.grid s1) gridX gridY) ∧
       ∀ x y, ¬ (x = gridX ∧ y = gridY) →
              readCell (VariantB.grid s1) x y = readCell (VariantB.grid s) x y) ∧
    (¬ InGrid (VariantB.gridSize s) gridX gridY → s1 = s).
Proof.
  intros Hinv.
  destruct (decide (InGrid (VariantB.gridSize s) gridX gridY)) as [Hin|Hout].
  - destruct (canvasClickB_spec s gridX gridY Hinv Hin)
      as (c & s1 & Hc & Hc01 & Hclick1 & Hsize1 & Hrun1 & Hinv1 & Hrd1 & Hother1).
    assert (Hin1 : InGrid (VariantB.gridSize s1) gridX gridY) by by rewrite Hsize1.
    destruct (canvasClickB_spec s1 gridX gridY Hinv1 Hin1)
      as (c' & s2 & Hc' & _ & Hclick2 & Hsize2 & _ & Hinv2 & Hrd2 & Hother2).
    exists s1, s2. split; [exact Hclick1|]. split; [exact Hclick2|].
    split; [|split; [exact Hsize1|split; [exact Hrun1|split; [|done]]]].
    + apply (grid_ext (VariantB.gridSize s)); [|apply Hinv|].
      { rewrite <- Hsize1, <- Hsize2. apply Hinv2. }
      intros x y _. destruct (decide (x = gridX ∧ y = gridY)) as [[-> ->]|Hne].
      * rewrite Hrd2, Hc. rewrite Hrd1 in Hc'. injection Hc' as <-.
        destruct Hc01 as [-> | ->]; reflexivity.
      * rewrite Hother2, Hother1; done.
    + intros _. unfold alive, dead. rewrite Hrd1, Hc.
      split; [|split; [|exact Hother1]]; intros [= ->]; reflexivity.
  - exists s, s. unfold VariantB.canvasClick.
    rewrite (proj2 (inGrid_false _ _ _) Hout). repeat split; done.
Qed.

Lemma toggle_twice_witness :
  invariantB blinkerPageB ∧
  ∃ s1 s2,
    VariantB.canvasClick 0 0 blinkerPageB = Some s1 ∧
    VariantB.canvasClick 0 0 s1 = Some s2 ∧
    alive (VariantB.grid s1) 0 0 ∧ VariantB.grid s2 = blinkerGrid.
Proof.
  assert (Hinv : invariantB blinkerPageB).
  { split; simpl; [concrete_square|concrete_binary]. }
  split; [exact Hinv|].
  destruct (toggle_twice blinkerPageB 0 0 Hinv)
    as (s1 & s2 & H1 & H2 & Hback & _ & _ & Htoggle & _).
  exists s1, s2. split; [exact H1|]. split; [exact H2|]. split; [|exact Hback].
  apply Htoggle; [unfold InGrid; simpl; lia|reflexivity].
Defined.

Lemma below_prefix (n : Z) (done rest : list Z) (a : Z) :
  below n = done ++ a :: rest → a = Z.of_nat (length done) ∧ 0 ≤ a < n.
Proof.
  intros Heq.
  assert (Hlook : below n !! length done = Some a).
  { rewrite Heq. by apply list_lookup_middle. }
  unfold below in Hlook. apply lookup_seqZ in Hlook. lia.
Qed.

(** X12.  [randomizeGrid] overwrites every cell, row by row, with one
    random draw each: the cell [(x, y)] becomes alive exactly when draw
    number [y * N + x] after those already made is below 0.25, whatever the
    grid held before, and [N * N] draws are used. *)
Theorem randomizeGrid_cells (random : nat → Q) (N : Z) (g : Grid) (draws : nat) :
  squareGrid N g →
  ∃ g',
    VariantB.randomizeGrid random N g draws
    = Some (g', (draws + Z.to_nat N * Z.to_nat N)%nat) ∧
    goodGrid N g' ∧
    ∀ x y, InGrid N x y →
      readCell g' x y
      = Some (if Qltb (random (draws + Z.to_nat (y * N + x))%nat) 0.25
              then 1 else 0).
Proof.
  intros Hsq. pose proof Hsq as (HN & _). unfold VariantB.randomizeGrid.
  set (value := λ x y : Z,
         if Qltb (random (draws + Z.to_nat (y * N + x))%nat) 0.25 then 1 else 0).
  match goal with |- context [forEach (below N) ?body ?s0] =>
    destruct (forEach_steps
      (λ rows (st : Grid * nat),
         squareGrid N st.1 ∧
         st.2 = (draws + length rows * Z.to_nat N)%nat ∧
         ∀ x y, InGrid N x y → y < Z.of_nat (length rows) →
                readCell st.1 x y = Some (value x y))
      (below N) body s0) as ([g' d'] & Hrun & Hsq' & Hd & Hcells)
  end.
  - split; [done|]. split; [simpl; lia|]. intros x y [_ Hy] Hlt. simpl in Hlt. lia.
  - intros rows y rest [g0 d0] Hrows (Hsq0 & Hd0 & Hrows0).
    cbn [fst snd] in Hsq0, Hd0, Hrows0.
    apply below_prefix in Hrows as [Hy Hyn].
    match goal with |- context [forEach (below N) ?body ?s0] =>
      destruct (forEach_steps
        (λ cols (st : Grid * nat),
           squareGrid N st.1 ∧
           st.2 = (d0 + length cols)%nat ∧
           (∀ x y', InGrid N x y' → y' < y → readCell st.1 x y' = Some (value x y')) ∧
           (∀ x, InGrid N x y → x < Z.of_nat (length cols) →
                 readCell st.1 x y = Some (value x y)))
        (below N) body s0) as ([g1 d1] & Hrun1 & Hsq1 & Hd1 & Hrows1 & Hcols1)
    end.
    + split; [done|]. split; [simpl; lia|]. split.
      * intros x y' Hin Hlt. apply Hrows0; [done|lia].
      * intros x [Hx0 _] Hlt. simpl in Hlt. lia.
    + intros cols x rest' [g2 d2] Hcols (Hsq2 & Hd2 & Hrows2 & Hcols2).
      cbn [fst snd] in Hsq2, Hd2, Hrows2, Hcols2.
      apply below_prefix in Hcols as [Hx Hxn].
      destruct (writeCell_square N g2 x y
                  (if Qltb (random d2) 0.25 then 1 else 0) Hsq2)
        as (g3 & -> & Hsq3 & Hrd3 & Hother3); [done|].
      cbn [mbind option_bind]. eexists. split; [reflexivity|]. cbn [fst snd].
      split; [done|]. split; [rewrite length_app; simpl; lia|]. split.
      * intros x' y' Hin Hlt. rewrite Hother3 by lia. by apply Hrows2.
      * intros x' Hin Hlt. rewrite length_app in Hlt. simpl in Hlt.
        destruct (decide (x' = x)) as [->|Hne].
        -- rewrite Hrd3. unfold value. subst d2 d0.
           replace (Z.to_nat (y * N + x))
             with (length rows * Z.to_nat N + length cols)%nat;
             [by rewrite Nat.add_assoc|].
           rewrite Hy, Hx.
           rewrite Z2Nat.inj_add, Z2Nat.inj_mul, !Nat2Z.id by lia. reflexivity.
        -- rewrite Hother3 by lia. apply Hcols2; [done|lia].
    + rewrite Hrun1. eexists. split; [reflexivity|]. cbn [fst snd] in *.
      split; [done|]. split.
      * rewrite length_app. simpl. subst d1 d0.
        unfold below. rewrite length_seqZ. lia.
      * intros x y' Hin Hlt. rewrite length_app in Hlt. simpl in Hlt.
        destruct (decide (y' = y)) as [->|Hne].
        -- apply Hcols1; [done|]. unfold below. rewrite length_seqZ.
           destruct Hin. lia.
        -- apply Hrows1; [done|lia].
  - cbn [fst snd] in *. exists g'. rewrite Hrun. split.
    + do 2 f_equal. subst d'. unfold below. rewrite length_seqZ. reflexivity.
    + assert (Hall : ∀ x y, InGrid N x y → readCell g' x y = Some (value x y)).
      { intros x y Hin. apply Hcells; [done|]. unfold below. rewrite length_seqZ.
        destruct Hin. lia. }
      split; [|exact Hall]. split; [done|].
      apply (binaryGrid_cells N g' Hsq'). intros x y Hin.
      unfold dead, alive. rewrite (Hall x y Hin). unfold value.
      destruct (Qltb _ _); auto.
Qed.

Lemma randomizeGrid_cells_witness :
  squareGrid 5 blinkerGrid ∧
  ∃ g', VariantB.randomizeGrid (λ k, if Nat.even k then 0%Q else 1%Q) 5
          blinkerGrid 0 = Some (g', 25%nat) ∧
        alive g' 2 0 ∧ dead g' 1 0 ∧ alive g' 3 3.
Proof.
  assert (Hsq : squareGrid 5 blinkerGrid) by concrete_square.
  split; [exact Hsq|].
  destruct (randomizeGrid_cells (λ k, if Nat.even k then 0%Q else 1%Q) 5
              blinkerGrid 0 Hsq) as (g' & Hrun & _ & Hcells).
  exists g'. split; [exact Hrun|]. unfold alive, dead.
  rewrite !Hcells by (unfold InGrid; lia). repeat split; reflexivity.
Defined.

Lemma liveColour_not_dead : liveColour ≠ deadColour.
Proof. discriminate. Qed.

Lemma drawCells_pixel N g scr x y :
  drawCells N g = Some scr → InGrid N x y →
  ∃ c, readCell g x y = Some c ∧
       pixel scr x y = Some (if c =? 1 then liveColour else deadColour).
Proof.
  intros Hdraw [Hx Hy]. unfold drawCells in Hdraw.
  apply mapM_Some in Hdraw.
  assert (Hrow : below N !! Z.to_nat y = Some y).
  { unfold below. rewrite lookup_seqZ. lia. }
  destruct (Forall2_lookup_l _ _ _ _ _ Hdraw Hrow) as (row & Hscr & Hmap).
  apply mapM_Some in Hmap.
  assert (Hcol : below N !! Z.to_nat x = Some x).
  { unfold below. rewrite lookup_seqZ. lia. }
  destruct (Forall2_lookup_l _ _ _ _ _ Hmap Hcol) as (colour & Hpix & Hc).
  destruct (readCell g x y) as [c|]; [|discriminate Hc].
  cbn [mbind option_bind] in Hc. injection Hc as <-.
  exists c. split; [reflexivity|]. unfold pixel. rewrite Hscr. exact Hpix.
Qed.

(** X13.  [drawGrid] paints one colour per cell, [N] rows of [N]: the
    live colour where the cell holds 1 and the dead colour elsewhere.  Two
    grids of 0 / 1 cells that are painted alike are the same grid. *)
Theorem drawCells_faithful (N : Z) (g : Grid) :
  squareGrid N g →
  ∃ scr, drawCells N g = Some scr ∧
         length scr = Z.to_nat N ∧
         Forall (λ row, length row = Z.to_nat N) scr ∧
         (∀ x y, InGrid N x y →
            (alive g x y → pixel scr x y = Some liveColour) ∧
            (¬ alive g x y → pixel scr x y = Some deadColour)) ∧
         (∀ g2, goodGrid N g → goodGrid N g2 → drawCells N g2 = Some scr → g2 = g).
Proof.
  intros Hsq. destruct (drawCells_square N g Hsq) as [scr Hdraw].
  exists scr. split; [exact Hdraw|].
  assert (Hpix : ∀ x y, InGrid N x y →
            (alive g x y → pixel scr x y = Some liveColour) ∧
            (¬ alive g x y → pixel scr x y = Some deadColour)).
  { intros x y Hin. destruct (drawCells_pixel N g scr x y Hdraw Hin) as (c & Hc & Hp).
    unfold alive. rewrite Hc, Hp. split.
    - intros [= ->]. reflexivity.
    - intros Hne. destruct (Z.eqb_spec c 1) as [->|?]; [done|reflexivity]. }
  split; [|split; [|split; [exact Hpix|]]].
  - pose proof Hdraw as Hd. unfold drawCells in Hd. apply length_mapM in Hd.
    rewrite <- Hd. unfold below. apply length_seqZ.
  - pose proof Hdraw as Hd. unfold drawCells in Hd. apply mapM_Some in Hd.
    apply Forall_forall. intros row Hrow.
    apply list_elem_of_lookup in Hrow as [j Hj].
    destruct (Forall2_lookup_r _ _ _ _ _ Hd Hj) as (y & _ & Hmap).
    apply length_mapM in Hmap. rewrite <- Hmap. unfold below. apply length_seqZ.
  - intros g2 [_ Hbin] [Hsq2 Hbin2] Hdraw2.
    apply (grid_ext N); [done|done|]. intros x y Hin.
    destruct (drawCells_pixel N g scr x y Hdraw Hin) as (c & Hc & Hp).
    destruct (drawCells_pixel N g2 scr x y Hdraw2 Hin) as (c2 & Hc2 & Hp2).
    rewrite Hc, Hc2. f_equal. rewrite Hp in Hp2.
    assert (c = 0 ∨ c = 1) as Hc01.
    { destruct (proj1 (binaryGrid_cells N g Hsq) Hbin x y Hin) as [H|H];
        unfold dead, alive in H; rewrite H in Hc; injection Hc as <-; auto. }
    assert (c2 = 0 ∨ c2 = 1) as Hc201.
    { destruct (proj1 (binaryGrid_cells N g2 Hsq2) Hbin2 x y Hin) as [H|H];
        unfold dead, alive in H; rewrite H in Hc2; injection Hc2 as <-; auto. }
    destruct Hc01 as [-> | ->], Hc201 as [-> | ->]; try reflexivity;
      cbn in Hp2; injection Hp2 as Hp2; discriminate Hp2.
Qed.

Lemma drawCells_faithful_witness :
  squareGrid 5 blinkerGrid ∧
  ∃ scr, drawCells 5 blinkerGrid = Some scr ∧
         pixel scr 1 2 = Some liveColour ∧ pixel scr 0 0 = Some deadColour.
Proof.
  assert (Hsq : squareGrid 5 blinkerGrid) by concrete_square.
  split; [exact Hsq|].
  destruct (drawCells_faithful 5 blinkerGrid Hsq) as (scr & Hdraw & _ & _ & Hpix & _).
  exists scr. split; [exact Hdraw|]. split.
  - apply (Hpix 1 2); [unfold InGrid; lia|]. reflexivity.
  - apply (Hpix 0 0); [unfold InGrid; lia|]. intros H. discriminate H.
Defined.

(** ** What the handlers keep *)

Lemma drawGrid_keepsA s s' :
  VariantA.drawGrid s = Some s' →
  VariantA.gridSize s' = VariantA.gridSize s ∧
  VariantA.grid s' = VariantA.grid s ∧
  VariantA.running s' = VariantA.running s ∧
  VariantA.speedMs s' = VariantA.speedMs s ∧
  shownA s'.
Proof.
  unfold VariantA.drawGrid, shownA.
  destruct (drawCells _ _) as [scr|] eqn:Hdraw; [|intros H; discriminate H].
  cbn [mbind option_bind]. intros [= <-]. cbn. auto.
Qed.

Lemma generationTick_keeps timestamp s s' :
  VariantA.generationTick timestamp s = Some s' →
  VariantA.gridSize s' = VariantA.gridSize s ∧
  VariantA.running s' = VariantA.running s ∧
  VariantA.speedMs s' = VariantA.speedMs s ∧
  shownA s'.
Proof.
  unfold VariantA.generationTick.
  destruct (VariantA.nextGeneration _ _) as [g1|]; [|intros H; discriminate H].
  cbn [mbind option_bind].
  destruct (VariantA.applyRipplesToGrid _ _ _) as [g2|]; [|intros H; discriminate H].
  cbn [mbind option_bind].
  destruct (VariantA.updateRipples _) as [rs|]; [|intros H; discriminate H].
  cbn [mbind option_bind].
  destruct (VariantA.drawGrid _) as [s1|] eqn:Hdraw; [|intros H; discriminate H].
  cbn [mbind option_bind]. intros [= <-].
  apply drawGrid_keepsA in Hdraw as (H1 & H2 & H3 & H4 & H5).
  unfold shownA in *. cbn in *. auto.
Qed.

Lemma periodicReset_keeps random timestamp s s' :
  VariantA.periodicReset random timestamp s = Some s' →
  VariantA.gridSize s' = VariantA.gridSize s ∧
  VariantA.running s' = VariantA.running s ∧
  VariantA.speedMs s' = VariantA.speedMs s ∧
  shownA s'.
Proof.
  unfold VariantA.periodicReset.
  destruct (VariantA.createEmptyGrid _) as [g0|]; [|intros H; discriminate H].
  cbn [mbind option_bind].
  destruct (VariantA.placeRandomNatureShapesScattered _ _ _ _) as [[g1 d]|];
    [|intros H; discriminate H].
  cbn [mbind option_bind].
  destruct (VariantA.drawGrid _) as [s1|] eqn:Hdraw; [|intros H; discriminate H].
  cbn [mbind option_bind]. intros [= <-].
  apply drawGrid_keepsA in Hdraw as (H1 & H2 & H3 & H4 & H5).
  unfold shownA in *. cbn in *. auto.
Qed.

Lemma handle_keepsA random e s s' :
  VariantA.handle random e s = Some s' → shownA s →
  VariantA.gridSize s' = VariantA.gridSize s ∧
  VariantA.running s' = VariantA.running s ∧
  VariantA.speedMs s' = VariantA.speedMs s ∧
  shownA s'.
Proof.
  intros Hrun Hshown. destruct e as [timestamp|gridX gridY]; cbn in Hrun.
  - unfold VariantA.loop in Hrun.
    destruct (VariantA.running s) eqn:Hrunning; [|injection Hrun as <-; auto].
    assert (∃ s1, (if VariantA.stepDue timestamp s
                   then VariantA.generationTick timestamp s else Some s) = Some s1 ∧
                  VariantA.gridSize s1 = VariantA.gridSize s ∧
                  VariantA.running s1 = VariantA.running s ∧
                  VariantA.speedMs s1 = VariantA.speedMs s ∧ shownA s1)
      as (s1 & Hs1 & Ha & Hb & Hc & Hd).
    { destruct (VariantA.stepDue timestamp s).
      - destruct (VariantA.generationTick timestamp s) as [s1|] eqn:Htick;
          [|discriminate Hrun].
        exists s1. split; [reflexivity|]. by apply generationTick_keeps in Htick.
      - exists s. auto. }
    rewrite Hs1 in Hrun. cbn [mbind option_bind] in Hrun.
    destruct (VariantA.resetDue timestamp s1).
    + apply periodicReset_keeps in Hrun as (? & ? & ? & ?).
      repeat split; [congruence..|done].
    + injection Hrun as <-. rewrite Hrunning in Hb. auto.
  - injection Hrun as <-. unfold VariantA.canvasClick, shownA in *.
    destruct (inGrid _ _ _); cbn; auto.
Qed.

Lemma init_keepsA now s0 :
  VariantA.init now = Some s0 →
  VariantA.gridSize s0 = 80 ∧ VariantA.running s0 = true ∧
  VariantA.speedMs s0 = 5000%Q ∧ shownA s0.
Proof.
  unfold VariantA.init.
  destruct (VariantA.createEmptyGrid _) as [g0|]; [|intros H; discriminate H].
  cbn [mbind option_bind].
  destruct (VariantA.placeWordANDER _ _) as [g1|]; [|intros H; discriminate H].
  cbn [mbind option_bind].
  destruct (VariantA.drawGrid _) as [s1|] eqn:Hdraw; [|intros H; discriminate H].
  cbn [mbind option_bind]. intros [= <-].
  apply drawGrid_keepsA in Hdraw as (H1 & H2 & H3 & H4 & H5).
  unfold shownA in *. cbn in *. auto.
Qed.

Lemma drawGrid_keepsB s s' :
  VariantB.drawGrid s = Some s' → shownB s'.
Proof.
  unfold VariantB.drawGrid, shownB.
  destruct (drawCells _ _) as [scr|] eqn:Hdraw; [|intros H; discriminate H].
  cbn [mbind option_bind]. intros [= <-]. cbn. auto.
Qed.

Lemma handle_keepsB random e s s' :
  VariantB.handle random e s = Some s' → shownB s → shownB s'.
Proof.
  intros Hrun Hshown.
  destruct e as [timestamp| | | | | |value|value|gridX gridY]; cbn in Hrun.
  - unfold VariantB.loop in Hrun.
    destruct (VariantB.running s); [|by injection Hrun as <-].
    destruct (Qle_bool _ _); [|by injection Hrun as <-].
    destruct (VariantB.advance s) as [s1|]; [|discriminate Hrun].
    cbn [mbind option_bind] in Hrun.
    destruct (VariantB.drawGrid s1) as [s2|] eqn:Hdraw; [|discriminate Hrun].
    cbn [mbind option_bind] in Hrun. injection Hrun as <-.
    apply drawGrid_keepsB in Hdraw. exact Hdraw.
  - injection Hrun as <-. exact Hshown.
  - injection Hrun as <-. exact Hshown.
  - unfold VariantB.stepBtnClick in Hrun.
    destruct (VariantB.advance _) as [s1|]; [|discriminate Hrun].
    by apply drawGrid_keepsB in Hrun.
  - unfold VariantB.clearBtnClick in Hrun. cbv zeta in Hrun.
    destruct (VariantB.createEmptyGrid _) as [g|]; [|discriminate Hrun].
    by apply drawGrid_keepsB in Hrun.
  - unfold VariantB.randomBtnClick in Hrun.
    destruct (VariantB.randomizeGrid _ _ _ _) as [[g d]|]; [|discriminate Hrun].
    by apply drawGrid_keepsB in Hrun.
  - unfold VariantB.gridSizeChange in Hrun.
    destruct (VariantB.createEmptyGrid _) as [g|]; [|discriminate Hrun].
    by apply drawGrid_keepsB in Hrun.
  - injection Hrun as <-. exact Hshown.
  - unfold VariantB.canvasClick in Hrun.
    destruct (inGrid _ _ _); [|by injection Hrun as <-].
    destruct (readCell _ _ _) as [c|]; [|discriminate Hrun].
    cbn [mbind option_bind] in Hrun.
    destruct (writeCell _ _ _ _) as [g|]; [|discriminate Hrun].
    by apply drawGrid_keepsB in Hrun.
Qed.

(** X14.  The canvas is never stale: after any sequence of events from
    the start of the page, in either variant, the colours on the canvas are
    those of the current grid.  Every handler that changes the grid redraws
    before it returns. *)
Theorem canvas_never_stale (random : nat → Q) :
  validRandom random →
  (∀ now events,
     ∃ s0 s, VariantA.init now = Some s0 ∧
             forEach events (VariantA.handle random) s0 = Some s ∧ shownA s) ∧
  (∀ events, Forall validEventB events →
     ∃ s0 s, VariantB.init = Some s0 ∧
             forEach events (VariantB.handle random) s0 = Some s ∧ shownB s).
Proof.
  intros Hrnd. split.
  - intros now events.
    destruct (init_invariantA now) as (s0 & Hinit & Hinv0 & _).
    pose proof (init_keepsA now s0 Hinit) as (_ & _ & _ & Hshown0).
    destruct (forEach_preserves (λ s, invariantA s ∧ shownA s) events
                (VariantA.handle random) s0) as (s & Hrun & _ & Hshown).
    + split; [exact Hinv0|exact Hshown0].
    + intros e s1 _ [Hinv1 Hshown1].
      destruct (handle_invariantA random e s1 Hrnd Hinv1) as (s2 & Hstep & Hinv2).
      exists s2. split; [exact Hstep|]. split; [exact Hinv2|].
      by apply (handle_keepsA random e s1 s2 Hstep Hshown1).
    + exists s0, s. split; [exact Hinit|]. split; [exact Hrun|exact Hshown].
  - intros events Hev.
    destruct init_invariantB as (s0 & Hinit & Hinv0).
    assert (Hshown0 : shownB s0).
    { unfold VariantB.init in Hinit.
      destruct (VariantB.createEmptyGrid _) as [g|]; [|discriminate Hinit].
      by apply drawGrid_keepsB in Hinit. }
    destruct (forEach_preserves (λ s, invariantB s ∧ shownB s) events
                (VariantB.handle random) s0) as (s & Hrun & _ & Hshown).
    + split; [exact Hinv0|exact Hshown0].
    + intros e s1 He [Hinv1 Hshown1].
      rewrite Forall_forall in Hev.
      destruct (handle_invariantB random e s1 (Hev e He) Hinv1) as (s2 & Hstep & Hinv2).
      exists s2. split; [exact Hstep|]. split; [exact Hinv2|].
      by apply (handle_keepsB random e s1 s2 Hstep Hshown1).
    + exists s0, s. split; [exact Hinit|]. split; [exact Hrun|exact Hshown].
Qed.

Lemma canvas_never_stale_witness :
  validRandom (λ _, 0%Q) ∧
  ∃ s0 s, VariantB.init = Some s0 ∧
          forEach [VariantB.CanvasClick 1 1; VariantB.StartBtn; VariantB.Frame 500]
                  (VariantB.handle (λ _, 0%Q)) s0 = Some s ∧
          shownB s.
Proof.
  assert (Hrnd : validRandom (λ _, 0%Q)).
  { intros k. split; [vm_compute; discriminate|reflexivity]. }
  split; [exact Hrnd|].
  apply (proj2 (canvas_never_stale (λ _, 0%Q) Hrnd)).
  repeat constructor.
Defined.

(** X15.  Variant A has no control that pauses, resizes or retimes the
    page: after any sequence of frames and clicks it is still running, on
    an 80 x 80 grid, with a generation every 5000 ms. *)
Theorem variantA_never_pauses (random : nat → Q) (now : Q)
    (events : list VariantA.event) :
  validRandom random →
  ∃ s0 s, VariantA.init now = Some s0 ∧
          forEach events (VariantA.handle random) s0 = Some s ∧
          VariantA.running s = true ∧
          VariantA.gridSize s = 80 ∧
          VariantA.speedMs s = 5000%Q ∧
          squareGrid 80 (VariantA.grid s).
Proof.
  intros Hrnd.
  destruct (init_invariantA now) as (s0 & Hinit & Hinv0 & _).
  pose proof (init_keepsA now s0 Hinit) as (Hsize0 & Hrun0 & Hspeed0 & Hshown0).
  destruct (forEach_preserves
              (λ s, invariantA s ∧ shownA s ∧ VariantA.running s = true ∧
                    VariantA.gridSize s = 80 ∧ VariantA.speedMs s = 5000%Q)
              events (VariantA.handle random) s0)
    as (s & Hrun & Hinv & _ & Hr & Hsz & Hsp).
  - auto.
  - intros e s1 _ (Hinv1 & Hshown1 & Hr1 & Hsz1 & Hsp1).
    destruct (handle_invariantA random e s1 Hrnd Hinv1) as (s2 & Hstep & Hinv2).
    exists s2. split; [exact Hstep|]. split; [exact Hinv2|].
    destruct (handle_keepsA random e s1 s2 Hstep Hshown1) as (Ha & Hb & Hc & Hd).
    split; [exact Hd|]. split; [congruence|]. split; congruence.
  - exists s0, s. split; [exact Hinit|]. split; [exact Hrun|].
    split; [exact Hr|]. split; [exact Hsz|]. split; [exact Hsp|].
    rewrite <- Hsz. apply Hinv.
Qed.

Lemma variantA_never_pauses_witness :
  validRandom (λ _, 0%Q) ∧
  ∃ s0 s, VariantA.init 0 = Some s0 ∧
          forEach [VariantA.CanvasClick 3 4; VariantA.Frame 20000]
                  (VariantA.handle (λ _, 0%Q)) s0 = Some s ∧
          VariantA.running s = true ∧
          VariantA.gridSize s = 80 ∧
          VariantA.speedMs s = 5000%Q ∧
          squareGrid 80 (VariantA.grid s).
Proof.
  split; [exact validRandom_zero|].
  exact (variantA_never_pauses (λ _, 0%Q) 0
           [VariantA.CanvasClick 3 4; VariantA.Frame 20000] validRandom_zero).
Defined.





(** ** Locality and symmetry of the generation step *)

Lemma nextGeneration_cell N g g' x y :
  squareGrid N g → VariantA.nextGeneration N g = Some g' → InGrid N x y →
  ∃ c, readCell g x y = Some c ∧
       readCell g' x y
       = Some (nextCell c (foldl (λ acc p, acc + contribution N g p) 0
                                 (surrounding x y))).
Proof.
  intros Hsq Hrun Hin.
  destruct (nextGeneration_cells N g Hsq) as (g2 & Hrun2 & _ & Hcells).
  rewrite Hrun in Hrun2. injection Hrun2 as <-.
  destruct (Hcells x y Hin) as (c & n & Hc & Hn & Hv).
  rewrite countNeighbors_sum in Hn by done. injection Hn as <-.
  by exists c.
Qed.

(** X18.  The next state of a cell depends on the cell and its neighbours
    inside the grid only: two grids that agree on these give the cell the
    same next state. *)
Theorem nextGeneration_local (N : Z) (g1 g2 : Grid) (x y : Z) :
  squareGrid N g1 → squareGrid N g2 → InGrid N x y →
  readCell g1 x y = readCell g2 x y →
  (∀ p, p ∈ surrounding x y → InGrid N p.1 p.2 →
        readCell g1 p.1 p.2 = readCell g2 p.1 p.2) →
  ∃ g1' g2', VariantA.nextGeneration N g1 = Some g1' ∧
             VariantA.nextGeneration N g2 = Some g2' ∧
             readCell g1' x y = readCell g2' x y.
Proof.
  intros Hsq1 Hsq2 Hin Hcell Hnear.
  destruct (nextGeneration_cells N g1 Hsq1) as (g1' & Hrun1 & _ & _).
  destruct (nextGeneration_cells N g2 Hsq2) as (g2' & Hrun2 & _ & _).
  exists g1', g2'. split; [exact Hrun1|]. split; [exact Hrun2|].
  destruct (nextGeneration_cell N g1 g1' x y Hsq1 Hrun1 Hin) as (c1 & Hc1 & ->).
  destruct (nextGeneration_cell N g2 g2' x y Hsq2 Hrun2 Hin) as (c2 & Hc2 & ->).
  rewrite Hc1, Hc2 in Hcell. injection Hcell as <-. do 2 f_equal.
  apply foldl_ext_in. intros acc p Hp. f_equal. unfold contribution.
  destruct (inGrid N p.1 p.2) eqn:Hp'; [|reflexivity].
  apply inGrid_true in Hp'. by rewrite (Hnear p Hp Hp').
Qed.

Lemma nextGeneration_local_witness :
  squareGrid 5 blinkerGrid ∧
  ∃ g1' g2',
    VariantA.nextGeneration 5 blinkerGrid = Some g1' ∧
    VariantA.nextGeneration 5
      [[0; 0; 0; 0; 1]; [0; 0; 0; 0; 0]; [0; 1; 1; 1; 0];
       [0; 0; 0; 0; 0]; [1; 0; 0; 0; 1]] = Some g2' ∧
    readCell g1' 2 2 = readCell g2' 2 2.
Proof.
  assert (Hsq : squareGrid 5 blinkerGrid) by concrete_square.
  split; [exact Hsq|].
  apply (nextGeneration_local 5 blinkerGrid _ 2 2 Hsq).
  - concrete_square.
  - unfold InGrid. lia.
  - reflexivity.
  - intros p Hp _. unfold surrounding in Hp.
    rewrite !elem_of_cons, elem_of_nil in Hp.
    destruct Hp as [->|[->|[->|[->|[->|[->|[->|[->|[]]]]]]]]]; reflexivity.
Defined.

Lemma contribution_transposed N g gT a b :
  transposed N g gT → contribution N gT (a, b) = contribution N g (b, a).
Proof.
  intros HT. unfold contribution. cbn [fst snd].
  destruct (inGrid N a b) eqn:Hab.
  - apply inGrid_true in Hab. rewrite (HT a b Hab).
    replace (inGrid N b a) with true; [reflexivity|].
    symmetry. apply inGrid_true. unfold InGrid in *. lia.
  - apply inGrid_false in Hab.
    replace (inGrid N b a) with false; [reflexivity|].
    symmetry. apply inGrid_false. unfold InGrid in *. lia.
Qed.

(** X19.  The generation step treats rows and columns alike: the next
    generation of the transposed grid is the transpose of the next
    generation. *)
Theorem nextGeneration_transpose (N : Z) (g gT : Grid) :
  squareGrid N g → squareGrid N gT → transposed N g gT →
  ∃ g' gT', VariantA.nextGeneration N g = Some g' ∧
            VariantA.nextGeneration N gT = Some gT' ∧
            transposed N g' gT'.
Proof.
  intros Hsq HsqT HT.
  destruct (nextGeneration_cells N g Hsq) as (g' & Hrun & _ & _).
  destruct (nextGeneration_cells N gT HsqT) as (gT' & HrunT & _ & _).
  exists g', gT'. split; [exact Hrun|]. split; [exact HrunT|].
  intros x y Hin.
  assert (Hin' : InGrid N y x) by (unfold InGrid in *; lia).
  destruct (nextGeneration_cell N gT gT' x y HsqT HrunT Hin) as (cT & HcT & ->).
  destruct (nextGeneration_cell N g g' y x Hsq Hrun Hin') as (c & Hc & ->).
  rewrite (HT x y Hin), Hc in HcT. injection HcT as <-. do 2 f_equal.
  unfold surrounding. cbn [foldl].
  rewrite !(contribution_transposed N g gT _ _ HT). lia.
Qed.

Lemma nextGeneration_transpose_witness :
  squareGrid 3 [[1; 1; 1]; [0; 0; 0]; [0; 0; 0]] ∧
  ∃ g' gT',
    VariantA.nextGeneration 3 [[1; 1; 1]; [0; 0; 0]; [0; 0; 0]] = Some g' ∧
    VariantA.nextGeneration 3 [[1; 0; 0]; [1; 0; 0]; [1; 0; 0]] = Some gT' ∧
    readCell gT' 1 1 = readCell g' 1 1.
Proof.
  assert (Hsq : squareGrid 3 [[1; 1; 1]; [0; 0; 0]; [0; 0; 0]]) by concrete_square.
  split; [exact Hsq|].
  destruct (nextGeneration_transpose 3 [[1; 1; 1]; [0; 0; 0]; [0; 0; 0]]
              [[1; 0; 0]; [1; 0; 0]; [1; 0; 0]] Hsq) as (g' & gT' & H1 & H2 & HT).
  - concrete_square.
  - intros x y [Hx Hy].
    assert (x = 0 ∨ x = 1 ∨ x = 2) as [->|[->| ->]] by lia;
      assert (y = 0 ∨ y = 1 ∨ y = 2) as [->|[->| ->]] by lia; reflexivity.
  - exists g', gT'. split; [exact H1|]. split; [exact H2|].
    apply HT. unfold InGrid. lia.
Defined.
